(** * SlicerImageAugmentator: the augmentation dataset and its batch driver

  A shallow embedding of
  - [SlicerAugmentatorLib/SlicerAugmentatorDataset.py]
    ([SlicerAugmentatorDataset]: [load], [apply_transform],
    [apply_dict_transform], [__getitem__], [__len__]) and
  - [SlicerAugmentator.py] ([SlicerAugmentatorLogic.process] and
    [SlicerAugmentatorLogic.preview]).

  Python code runs in a monad that threads the state of the outside
  world (file system, random generators of the transforms, GUI),
  returns a value or raises, and records every call to a collaborator
  as an event. *)

From Stdlib Require Import List String Ascii ZArith Bool Lia.
Import ListNotations.
Local Open Scope string_scope.
Local Open Scope list_scope.

(** ** Fragments of the Python runtime *)

Module Py.

(** Exceptions deriving from [Exception]. *)
Inductive exn : Type :=
| AttributeError
| KeyError
| IndexError
| TypeError
| ValueError
| RuntimeError (msg : string).

Inductive result (A : Type) : Type :=
| Ok (a : A)
| Raise (e : exn).
Arguments Ok {A} a.
Arguments Raise {A} e.

Definition is_AttributeError (e : exn) : bool :=
  match e with AttributeError => true | _ => false end.

(** [None] or a [str]. *)
Definition optstr : Type := option string.

(** Truth value of [path] in [if (path):]. *)
Definition truthy (p : optstr) : bool :=
  match p with
  | None => false
  | Some s => negb (s =? "")
  end.

(** Truth value of a list in [if xs:]. *)
Definition nonempty {A} (l : list A) : bool :=
  match l with [] => false | _ :: _ => true end.

(** [l[i]] for an [int] index: negative indices count from the end,
    anything out of range raises [IndexError]. *)
Definition index {A} (l : list A) (i : Z) : result A :=
  let n := Z.of_nat (List.length l) in
  let j := (if i <? 0 then i + n else i)%Z in
  if ((0 <=? j) && (j <? n))%Z
  then match nth_error l (Z.to_nat j) with
       | Some a => Ok a
       | None => Raise IndexError
       end
  else Raise IndexError.

(** [l[:1]]. *)
Definition slice1 {A} (l : list A) : list A := firstn 1 l.

(** An insertion-ordered [dict] with string keys. *)
Definition dict (V : Type) : Type := list (string * V).

Fixpoint dict_get {V} (k : string) (d : dict V) : option V :=
  match d with
  | [] => None
  | (k', v) :: d' => if k' =? k then Some v else dict_get k d'
  end.

(** [d[k]]. *)
Definition subscript {V} (d : dict V) (k : string) : result V :=
  match dict_get k d with
  | Some v => Ok v
  | None => Raise KeyError
  end.

(** [d.values()]. *)
Definition values {V} (d : dict V) : list V := map snd d.

(** [a, b = xs]. *)
Definition unpack2 {V} (xs : list V) : result (V * V) :=
  match xs with
  | [a; b] => Ok (a, b)
  | _ => Raise ValueError
  end.

(** [s.split(".")]. *)
Fixpoint split_dot (s : string) : list string :=
  match s with
  | EmptyString => [EmptyString]
  | String c s' =>
      if Ascii.eqb c "."%char
      then EmptyString :: split_dot s'
      else match split_dot s' with
           | [] => [String c EmptyString]
           | w :: ws => String c w :: ws
           end
  end.

(** The string holds a dot. *)
Definition has_dot (s : string) : bool :=
  existsb (Ascii.eqb "."%char) (list_ascii_of_string s).

End Py.
Import Py.

(** ** Tensors *)

Inductive Device : Type :=
| cpu
| accelerator (index : Z).

Inductive Dtype : Type :=
| stored
| float32.

(** A [torch.Tensor]: its elements in storage order, the element type
  and the device it lives on.  Only whether an element is zero is
  ever inspected by the code. *)
Record Tensor : Type := mkTensor {
  elements : list Z;
  dtype : Dtype;
  device_of : Device
}.

Module Torch.

(** [t.to(device)]. *)
Definition to (d : Device) (t : Tensor) : Tensor :=
  {| elements := elements t; dtype := dtype t; device_of := d |}.

(** [t.float()]: the element type becomes float32.  The elements are
    kept as they are; the rounding of large values to float32 is not
    modelled. *)
Definition float (t : Tensor) : Tensor :=
  {| elements := elements t; dtype := float32; device_of := device_of t |}.

(** [t.detach().cpu()]. *)
Definition detach_cpu (t : Tensor) : Tensor :=
  {| elements := elements t; dtype := dtype t; device_of := cpu |}.

(** [t.any()]: some element is not zero. *)
Definition any (t : Tensor) : bool :=
  existsb (fun v => negb (v =? 0)%Z) (elements t).

End Torch.

(** A named result, [[transform_name, tensor]]. *)
Definition Results : Type := list (string * Tensor).

(** ** Naming by type

    The pieces of [sanitize], the model of [sanitizeTransformName]. *)

Module Sanitize.

Definition lower (c : ascii) : ascii :=
  let n := nat_of_ascii c in
  if (65 <=? n)%nat && (n <=? 90)%nat then ascii_of_nat (n + 32) else c.

(** Characters of a lower-case identifier. *)
Definition safe_char (c : ascii) : bool :=
  let n := nat_of_ascii c in
  ((97 <=? n)%nat && (n <=? 122)%nat)
  || ((48 <=? n)%nat && (n <=? 57)%nat)
  || (n =? 95)%nat.

Fixpoint path_safe (s : string) : bool :=
  match s with
  | EmptyString => true
  | String c s' => safe_char c && path_safe s'
  end.

(** The part after the last dot: drops the package prefix of a
    qualified type name. *)
Fixpoint after_last_dot (s : string) : string :=
  match s with
  | EmptyString => EmptyString
  | String c s' =>
      if existsb (Ascii.eqb "."%char) (list_ascii_of_string s')
      then after_last_dot s'
      else if Ascii.eqb c "."%char then s' else s
  end.

Fixpoint lowercase (s : string) : string :=
  match s with
  | EmptyString => EmptyString
  | String c s' => String (lower c) (lowercase s')
  end.

Fixpoint keep_safe (s : string) : string :=
  match s with
  | EmptyString => EmptyString
  | String c s' =>
      if safe_char c then String c (keep_safe s') else keep_safe s'
  end.

(** Modelled from the spec: the helper [sanitizeTransformName] is defined
    in [SlicerAugmentatorLib/SlicerAugmentatorUtils.py], which is not one
    of the two files embedded here.  The spec describes it as "sanitizing the
    transform's own type name (strip library-specific suffixes/prefixes,
    normalize casing) into a short identifier suitable for use as a
    file-path segment" and asks for "a non-empty, path-safe string
    derived from the transform's type".  Here: the package prefix goes,
    letters become lower case, only identifier characters stay, and a
    type name of which nothing stays is called [transform]. *)
Definition sanitize (type_name : string) : string :=
  match keep_safe (lowercase (after_last_dot type_name)) with
  | EmptyString => "transform"
  | s => s
  end.

End Sanitize.

Section Augmentator.

(** The state of everything outside the program: files, the random
    generators held by the transforms, the scene of the GUI. *)
Context {World : Type}.

(** A [SimpleITK.Image]. *)
Context {Image : Type}.

(** A call into the outside world. *)
Definition extern (A : Type) : Type := World -> result A * World.

(** *** Transforms *)

(** A MONAI transform, as far as the dataset looks at it.  A call is a
    function of its input and of the world; a transform that changes its
    input in place is not modelled. *)
Record Transform : Type := mkTransform {
  (** [isinstance(transform, RandomizableTransform)] *)
  randomizable : bool;
  (** [transform.get_transform_info()]: [None] when the attribute is
      missing, otherwise what the call returns or raises. *)
  get_transform_info : option (result (dict string));
  (** the name of [type(transform)] *)
  type_name : string;
  (** [transform(tensor)] *)
  call_array : Tensor -> extern Tensor;
  (** [transform(data_dict)] *)
  call_dict : dict Tensor -> extern (dict Tensor)
}.

(** Which call site of [save] wrote a volume: line 206 (image) or
    line 209 (mask) of [SlicerAugmentator.py]. *)
Inductive Role : Type := image_volume | mask_volume.

Inductive Message : Type :=
| Started
| Completed (startTime stopTime : Z).

(** Calls to collaborators, in the order they happen. *)
Inductive Event : Type :=
| EvReadImage (path : optstr)
| EvApplyArray (t : Transform) (x : Tensor)
| EvApplyDict (t : Transform) (d : dict Tensor)
| EvCollect (imagesInputPath imgPrefix maskPrefix : string)
| EvClearScene
| EvGetOriginalCase (path : optstr) (filesStructure : string)
| EvMakeDir (outputPath outDir caseName transformName : string)
| EvSave (role : Role) (t : Tensor) (dir prefix : string)
         (original : Image) (ext : string)
| EvShowPreview (img : Tensor) (originalCaseImg : Image)
                (originalCaseMask : option Image) (mask : option Tensor)
                (imgNodeName : string) (maskNodeName : option string)
| EvResetViews
| EvSetMaximum (n : nat)
| EvSetValue (n : nat)
| EvSetText (m : Message)
| EvLogInfo (m : Message)
| EvPrint (e : exn).

(** *** The monad *)

Definition M (A : Type) : Type := World -> result A * World * list Event.

Definition ret {A} (a : A) : M A := fun w => (Ok a, w, []).

Definition raise {A} (e : exn) : M A := fun w => (Raise e, w, []).

Definition lift {A} (r : result A) : M A := fun w => (r, w, []).

Definition bind {A B} (m : M A) (k : A -> M B) : M B :=
  fun w =>
    match m w with
    | (Ok a, w1, l1) =>
        match k a w1 with
        | (r, w2, l2) => (r, w2, l1 ++ l2)
        end
    | (Raise e, w1, l1) => (Raise e, w1, l1)
    end.

(** [try: m  except ...: h e]; [catches e] tells whether the [except]
    clause matches [e]. *)
Definition try_except {A} (m : M A) (catches : exn -> bool)
           (h : exn -> M A) : M A :=
  fun w =>
    match m w with
    | (Ok a, w1, l1) => (Ok a, w1, l1)
    | (Raise e, w1, l1) =>
        if catches e
        then match h e w1 with
             | (r, w2, l2) => (r, w2, l1 ++ l2)
             end
        else (Raise e, w1, l1)
    end.

(** A collaborator is called: the call is recorded, whatever comes of
    it. *)
Definition call {A} (ev : Event) (f : extern A) : M A :=
  fun w => match f w with (r, w') => (r, w', [ev]) end.

Definition emit (ev : Event) : M unit := fun w => (Ok tt, w, [ev]).

Local Notation "x <- m ;; k" := (bind m (fun x => k))
  (at level 61, m at next level, right associativity).
Local Notation "' p <- m ;; k" := (bind m (fun x => let p := x in k))
  (at level 61, p pattern, m at next level, right associativity).
Local Notation "m ;;; k" := (bind m (fun _ => k))
  (at level 61, right associativity).

Fixpoint foldM {A B} (f : B -> A -> M B) (l : list A) (b : B) : M B :=
  match l with
  | [] => ret b
  | a :: l' => b' <- f b a ;; foldM f l' b'
  end.

(** [for x in l: body x]. *)
Fixpoint for_each {A} (l : list A) (body : A -> M unit) : M unit :=
  match l with
  | [] => ret tt
  | a :: l' => body a ;;; for_each l' body
  end.

(** *** Collaborators

    Code of other modules and libraries that the two files call. *)

Record Collaborators : Type := mkCollaborators {
  (** [sitk.ReadImage(path)] *)
  ReadImage : optstr -> extern Image;
  (** [torch.tensor(sitk.GetArrayFromImage(img))] *)
  tensor_of_image : Image -> result Tensor;
  (** truth value of a [SimpleITK.Image] in a condition *)
  image_bool : Image -> bool;
  extract_device_number : string -> result Z;
  collectImagesAndMasksList :
    string -> string -> string -> extern (list optstr * list optstr);
  validateCollectedImagesAndMasks :
    list optstr -> list optstr -> result unit;
  getOriginalCase : optstr -> string -> extern (string * Image);
  makeDir : string -> string -> string -> string -> extern string;
  save : Tensor -> string -> string -> Image -> string -> extern unit;
  showPreview :
    Tensor -> Image -> option Image -> option Tensor ->
    string -> option string -> extern unit;
  clearScene : extern unit;
  resetViews : extern unit;
  (** [time.time()] *)
  time_time : World -> Z * World
}.

Context (env : Collaborators).

Definition now : M Z :=
  fun w => match time_time env w with (t, w') => (Ok t, w', []) end.

(** *** SlicerAugmentatorDataset *)

Record SlicerAugmentatorDataset : Type := mkDataset {
  imgPaths : list optstr;
  maskPaths : option (list optstr);
  transformations : list Transform;
  device : Device
}.

(** [__init__] *)
Definition init (imgPaths : list optstr) (maskPaths : option (list optstr))
           (transformations : list Transform) (device : string)
  : result SlicerAugmentatorDataset :=
  match (if device =? "CPU" then Ok cpu
         else match extract_device_number env device with
              | Ok n => Ok (accelerator n)
              | Raise e => Raise e
              end) with
  | Ok d => Ok (mkDataset imgPaths maskPaths transformations d)
  | Raise e => Raise e
  end.

(** [__len__] *)
Definition len (ds : SlicerAugmentatorDataset) : nat :=
  List.length (imgPaths ds).

(** The decoding inside [load]. *)
Definition decode (path : optstr) : M Tensor :=
  img <- call (EvReadImage path) (ReadImage env path) ;;
  data <- lift (tensor_of_image env img) ;;
  ret data.

Definition load (path : optstr) : M (option Tensor) :=
  try_except
    (if truthy path
     then data <- decode path ;; ret (Some data)
     else ret None)
    (fun _ => true)
    (fun _ => ret None).

(** Modelled from the spec: [sanitizeTransformName] of
    [SlicerAugmentatorUtils.py], which is not one of the two files
    embedded here, works on the transform's own type name; see
    [Sanitize.sanitize]. *)
Definition sanitizeTransformName (t : Transform) : string :=
  Sanitize.sanitize (type_name t).

(** The [try]/[except AttributeError] that opens [apply_transform] and
    [apply_dict_transform]. *)
Definition transform_name (t : Transform) : result string :=
  match
    match get_transform_info t with
    | None => Raise AttributeError
    | Some (Raise e) => Raise e
    | Some (Ok info) => subscript info "class"
    end
  with
  | Ok name => Ok name
  | Raise e =>
      if is_AttributeError e then Ok (sanitizeTransformName t) else Raise e
  end.

Definition apply_transform (transform : Transform) (img : Tensor)
           (transformedList : Results) : M Results :=
  transform_name <- lift (transform_name transform) ;;
  transformedImg <-
    call (EvApplyArray transform (Torch.float img))
         (call_array transform (Torch.float img)) ;;
  ret (transformedList ++ [(transform_name, transformedImg)]).

Definition apply_dict_transform (transform : Transform)
           (data_dict : dict Tensor) (transformedImages : Results)
           (transformedMasks : option Results) : M (Results * Results) :=
  transform_name <- lift (transform_name transform) ;;
  match transformedMasks with
  | Some transformedMasks =>
      out <- call (EvApplyDict transform data_dict)
                  (call_dict transform data_dict) ;;
      '(transformedImg, transformedMask) <- lift (unpack2 (values out)) ;;
      ret (transformedImages ++ [(transform_name, transformedImg)],
           transformedMasks ++ [(transform_name, transformedMask)])
  | None =>
      transformedImg <- call (EvApplyDict transform data_dict)
                             (call_dict transform data_dict) ;;
      v <- lift (subscript transformedImg "img") ;;
      ret (transformedImages ++ [(transform_name, v)], [])
  end.

(** Lines 81, 84 and 85 of [__getitem__]: the mask, when mask paths
    are configured. *)
Definition load_mask (ds : SlicerAugmentatorDataset) (idx : Z)
  : M (option Tensor) :=
  match maskPaths ds with
  | Some mp =>
      if (0 <? List.length mp)%nat
      then mpath <- lift (index mp idx) ;; load mpath
      else ret None
  | None => ret None
  end.

(** Lines 81 to 85 of [__getitem__]: the image and the mask. *)
Definition load_case (ds : SlicerAugmentatorDataset) (idx : Z)
  : M (option Tensor * option Tensor) :=
  ipath <- lift (index (imgPaths ds) idx) ;;
  img <- load ipath ;;
  mask <- load_mask ds idx ;;
  ret (img, mask).

(** The body of [for transform in self.transformations]: four [if]s
    in a row. *)
Definition apply_one (dev : Device) (img mask : option Tensor)
           (acc : Results * Results) (transform : Transform)
  : M (Results * Results) :=
  acc1 <- match img, mask with
          | Some im, Some mk =>
              if randomizable transform
              then apply_dict_transform transform
                     [("img", Torch.to dev im); ("mask", Torch.to dev mk)]
                     (fst acc) (Some (snd acc))
              else ret acc
          | _, _ => ret acc
          end ;;
  acc2 <- match img, mask with
          | Some im, None =>
              if randomizable transform
              then apply_dict_transform transform
                     [("img", Torch.to dev im)] (fst acc1) None
              else ret acc1
          | _, _ => ret acc1
          end ;;
  transformedImages <-
    match img with
    | Some im =>
        if negb (randomizable transform)
        then apply_transform transform (Torch.to dev im) (fst acc2)
        else ret (fst acc2)
    | None => ret (fst acc2)
    end ;;
  transformedMasks <-
    match mask with
    | Some mk =>
        if negb (randomizable transform)
        then apply_transform transform (Torch.to dev mk) (snd acc2)
        else ret (snd acc2)
    | None => ret (snd acc2)
    end ;;
  ret (transformedImages, transformedMasks).

Definition apply_all (ds : SlicerAugmentatorDataset)
           (img mask : option Tensor) : M (Results * Results) :=
  foldM (apply_one (device ds) img mask) (transformations ds) ([], []).

(** [__getitem__] *)
Definition getitem (ds : SlicerAugmentatorDataset) (idx : Z)
  : M (Results * Results) :=
  '(img, mask) <- load_case ds idx ;;
  apply_all ds img mask.

(** *** SlicerAugmentatorLogic *)

Definition OUTPUT_IMG_DIR : string := "SlicerAugmentator".

(** [parts[1] if len(parts) > 1 else "nrrd"] *)
Definition extension (parts : list string) : string :=
  if (1 <? List.length parts)%nat then nth 1 parts "nrrd" else "nrrd".

(** [transformedMasks[i] if i < len(transformedMasks) else None] *)
Definition mask_pack (transformedMasks : Results) (i : nat)
  : M (option (string * Tensor)) :=
  if (i <? List.length transformedMasks)%nat
  then p <- lift (index transformedMasks (Z.of_nat i)) ;; ret (Some p)
  else ret None.

(** [originalCaseMask and msk != None and msk.any()] *)
Definition persist_mask (originalCaseMask : option Image)
           (msk : option Tensor) : bool :=
  match originalCaseMask with
  | Some om =>
      image_bool env om
      && match msk with
         | Some m => Torch.any m
         | None => false
         end
  | None => false
  end.

(** The body of [for i in range(len(transformedImages))] in [process]. *)
Definition process_position (outputPath imgPrefix maskPrefix : string)
           (caseName : string) (originalCaseImg : Image)
           (originalCaseMask : option Image)
           (transformedImages transformedMasks : Results) (i : nat)
  : M unit :=
  imgPack <- lift (index transformedImages (Z.of_nat i)) ;;
  mskPack <- mask_pack transformedMasks i ;;
  let transformName := fst imgPack in
  let img := snd imgPack in
  let msk := match mskPack with
             | Some p => Some (snd p)
             | None => None
             end in
  currentDir <- call (EvMakeDir outputPath OUTPUT_IMG_DIR caseName
                                transformName)
                     (makeDir env outputPath OUTPUT_IMG_DIR caseName
                              transformName) ;;
  let imgPrefixParts := split_dot imgPrefix in
  let maskPrefixParts := split_dot maskPrefix in
  imgPrefix0 <- lift (index imgPrefixParts 0) ;;
  call (EvSave image_volume (Torch.detach_cpu img) currentDir imgPrefix0
               originalCaseImg (extension imgPrefixParts))
       (save env (Torch.detach_cpu img) currentDir imgPrefix0
             originalCaseImg (extension imgPrefixParts)) ;;;
  if persist_mask originalCaseMask msk
  then
    match originalCaseMask, msk with
    | Some om, Some m =>
        maskPrefix0 <- lift (index maskPrefixParts 0) ;;
        call (EvSave mask_volume (Torch.detach_cpu m) currentDir
                     maskPrefix0 om (extension maskPrefixParts))
             (save env (Torch.detach_cpu m) currentDir maskPrefix0 om
                   (extension maskPrefixParts))
    | _, _ => ret tt
    end
  else ret tt.

(** What [process] does with the results of one case before it walks
    through them: the name and the original volumes of the case. *)
Definition case_header (imgs masks : list optstr) (filesStructure : string)
           (dirIdx : nat) (transformedMasks : Results)
  : M (string * Image * option Image) :=
  ipath <- lift (index imgs (Z.of_nat dirIdx)) ;;
  original <- call (EvGetOriginalCase ipath filesStructure)
                   (getOriginalCase env ipath filesStructure) ;;
  let caseName := fst original in
  let originalCaseImg := snd original in
  originalCaseMask <-
    (if nonempty transformedMasks
     then mpath <- lift (index masks (Z.of_nat dirIdx)) ;;
          om <- call (EvReadImage mpath) (ReadImage env mpath) ;;
          ret (Some om)
     else ret None) ;;
  ret (caseName, originalCaseImg, originalCaseMask).

(** What [process] does with the results of one case, inside its
    [try]. *)
Definition process_results (imgs masks : list optstr)
           (outputPath imgPrefix maskPrefix filesStructure : string)
           (dirIdx : nat) (transformedImages transformedMasks : Results)
  : M unit :=
  h <- case_header imgs masks filesStructure dirIdx transformedMasks ;;
  let '(caseName, originalCaseImg, originalCaseMask) := h in
  for_each (seq 0 (List.length transformedImages))
    (process_position outputPath imgPrefix maskPrefix caseName
       originalCaseImg originalCaseMask transformedImages
       transformedMasks) ;;;
  emit (EvSetValue (dirIdx + 1)).

(** The body of [for dirIdx in range(len(dataset))] in [process]. *)
Definition process_case (dataset : SlicerAugmentatorDataset)
           (imgs masks : list optstr)
           (outputPath imgPrefix maskPrefix filesStructure : string)
           (dirIdx : nat) : M unit :=
  results <- getitem dataset (Z.of_nat dirIdx) ;;
  try_except
    (process_results imgs masks outputPath imgPrefix maskPrefix
       filesStructure dirIdx (fst results) (snd results))
    (fun _ => true)
    (fun e => raise e).

(** [for dirIdx in ...] of [process], over the given indices. *)
Definition process_loop (dataset : SlicerAugmentatorDataset)
           (imgs masks : list optstr)
           (outputPath imgPrefix maskPrefix filesStructure : string)
           (cases : list nat) : M unit :=
  for_each cases
    (process_case dataset imgs masks outputPath imgPrefix maskPrefix
       filesStructure).

(** [process] up to its loop. *)
Definition process_setup (imagesInputPath imgPrefix maskPrefix : string)
           (transformations : list Transform) (device : string)
  : M (Z * list optstr * list optstr * SlicerAugmentatorDataset) :=
  startTime <- now ;;
  emit (EvLogInfo Started) ;;;
  found <- call (EvCollect imagesInputPath imgPrefix maskPrefix)
                (collectImagesAndMasksList env imagesInputPath imgPrefix
                   maskPrefix) ;;
  let imgs := fst found in
  let masks := snd found in
  lift (validateCollectedImagesAndMasks env imgs masks) ;;;
  dataset <- lift (init imgs (Some masks) transformations device) ;;
  emit (EvSetMaximum (len dataset)) ;;;
  ret (startTime, imgs, masks, dataset).

(** The end of [process] and of [preview]. *)
Definition report (startTime : Z) : M unit :=
  stopTime <- now ;;
  emit (EvSetText (Completed startTime stopTime)) ;;;
  emit (EvLogInfo (Completed startTime stopTime)).

Definition process (imagesInputPath imgPrefix maskPrefix outputPath
                    filesStructure : string)
           (transformations : list Transform) (device : string) : M unit :=
  s <- process_setup imagesInputPath imgPrefix maskPrefix transformations
         device ;;
  let '(startTime, imgs, masks, dataset) := s in
  process_loop dataset imgs masks outputPath imgPrefix maskPrefix
    filesStructure (seq 0 (len dataset)) ;;;
  report startTime.

(** [f"{caseName}_{transformName}_img"] and its like. *)
Definition node_name (caseName transformName suffix : string) : string :=
  (caseName ++ "_" ++ transformName ++ suffix)%string.

(** The body of [for i in range(len(transformedImages))] in [preview],
    when there are mask results. *)
Definition preview_position (caseName : string)
           (originalCaseImg originalCaseMask : Image)
           (transformedImages transformedMasks : Results) (i : nat)
  : M unit :=
  imgPack <- lift (index transformedImages (Z.of_nat i)) ;;
  mskPack <- mask_pack transformedMasks i ;;
  let transformName := fst imgPack in
  let img := snd imgPack in
  (** [_, msk = mskPack] *)
  msk <- match mskPack with
         | Some p => ret (snd p)
         | None => raise TypeError
         end ;;
  let imgNodeName := node_name caseName transformName "_img" in
  let maskNodeName := node_name caseName transformName "_mask" in
  call (EvShowPreview img originalCaseImg (Some originalCaseMask)
          (Some msk) imgNodeName (Some maskNodeName))
       (showPreview env img originalCaseImg (Some originalCaseMask)
          (Some msk) imgNodeName (Some maskNodeName)).

(** The body of [for imgPack in transformedImages] in [preview]. *)
Definition preview_image (caseName : string) (originalCaseImg : Image)
           (imgPack : string * Tensor) : M unit :=
  let transformName := fst imgPack in
  let img := snd imgPack in
  let imgNodeName := node_name caseName transformName "_img" in
  call (EvShowPreview img originalCaseImg None None imgNodeName None)
       (showPreview env img originalCaseImg None None imgNodeName None).

(** What stands inside the [try] of [preview]. *)
Definition preview_attempt (dataset : SlicerAugmentatorDataset)
           (imgs masks : list optstr) (filesStructure : string)
           (dirIdx : nat) : M unit :=
  results <- getitem dataset (Z.of_nat dirIdx) ;;
  let transformedImages := fst results in
  let transformedMasks := snd results in
  ipath <- lift (index imgs (Z.of_nat dirIdx)) ;;
  original <- call (EvGetOriginalCase ipath filesStructure)
                   (getOriginalCase env ipath filesStructure) ;;
  let caseName := fst original in
  let originalCaseImg := snd original in
  (if nonempty transformedMasks
   then
     mpath <- lift (index masks (Z.of_nat dirIdx)) ;;
     originalCaseMask <- call (EvReadImage mpath) (ReadImage env mpath) ;;
     for_each (seq 0 (List.length transformedImages))
       (preview_position caseName originalCaseImg originalCaseMask
          transformedImages transformedMasks)
   else
     for_each transformedImages (preview_image caseName originalCaseImg)) ;;;
  call EvResetViews (resetViews env) ;;;
  emit (EvSetValue (dirIdx + 1)).

(** The body of [for dirIdx in range(len(dataset))] in [preview]. *)
Definition preview_case (dataset : SlicerAugmentatorDataset)
           (imgs masks : list optstr) (filesStructure : string)
           (dirIdx : nat) : M unit :=
  try_except
    (preview_attempt dataset imgs masks filesStructure dirIdx)
    (fun _ => true)
    (fun e => emit (EvPrint e)).

(** [for dirIdx in ...] of [preview], over the given indices. *)
Definition preview_loop (dataset : SlicerAugmentatorDataset)
           (imgs masks : list optstr) (filesStructure : string)
           (cases : list nat) : M unit :=
  for_each cases (preview_case dataset imgs masks filesStructure).

(** [preview] up to its loop. *)
Definition preview_setup (imagesInputPath imgPrefix maskPrefix : string)
           (transformations : list Transform) (device : string)
  : M (Z * list optstr * list optstr * SlicerAugmentatorDataset) :=
  startTime <- now ;;
  emit (EvLogInfo Started) ;;;
  found <- call (EvCollect imagesInputPath imgPrefix maskPrefix)
                (collectImagesAndMasksList env imagesInputPath imgPrefix
                   maskPrefix) ;;
  let imgs := fst found in
  let masks := snd found in
  lift (validateCollectedImagesAndMasks env imgs masks) ;;;
  call EvClearScene (clearScene env) ;;;
  dataset <- lift (init (slice1 imgs) (Some (slice1 masks)) transformations
                     device) ;;
  emit (EvSetMaximum (len dataset)) ;;;
  ret (startTime, imgs, masks, dataset).

Definition preview (imagesInputPath imgPrefix maskPrefix : string)
           (transformations : list Transform) (filesStructure : string)
           (device : string) : M unit :=
  s <- preview_setup imagesInputPath imgPrefix maskPrefix transformations
         device ;;
  let '(startTime, imgs, masks, dataset) := s in
  preview_loop dataset imgs masks filesStructure (seq 0 (len dataset)) ;;;
  report startTime.

(** *** Vocabulary of the properties *)

(** The entry carries the name of the transform. *)
Definition named (t : Transform) (entry : string * Tensor) : Prop :=
  transform_name t = Ok (fst entry).

Definition deterministic (t : Transform) : bool := negb (randomizable t).

(** The dictionary handed to a randomizable transform when image and
    mask are both there. *)
Definition joint_input (dev : Device) (im mk : Tensor) : dict Tensor :=
  [("img", Torch.to dev im); ("mask", Torch.to dev mk)].

(** The applications of one transform to a case with image and mask. *)
Definition joint_events (dev : Device) (im mk : Tensor) (t : Transform)
  : list Event :=
  if randomizable t
  then [EvApplyDict t (joint_input dev im mk)]
  else [EvApplyArray t (Torch.float (Torch.to dev im));
        EvApplyArray t (Torch.float (Torch.to dev mk))].

(** What a transform leaves in the two lists of a case with image and
    mask: one entry in each, under its name.  For a randomizable
    transform the two tensors are the two values of one call on the
    dictionary; for a deterministic one they come from two calls, on
    the image and on the mask. *)
Definition contributes (dev : Device) (im mk : Tensor) (t : Transform)
           (o : (string * Tensor) * (string * Tensor)) : Prop :=
  named t (fst o) /\ named t (snd o) /\
  if randomizable t
  then exists w w' out,
      call_dict t (joint_input dev im mk) w = (Ok out, w') /\
      values out = [snd (fst o); snd (snd o)]
  else exists w1 w1' w2 w2',
      call_array t (Torch.float (Torch.to dev im)) w1
      = (Ok (snd (fst o)), w1') /\
      call_array t (Torch.float (Torch.to dev mk)) w2
      = (Ok (snd (snd o)), w2').

(** The ways a case has no mask when its mask is looked up in world
    [w]: no mask paths at all ([None] or an empty list), an entry that
    is [None] or empty, or a file that does not decode. *)
Definition without_mask (ds : SlicerAugmentatorDataset) (idx : Z)
           (w : World) : Prop :=
  maskPaths ds = None \/ maskPaths ds = Some [] \/
  exists mp p,
    maskPaths ds = Some mp /\ index mp idx = Ok p /\
    (truthy p = false \/ exists e w' l, decode p w = (Raise e, w', l)).

(** The mask branch on its own: the deterministic transforms, in
    configuration order, each applied to the mask. *)
Definition mask_branch (dev : Device) (mk : Tensor) (ts : list Transform)
  : M Results :=
  foldM (fun tm t => apply_transform t (Torch.to dev mk) tm)
        (filter deterministic ts) [].

(** The event applies a deterministic transform to the mask. *)
Definition on_mask (dev : Device) (mk : Tensor) (ev : Event) : Prop :=
  match ev with
  | EvApplyArray t x =>
      x = Torch.float (Torch.to dev mk) /\ randomizable t = false
  | _ => False
  end.

(** A transform that names itself and returns: a tensor for a tensor,
    and for a dictionary one with the same keys. *)
Definition well_behaved (t : Transform) : Prop :=
  (exists n, transform_name t = Ok n) /\
  (forall x w, exists y w', call_array t x w = (Ok y, w')) /\
  (forall d w, exists d' w',
      call_dict t d w = (Ok d', w') /\ map fst d' = map fst d).

(** The event writes to the output directory. *)
Definition persists (ev : Event) : bool :=
  match ev with
  | EvMakeDir _ _ _ _ => true
  | EvSave _ _ _ _ _ _ => true
  | _ => false
  end.

(** The event writes a mask. *)
Definition saves_mask (ev : Event) : bool :=
  match ev with
  | EvSave mask_volume _ _ _ _ _ => true
  | _ => false
  end.

(** Position [i] holds a mask result that is not all zero. *)
Definition nontrivial_mask_at (transformedMasks : Results) (i : nat) : bool :=
  match nth_error transformedMasks i with
  | Some p => Torch.any (snd p)
  | None => false
  end.

(** *** Vocabulary of further properties *)

(** The index addresses an element of the list, from the front or from
    the end. *)
Definition in_range {A} (l : list A) (i : Z) : bool :=
  ((- Z.of_nat (List.length l) <=? i) && (i <? Z.of_nat (List.length l)))%Z.

(** The one application of a transform to a case with an image and no
    mask. *)
Definition image_event (dev : Device) (im : Tensor) (t : Transform)
  : Event :=
  if randomizable t
  then EvApplyDict t [("img", Torch.to dev im)]
  else EvApplyArray t (Torch.float (Torch.to dev im)).

(** The event applies a transform to what was loaded for the case: a
    deterministic transform to the image or to the mask, moved to the
    device and made float; a randomizable transform to the dictionary of
    the image and, if there is one, the mask, moved to the device. *)
Definition applies_loaded (dev : Device) (img mask : option Tensor)
           (ev : Event) : Prop :=
  match ev with
  | EvApplyArray t x =>
      randomizable t = false /\
      ((exists im, img = Some im /\ x = Torch.float (Torch.to dev im)) \/
       (exists mk, mask = Some mk /\ x = Torch.float (Torch.to dev mk)))
  | EvApplyDict t d =>
      randomizable t = true /\
      exists im,
        img = Some im /\
        d = match mask with
            | Some mk => joint_input dev im mk
            | None => [("img", Torch.to dev im)]
            end
  | _ => False
  end.

(** The event hands a transform its input on the device: a
    deterministic transform a float tensor on the device; a randomizable
    transform, which needs the image, a dictionary on the device under
    the keys [img] and [mask], or [img] alone when there is no mask. *)
Definition handed_over (dev : Device) (img mask : option Tensor)
           (ev : Event) : Prop :=
  match ev with
  | EvApplyArray t x =>
      randomizable t = false /\ device_of x = dev /\ dtype x = float32
  | EvApplyDict t d =>
      randomizable t = true /\
      img <> None /\
      map fst d = match mask with
                  | Some _ => ["img"; "mask"]
                  | None => ["img"]
                  end /\
      Forall (fun kv => device_of (snd kv) = dev) d
  | _ => False
  end.

(** The event reads a file. *)
Definition is_read (ev : Event) : bool :=
  match ev with
  | EvReadImage _ => true
  | _ => false
  end.

(** How many image results and mask results a case returns, by what
    was loaded for it. *)
Definition image_results (img : option Tensor) (ts : list Transform) : nat :=
  match img with
  | Some _ => List.length ts
  | None => 0
  end.

Definition mask_results (img mask : option Tensor) (ts : list Transform)
  : nat :=
  match mask, img with
  | None, _ => 0
  | Some _, Some _ => List.length ts
  | Some _, None => List.length (filter deterministic ts)
  end.

(** The event is one of the dataset: a file is read or a transform is
    applied. *)
Definition is_dataset_event (ev : Event) : bool :=
  match ev with
  | EvReadImage _ => true
  | EvApplyArray _ _ => true
  | EvApplyDict _ _ => true
  | _ => false
  end.

(** The images written, in the order of the writing. *)
Definition saved_images (l : list Event) : list Tensor :=
  flat_map (fun ev => match ev with
                      | EvSave image_volume t _ _ _ _ => [t]
                      | _ => []
                      end) l.

(** The transform names of the directories asked for, in order. *)
Definition made_dirs (l : list Event) : list string :=
  flat_map (fun ev => match ev with
                      | EvMakeDir _ _ _ transformName => [transformName]
                      | _ => []
                      end) l.

(** The values the progress bar was set to, in order. *)
Definition progress_values (l : list Event) : list nat :=
  flat_map (fun ev => match ev with
                      | EvSetValue n => [n]
                      | _ => []
                      end) l.

(** The maxima the progress bar was given, in order. *)
Definition progress_maxima (l : list Event) : list nat :=
  flat_map (fun ev => match ev with
                      | EvSetMaximum n => [n]
                      | _ => []
                      end) l.

(** The images put on display, each under its node name, in order. *)
Definition shown (l : list Event) : list (string * Tensor) :=
  flat_map (fun ev => match ev with
                      | EvShowPreview img _ _ _ imgNodeName _ =>
                          [(imgNodeName, img)]
                      | _ => []
                      end) l.

(** The event moves the progress bar. *)
Definition is_progress (ev : Event) : bool :=
  match ev with
  | EvSetMaximum _ => true
  | EvSetValue _ => true
  | _ => false
  end.

(** The event writes an image. *)
Definition saves_image (ev : Event) : bool :=
  match ev with
  | EvSave image_volume _ _ _ _ _ => true
  | _ => false
  end.

(** The event puts a volume on display. *)
Definition shows (ev : Event) : bool :=
  match ev with
  | EvShowPreview _ _ _ _ _ _ => true
  | _ => false
  end.

(** A volume that is written was brought to the CPU. *)
Definition saved_from_cpu (ev : Event) : Prop :=
  match ev with
  | EvSave _ t _ _ _ _ => device_of t = cpu
  | _ => True
  end.

(** The event neither moves the progress bar nor displays anything,
    and if it writes a volume, the volume comes from the CPU. *)
Definition plain (ev : Event) : Prop :=
  saved_from_cpu ev /\ is_progress ev = false /\ shows ev = false.

(** The volumes written, in the order of the writing: of each its
    kind, its file name and its extension. *)
Definition saved_files (l : list Event) : list (Role * string * string) :=
  flat_map (fun ev => match ev with
                      | EvSave role _ _ prefix _ ext => [(role, prefix, ext)]
                      | _ => []
                      end) l.

(** The prefix that [process] was given for the volumes of a kind. *)
Definition prefix_of (imgPrefix maskPrefix : string) (role : Role) : string :=
  match role with
  | image_volume => imgPrefix
  | mask_volume => maskPrefix
  end.

End Augmentator.

Arguments Transform World : clear implicits.
Arguments Collaborators World Image : clear implicits.
Arguments SlicerAugmentatorDataset World : clear implicits.

(** ** A small world to run the model in

    The state of the world counts the clock readings and random draws
    made so far; an image is the list of its voxels. *)

Module Example.

Definition World : Type := nat.

Definition Image : Type := list Z.

Definition files : dict Image :=
  [("c1/img.nrrd", [1; 2; 3; 4]%Z); ("c1/mask.nrrd", [0; 1; 1; 1]%Z);
   ("c2/img.nrrd", [5; 6; 7; 8]%Z); ("c2/mask.nrrd", [0; 0; 0; 0]%Z);
   ("c3/img.nrrd", [9; 9; 9; 9]%Z); ("c3/mask.nrrd", [1; 0; 0; 0]%Z);
   ("c4/mask.nrrd", [0; 1; 0; 0]%Z)].

Definition read (path : optstr) (w : World) : result Image * World :=
  match path with
  | Some p =>
      match dict_get p files with
      | Some im => (Ok im, w)
      | None => (Raise (RuntimeError "cannot read the file"), w)
      end
  | None => (Raise TypeError, w)
  end.

Definition original (path : optstr) (filesStructure : string) (w : World)
  : result (string * Image) * World :=
  match path with
  | Some p =>
      match dict_get p files with
      | Some im => (Ok (substring 0 2 p, im), w)
      | None => (Ok (substring 0 2 p, []), w)
      end
  | None => (Raise TypeError, w)
  end.

Definition found : list optstr * list optstr :=
  ([Some "c1/img.nrrd"; Some "c2/img.nrrd"; Some "c3/img.nrrd";
    Some "c4/img.nrrd"; Some "c5/img.nrrd"],
   [Some "c1/mask.nrrd"; Some "c2/mask.nrrd"; Some "c3/mask.nrrd";
    Some "c4/mask.nrrd"; None]).

Definition env : Collaborators World Image :=
  {| ReadImage := read;
     tensor_of_image := fun im => Ok (mkTensor im stored cpu);
     image_bool := fun im => nonempty im;
     extract_device_number := fun _ => Ok 0%Z;
     collectImagesAndMasksList := fun _ _ _ w => (Ok found, w);
     validateCollectedImagesAndMasks :=
       fun imgs masks =>
         if (List.length imgs =? List.length masks)%nat
         then Ok tt else Raise ValueError;
     getOriginalCase := original;
     makeDir := fun outputPath dir caseName transformName w =>
                  (Ok (outputPath ++ "/" ++ dir ++ "/" ++ caseName
                         ++ "/" ++ transformName)%string, w);
     save := fun _ _ _ _ _ w => (Ok tt, w);
     showPreview := fun _ _ _ _ _ _ w => (Ok tt, w);
     clearScene := fun w => (Ok tt, w);
     resetViews := fun w => (Ok tt, w);
     time_time := fun w => (Z.of_nat w, S w) |}.

Definition reversed (t : Tensor) : Tensor :=
  mkTensor (rev (elements t)) (dtype t) (device_of t).

Definition zeroed (t : Tensor) : Tensor :=
  mkTensor (map (fun _ => 0%Z) (elements t)) (dtype t) (device_of t).

Definition on_values (f : Tensor -> Tensor) (d : dict Tensor) : dict Tensor :=
  map (fun kv => (fst kv, f (snd kv))) d.

(** A random flip that tells its name. *)
Definition flip : Transform World :=
  {| randomizable := true;
     get_transform_info := Some (Ok [("class", "flip"); ("id", "140211")]);
     type_name := "monai.transforms.spatial.dictionary.RandFlipd";
     call_array := fun x w => (Ok (reversed x), S w);
     call_dict := fun d w => (Ok (on_values reversed d), S w) |}.

(** A deterministic transform without [get_transform_info]. *)
Definition normalize : Transform World :=
  {| randomizable := false;
     get_transform_info := None;
     type_name := "monai.transforms.intensity.array.Normalize";
     call_array := fun x w => (Ok x, w);
     call_dict := fun d w => (Ok d, w) |}.

(** A deterministic transform that blanks its input. *)
Definition erase : Transform World :=
  {| randomizable := false;
     get_transform_info := Some (Ok [("class", "erase")]);
     type_name := "Erase";
     call_array := fun x w => (Ok (zeroed x), w);
     call_dict := fun d w => (Ok (on_values zeroed d), w) |}.

(** A transform whose descriptor has no "class" entry. *)
Definition keyless : Transform World :=
  {| randomizable := false;
     get_transform_info := Some (Ok [("id", "140212")]);
     type_name := "Keyless";
     call_array := fun x w => (Ok x, w);
     call_dict := fun d w => (Ok d, w) |}.

(** A deterministic transform that refuses volumes that start with 5. *)
Definition picky : Transform World :=
  {| randomizable := false;
     get_transform_info := Some (Ok [("class", "picky")]);
     type_name := "Picky";
     call_array := fun x w =>
       match elements x with
       | 5%Z :: _ => (Raise (RuntimeError "unsupported volume"), w)
       | _ => (Ok x, w)
       end;
     call_dict := fun d w => (Ok d, w) |}.

(** A random transform that returns an empty dictionary. *)
Definition lossy : Transform World :=
  {| randomizable := true;
     get_transform_info := Some (Ok [("class", "lossy")]);
     type_name := "Lossy";
     call_array := fun x w => (Ok x, S w);
     call_dict := fun _ w => (Ok [], S w) |}.

Definition dataset (ts : list (Transform World))
  : SlicerAugmentatorDataset World :=
  {| imgPaths := fst found;
     maskPaths := Some (snd found);
     transformations := ts;
     device := cpu |}.

(** The same images with no mask paths at all. *)
Definition images_only (ts : list (Transform World))
  : SlicerAugmentatorDataset World :=
  {| imgPaths := fst found;
     maskPaths := None;
     transformations := ts;
     device := cpu |}.

(** The same images with a mask for the first of them only. *)
Definition one_mask (ts : list (Transform World))
  : SlicerAugmentatorDataset World :=
  {| imgPaths := fst found;
     maskPaths := Some [Some "c1/mask.nrrd"];
     transformations := ts;
     device := cpu |}.

Definition image1 : Tensor := mkTensor [1; 2; 3; 4]%Z stored cpu.
Definition mask1 : Tensor := mkTensor [0; 1; 1; 1]%Z stored cpu.
Definition mask4 : Tensor := mkTensor [0; 1; 0; 0]%Z stored cpu.
Definition image2 : Tensor := mkTensor [5; 6; 7; 8]%Z stored cpu.
Definition mask2 : Tensor := mkTensor [0; 0; 0; 0]%Z stored cpu.

End Example.

(** ** Properties *)

(** *** Names made from the type *)

Lemma keep_safe_path_safe (s : string) :
  Sanitize.path_safe (Sanitize.keep_safe s) = true.
Proof.
  induction s as [|c s IH]; [reflexivity|].
  simpl. destruct (Sanitize.safe_char c) eqn:Hc; [|exact IH].
  simpl. rewrite Hc, IH. reflexivity.
Qed.

Lemma sanitize_path_safe (s : string) :
  Sanitize.path_safe (Sanitize.sanitize s) = true.
Proof.
  unfold Sanitize.sanitize.
  destruct (Sanitize.keep_safe _) as [|c k] eqn:Hk; [reflexivity|].
  rewrite <- Hk. apply keep_safe_path_safe.
Qed.

Lemma sanitize_nonempty (s : string) : Sanitize.sanitize s <> "".
Proof.
  unfold Sanitize.sanitize.
  destruct (Sanitize.keep_safe _) as [|c k]; discriminate.
Qed.


Section Properties.

Context {World Image : Type} (env : Collaborators World Image).

Local Abbreviation M := (@M World Image).
Local Abbreviation Event := (@Event World Image).

(** *** Running the monad *)

Lemma bind_Ok {A B} (m : M A) (k : A -> M B) w a w1 l1 :
  m w = (Ok a, w1, l1) ->
  bind m k w = (fst (fst (k a w1)), snd (fst (k a w1)), l1 ++ snd (k a w1)).
Proof.
  intros Hm. unfold bind. rewrite Hm.
  destruct (k a w1) as [[r w2] l2]. reflexivity.
Qed.

Lemma bind_Raise {A B} (m : M A) (k : A -> M B) w e w1 l1 :
  m w = (Raise e, w1, l1) -> bind m k w = (Raise e, w1, l1).
Proof. intros Hm. unfold bind. rewrite Hm. reflexivity. Qed.

Lemma bind_inv {A B} (m : M A) (k : A -> M B) w r w' l :
  bind m k w = (r, w', l) ->
  (exists e, m w = (Raise e, w', l) /\ r = Raise e) \/
  (exists a w1 l1 l2,
      m w = (Ok a, w1, l1) /\ k a w1 = (r, w', l2) /\ l = l1 ++ l2).
Proof.
  unfold bind. destruct (m w) as [[[a | e] w1] l1].
  - destruct (k a w1) as [[r2 w2] l2] eqn:Hk. intros H.
    injection H as <- <- <-. right. exists a, w1, l1, l2. auto.
  - intros H. injection H as <- <- <-. left. exists e. auto.
Qed.

Lemma bind_lift_Ok {A B} (a : A) (k : A -> M B) w :
  bind (lift (Ok a)) k w = k a w.
Proof.
  unfold bind, lift. destruct (k a w) as [[r w2] l2]. reflexivity.
Qed.

Lemma bind_ret {A B} (a : A) (k : A -> M B) w :
  bind (ret a) k w = k a w.
Proof.
  unfold bind, ret. destruct (k a w) as [[r w2] l2]. reflexivity.
Qed.

Lemma bind_lift_Raise {A B} (e : exn) (k : A -> M B) w :
  bind (lift (Raise e)) k w = (Raise e, w, []).
Proof. reflexivity. Qed.

(** A handler that raises the exception again changes nothing. *)
Lemma try_except_reraise {A} (m : M A) w :
  try_except m (fun _ => true) (fun e => raise e) w = m w.
Proof.
  unfold try_except, raise. destruct (m w) as [[[a | e] w1] l1];
    [reflexivity|]. rewrite app_nil_r. reflexivity.
Qed.

(** *** The volume loader *)

Lemma decode_cases (path : optstr) (w : World) :
  decode env path w =
  match ReadImage env path w with
  | (Ok img, w1) => (tensor_of_image env img, w1, [EvReadImage path])
  | (Raise e, w1) => (Raise e, w1, [EvReadImage path])
  end.
Proof.
  unfold decode, bind, call, lift, ret.
  destruct (ReadImage env path w) as [[img | e] w1]; [|reflexivity].
  destruct (tensor_of_image env img); reflexivity.
Qed.

Lemma load_cases (path : optstr) (w : World) :
  load env path w =
  if truthy path
  then match decode env path w with
       | (Ok data, w1, l1) => (Ok (Some data), w1, l1)
       | (Raise _, w1, l1) => (Ok None, w1, l1)
       end
  else (Ok None, w, []).
Proof.
  unfold load, try_except. destruct (truthy path); [|reflexivity].
  unfold bind. destruct (decode env path w) as [[[data | e] w1] l1];
    cbn; rewrite app_nil_r; reflexivity.
Qed.

Lemma load_returns (path : optstr) (w : World) :
  exists v w' l, load env path w = (Ok v, w', l).
Proof.
  rewrite load_cases. destruct (truthy path); [|eauto].
  destruct (decode env path w) as [[[data | e] w1] l1]; eauto.
Qed.

(** C5. [load] never raises: a path that is [None] or empty gives
    [None] at once, with no call to the image reader and the world
    untouched; a path whose decoding raises, whatever the exception,
    gives [None] as well; a path that decodes gives the tensor. *)
Theorem load_never_raises (path : optstr) (w : World) :
  (exists v w' l, load env path w = (Ok v, w', l)) /\
  (truthy path = false -> load env path w = (Ok None, w, [])) /\
  (forall e w' l,
      truthy path = true -> decode env path w = (Raise e, w', l) ->
      load env path w = (Ok None, w', l)) /\
  (forall data w' l,
      truthy path = true -> decode env path w = (Ok data, w', l) ->
      load env path w = (Ok (Some data), w', l)).
Proof.
  split; [apply load_returns|].
  rewrite load_cases. repeat split.
  - intros ->. reflexivity.
  - intros e w' l -> ->. reflexivity.
  - intros data w' l -> ->. reflexivity.
Qed.

(** *** Naming *)

Lemma transform_name_cases (t : Transform World) :
  transform_name t =
  match get_transform_info t with
  | None => Ok (sanitizeTransformName t)
  | Some (Raise e) =>
      if is_AttributeError e then Ok (sanitizeTransformName t) else Raise e
  | Some (Ok info) =>
      match dict_get "class" info with
      | Some n => Ok n
      | None => Raise KeyError
      end
  end.
Proof.
  unfold transform_name, subscript.
  destruct (get_transform_info t) as [[info | e] |]; try reflexivity.
  destruct (dict_get "class" info); reflexivity.
Qed.

Lemma apply_transform_cases (t : Transform World) (x : Tensor)
      (lst : Results) (w : World) :
  apply_transform t x lst w =
  match transform_name t with
  | Raise e => (Raise e, w, [])
  | Ok n =>
      match call_array t (Torch.float x) w with
      | (Ok y, w') =>
          (Ok (lst ++ [(n, y)]), w', [EvApplyArray t (Torch.float x)] : list Event)
      | (Raise e, w') => (Raise e, w', [EvApplyArray t (Torch.float x)])
      end
  end.
Proof.
  unfold apply_transform, bind, lift, call, ret.
  destruct (transform_name t) as [n | e]; [|reflexivity].
  destruct (call_array t (Torch.float x) w) as [[y | e] w']; reflexivity.
Qed.

Lemma apply_dict_transform_cases (t : Transform World) (d : dict Tensor)
      (ti : Results) (tm : option Results) (w : World) :
  apply_dict_transform t d ti tm w =
  match transform_name t with
  | Raise e => (Raise e, w, [])
  | Ok n =>
      match call_dict t d w with
      | (Raise e, w') => (Raise e, w', [EvApplyDict t d] : list Event)
      | (Ok out, w') =>
          match tm with
          | Some tm0 =>
              match unpack2 (values out) with
              | Ok (x, y) =>
                  (Ok (ti ++ [(n, x)], tm0 ++ [(n, y)]), w', [EvApplyDict t d])
              | Raise e => (Raise e, w', [EvApplyDict t d])
              end
          | None =>
              match subscript out "img" with
              | Ok v => (Ok (ti ++ [(n, v)], []), w', [EvApplyDict t d])
              | Raise e => (Raise e, w', [EvApplyDict t d])
              end
          end
      end
  end.
Proof.
  unfold apply_dict_transform, bind, lift, call, ret.
  destruct (transform_name t) as [n | e]; [|reflexivity].
  destruct tm as [tm0 |];
    destruct (call_dict t d w) as [[out | e] w']; try reflexivity.
  - destruct (unpack2 (values out)) as [[x y] | e]; reflexivity.
  - destruct (subscript out "img") as [v | e]; reflexivity.
Qed.

(** C9, as the code has it.  With [get_transform_info] and a "class"
    entry in what it returns, the name is that entry; without
    [get_transform_info] (or when it raises [AttributeError]) the name
    is the sanitized type name, which is not empty and is path-safe,
    and naming does not raise.  Other failures are not caught: a
    descriptor without "class" raises [KeyError], and any other
    exception of [get_transform_info] goes through.  The name found is
    the one attached to each result. *)
Theorem transform_name_fallback (t : Transform World) :
  (forall info n,
      get_transform_info t = Some (Ok info) ->
      dict_get "class" info = Some n ->
      transform_name t = Ok n) /\
  (get_transform_info t = None \/
   get_transform_info t = Some (Raise AttributeError) ->
   transform_name t = Ok (sanitizeTransformName t) /\
   sanitizeTransformName t <> "" /\
   Sanitize.path_safe (sanitizeTransformName t) = true) /\
  (forall info,
      get_transform_info t = Some (Ok info) ->
      dict_get "class" info = None ->
      transform_name t = Raise KeyError) /\
  (forall e,
      get_transform_info t = Some (Raise e) ->
      is_AttributeError e = false ->
      transform_name t = Raise e) /\
  (forall x lst w r w' (l : list Event),
      apply_transform t x lst w = (Ok r, w', l) ->
      exists n y, transform_name t = Ok n /\ r = lst ++ [(n, y)]) /\
  (forall d ti tm w r w' (l : list Event),
      apply_dict_transform t d ti tm w = (Ok r, w', l) ->
      exists n x,
        transform_name t = Ok n /\ fst r = ti ++ [(n, x)] /\
        forall tm0, tm = Some tm0 -> exists y, snd r = tm0 ++ [(n, y)]).
Proof.
  repeat split.
  - intros info n Hi Hc. rewrite transform_name_cases, Hi, Hc. reflexivity.
  - rewrite transform_name_cases. destruct H as [-> | ->]; reflexivity.
  - apply sanitize_nonempty.
  - apply sanitize_path_safe.
  - intros info Hi Hc. rewrite transform_name_cases, Hi, Hc. reflexivity.
  - intros e Hi He. rewrite transform_name_cases, Hi, He. reflexivity.
  - intros x lst w r w' l. rewrite apply_transform_cases.
    destruct (transform_name t) as [n | e]; [|discriminate].
    destruct (call_array t (Torch.float x) w) as [[y | e] w1];
      [|discriminate].
    intros H. injection H as <- _ _. eauto.
  - intros d ti tm w r w' l. rewrite apply_dict_transform_cases.
    destruct (transform_name t) as [n | e]; [|discriminate].
    destruct (call_dict t d w) as [[out | e] w1]; [|discriminate].
    destruct tm as [tm0 |].
    + destruct (unpack2 (values out)) as [[x y] | e]; [|discriminate].
      intros H. injection H as <- _ _. exists n, x.
      split; [reflexivity|]. split; [reflexivity|].
      intros tm1 Htm. injection Htm as <-. exists y. reflexivity.
    + destruct (subscript out "img") as [v | e]; [|discriminate].
      intros H. injection H as <- _ _. exists n, v.
      split; [reflexivity|]. split; [reflexivity|].
      intros tm1 Htm. discriminate Htm.
Qed.

(** *** One transform *)

Lemma apply_one_both dev im mk acc (t : Transform World) (w : World) :
  apply_one (Image:=Image) dev (Some im) (Some mk) acc t w =
  if randomizable t
  then apply_dict_transform t (joint_input dev im mk) (fst acc)
         (Some (snd acc)) w
  else bind (apply_transform t (Torch.to dev im) (fst acc))
         (fun ti => bind (apply_transform t (Torch.to dev mk) (snd acc))
                      (fun tm => ret (ti, tm))) w.
Proof.
  unfold apply_one, joint_input. destruct (randomizable t); cbn [negb].
  - unfold bind, ret.
    destruct (apply_dict_transform _ _ _ _ w) as [[[[a b] | e] w1] l1];
      cbn; rewrite ?app_nil_r; reflexivity.
  - rewrite !bind_ret. reflexivity.
Qed.

Lemma apply_one_image_only dev im acc (t : Transform World) (w : World) :
  apply_one (Image:=Image) dev (Some im) None acc t w =
  if randomizable t
  then apply_dict_transform t [("img", Torch.to dev im)] (fst acc) None w
  else bind (apply_transform t (Torch.to dev im) (fst acc))
         (fun ti => ret (ti, snd acc)) w.
Proof.
  unfold apply_one. destruct (randomizable t); cbn [negb].
  - rewrite bind_ret. unfold bind, ret.
    destruct (apply_dict_transform _ _ _ _ w) as [[[[a b] | e] w1] l1];
      cbn; rewrite ?app_nil_r; reflexivity.
  - rewrite !bind_ret. unfold bind, ret.
    destruct (apply_transform _ _ _ w) as [[[a | e] w1] l1];
      cbn; rewrite ?app_nil_r; reflexivity.
Qed.

Lemma apply_one_mask_only dev mk acc (t : Transform World) (w : World) :
  apply_one (Image:=Image) dev None (Some mk) acc t w =
  if randomizable t
  then (Ok acc, w, [])
  else bind (apply_transform t (Torch.to dev mk) (snd acc))
         (fun tm => ret (fst acc, tm)) w.
Proof.
  unfold apply_one. destruct (randomizable t); cbn [negb].
  - rewrite !bind_ret. destruct acc. reflexivity.
  - rewrite !bind_ret. reflexivity.
Qed.

Lemma apply_one_neither dev acc (t : Transform World) (w : World) :
  apply_one (Image:=Image) dev None None acc t w = (Ok acc, w, []).
Proof.
  unfold apply_one. rewrite !bind_ret. destruct acc. reflexivity.
Qed.

Lemma unpack2_Ok {V} (xs : list V) x y :
  unpack2 xs = Ok (x, y) -> xs = [x; y].
Proof.
  destruct xs as [|a [|b [|c xs]]]; try discriminate.
  intros H. injection H as <- <-. reflexivity.
Qed.

Lemma foldM_cons {A B} (f : B -> A -> M B) a l b w :
  foldM f (a :: l) b w = bind (f b a) (foldM f l) w.
Proof. reflexivity. Qed.

(** *** Image and mask both there *)

Lemma apply_one_both_Ok dev im mk ti tm (t : Transform World) w ti' tm' w'
      (l : list Event) :
  apply_one dev (Some im) (Some mk) (ti, tm) t w = (Ok (ti', tm'), w', l) ->
  exists o,
    ti' = ti ++ [fst o] /\ tm' = tm ++ [snd o] /\
    contributes dev im mk t o /\ l = joint_events dev im mk t.
Proof.
  rewrite apply_one_both. unfold contributes, named, joint_events.
  destruct (randomizable t).
  - rewrite apply_dict_transform_cases. cbn [fst snd].
    destruct (transform_name t) as [n | e]; [|discriminate].
    destruct (call_dict t _ w) as [[out | e] w1] eqn:Hc; [|discriminate].
    destruct (unpack2 (values out)) as [[x y] | e] eqn:Hu; [|discriminate].
    intros H. injection H as <- <- <- <-.
    exists ((n, x), (n, y)). cbn [fst snd]. repeat split.
    exists w, w1, out. split; [exact Hc|]. apply unpack2_Ok, Hu.
  - intros H. apply bind_inv in H.
    destruct H as [(e & _ & He) | (ti1 & w1 & l1 & l2 & H1 & H2 & ->)];
      [discriminate|].
    apply bind_inv in H2.
    destruct H2 as [(e & _ & He) | (tm1 & w2 & l3 & l4 & H3 & H4 & ->)];
      [discriminate|].
    injection H4 as <- <- <- <-.
    cbn [fst snd] in H1, H3.
    rewrite apply_transform_cases in H1, H3.
    destruct (transform_name t) as [n | e]; [|discriminate].
    destruct (call_array t _ w) as [[x | e] wa] eqn:Hx; [|discriminate].
    destruct (call_array t _ w1) as [[y | e] wb] eqn:Hy; [|discriminate].
    injection H1 as <- <- <-. injection H3 as <- <- <-.
    exists ((n, x), (n, y)). cbn [fst snd]. repeat split.
    do 4 eexists. split; eassumption.
Qed.

Lemma apply_all_both_Ok dev im mk (ts : list (Transform World)) :
  forall ti tm w ti' tm' w' (l : list Event),
    foldM (apply_one dev (Some im) (Some mk)) ts (ti, tm) w
    = (Ok (ti', tm'), w', l) ->
    exists outs,
      ti' = ti ++ map fst outs /\ tm' = tm ++ map snd outs /\
      Forall2 (contributes dev im mk) ts outs /\
      l = flat_map (joint_events dev im mk) ts.
Proof.
  induction ts as [|t ts IH]; intros ti tm w ti' tm' w' l H.
  - injection H as <- <- <- <-. exists []. cbn.
    rewrite !app_nil_r. auto.
  - rewrite foldM_cons in H. apply bind_inv in H.
    destruct H as [(e & _ & He) | ([ti1 tm1] & w1 & l1 & l2 & H1 & H2 & ->)];
      [discriminate|].
    apply apply_one_both_Ok in H1.
    destruct H1 as (o & -> & -> & Ho & ->).
    apply IH in H2. destruct H2 as (outs & -> & -> & Hall & ->).
    exists (o :: outs). cbn. rewrite <- !app_assoc. cbn.
    repeat split. constructor; assumption.
Qed.

Lemma Forall2_nth_error_left {A B} (R : A -> B -> Prop) l1 l2 :
  Forall2 R l1 l2 ->
  forall i a, nth_error l1 i = Some a ->
              exists b, nth_error l2 i = Some b /\ R a b.
Proof.
  induction 1 as [|x y l1 l2 Hxy _ IH]; intros i a Hi.
  - destruct i; discriminate.
  - destruct i as [|i]; cbn in *.
    + injection Hi as <-. eauto.
    + eauto.
Qed.

(** *** [__getitem__] *)

Lemma getitem_after_load ds idx w img mask w1 (l1 : list Event) :
  load_case env ds idx w = (Ok (img, mask), w1, l1) ->
  getitem env ds idx w =
  let run := apply_all (Image:=Image) ds img mask w1 in
  (fst (fst run), snd (fst run), l1 ++ snd run).
Proof.
  intros H. unfold getitem. rewrite (bind_Ok _ _ _ _ _ _ H). reflexivity.
Qed.

Lemma getitem_after_load_inv ds idx w img mask w1 (l1 : list Event) r w2 l :
  load_case env ds idx w = (Ok (img, mask), w1, l1) ->
  getitem env ds idx w = (r, w2, l) ->
  exists l2, apply_all ds img mask w1 = (r, w2, l2) /\ l = l1 ++ l2.
Proof.
  intros H G. rewrite (getitem_after_load _ _ _ _ _ _ _ H) in G.
  destruct (apply_all ds img mask w1) as [[r' w'] l2].
  injection G as <- <- <-. eauto.
Qed.

Lemma keys_two {V} (d d' : dict V) a b :
  map fst d = [a; b] -> map fst d' = map fst d ->
  exists x y, unpack2 (values d') = Ok (x, y).
Proof.
  intros Hd Hd'. rewrite Hd in Hd'.
  destruct d' as [|[k1 x] [|[k2 y] [|c d']]]; try discriminate.
  cbn. eauto.
Qed.

Lemma keys_img {V} (d' : dict V) :
  map fst d' = ["img"] -> exists v, subscript d' "img" = Ok v.
Proof.
  destruct d' as [|[k1 x] [|c d']]; try discriminate.
  cbn. intros H. injection H as ->. unfold subscript. cbn. eauto.
Qed.

Lemma apply_transform_returns (t : Transform World) x lst w :
  well_behaved t ->
  exists n y w',
    apply_transform t x lst w
    = (Ok (lst ++ [(n, y)]), w', [EvApplyArray t (Torch.float x)] : list Event).
Proof.
  intros ((n & Hn) & Ha & _). rewrite apply_transform_cases, Hn.
  destruct (Ha (Torch.float x) w) as (y & w' & ->). eauto.
Qed.

Lemma apply_one_returns dev img mask acc (t : Transform World) w :
  well_behaved t ->
  exists acc' w' (l : list Event),
    apply_one dev img mask acc t w = (Ok acc', w', l).
Proof.
  intros Hwb. pose proof Hwb as ((n & Hn) & Ha & Hd).
  destruct img as [im |], mask as [mk |].
  - rewrite apply_one_both. destruct (randomizable t).
    + rewrite apply_dict_transform_cases, Hn.
      destruct (Hd (joint_input dev im mk) w) as (d' & w' & -> & Hk).
      destruct (keys_two (joint_input dev im mk) d' "img" "mask" eq_refl Hk)
        as (x & y & ->).
      eauto.
    + destruct (apply_transform_returns t (Torch.to dev im) (fst acc) w Hwb)
        as (n1 & y1 & w1 & H1).
      destruct (apply_transform_returns t (Torch.to dev mk) (snd acc) w1 Hwb)
        as (n2 & y2 & w2 & H2).
      rewrite (bind_Ok _ _ _ _ _ _ H1), (bind_Ok _ _ _ _ _ _ H2). cbn. eauto.
  - rewrite apply_one_image_only. destruct (randomizable t).
    + rewrite apply_dict_transform_cases, Hn.
      destruct (Hd [("img", Torch.to dev im)] w) as (d' & w' & -> & Hk).
      destruct (keys_img d' Hk) as (v & ->). eauto.
    + destruct (apply_transform_returns t (Torch.to dev im) (fst acc) w Hwb)
        as (n1 & y1 & w1 & H1).
      rewrite (bind_Ok _ _ _ _ _ _ H1). cbn. eauto.
  - rewrite apply_one_mask_only. destruct (randomizable t); [eauto|].
    destruct (apply_transform_returns t (Torch.to dev mk) (snd acc) w Hwb)
      as (n1 & y1 & w1 & H1).
    rewrite (bind_Ok _ _ _ _ _ _ H1). cbn. eauto.
  - rewrite apply_one_neither. eauto.
Qed.

Lemma foldM_apply_one_returns dev img mask (ts : list (Transform World)) :
  Forall well_behaved ts ->
  forall acc w, exists acc' w' (l : list Event),
      foldM (apply_one dev img mask) ts acc w = (Ok acc', w', l).
Proof.
  induction 1 as [|t ts Ht _ IH]; intros acc w.
  - cbn. unfold ret. eauto.
  - rewrite foldM_cons.
    destruct (apply_one_returns dev img mask acc t w Ht) as (a1 & w1 & l1 & H1).
    rewrite (bind_Ok _ _ _ _ _ _ H1).
    destruct (IH a1 w1) as (a2 & w2 & l2 & ->). cbn. eauto.
Qed.

Lemma getitem_returns ds idx w img mask w1 (l1 : list Event) :
  load_case env ds idx w = (Ok (img, mask), w1, l1) ->
  Forall well_behaved (transformations ds) ->
  exists ti tm w2 l, getitem env ds idx w = (Ok (ti, tm), w2, l).
Proof.
  intros H Hwb. rewrite (getitem_after_load _ _ _ _ _ _ _ H). unfold apply_all.
  destruct (foldM_apply_one_returns (device ds) img mask _ Hwb ([], []) w1)
    as ([ti tm] & w2 & l2 & ->).
  cbn. eauto.
Qed.

Lemma contributes_named_fst dev im mk (ts : list (Transform World)) outs :
  Forall2 (contributes dev im mk) ts outs ->
  Forall2 named ts (map fst outs) /\ Forall2 named ts (map snd outs).
Proof.
  induction 1 as [|t o ts outs (Hi & Hm & _) _ [IHi IHm]]; cbn.
  - split; constructor.
  - split; constructor; assumption.
Qed.

(** C1. Image and mask both loaded.  With a randomizable transform
    followed by a deterministic one, the case returns the image results
    [[(n1, T1); (n2, T2)]] and the mask results [[(n1, M1); (n2, M2)]]:
    the two values of the one call of the first transform on the
    dictionary, then what the second returns on image and on mask.  In
    general, whenever the case returns, both lists carry the names of
    the configured transforms, in the order of the configuration. *)
Theorem results_follow_configuration ds idx w im mk w1 (l1 : list Event) :
  load_case env ds idx w = (Ok (Some im, Some mk), w1, l1) ->
  (forall flip normalize n1 n2 k1 k2 T1 M1 T2 M2 w2 w3 w4,
      transformations ds = [flip; normalize] ->
      randomizable flip = true ->
      randomizable normalize = false ->
      transform_name flip = Ok n1 ->
      transform_name normalize = Ok n2 ->
      call_dict flip (joint_input (device ds) im mk) w1
      = (Ok [(k1, T1); (k2, M1)], w2) ->
      call_array normalize (Torch.float (Torch.to (device ds) im)) w2
      = (Ok T2, w3) ->
      call_array normalize (Torch.float (Torch.to (device ds) mk)) w3
      = (Ok M2, w4) ->
      getitem env ds idx w
      = (Ok ([(n1, T1); (n2, T2)], [(n1, M1); (n2, M2)]), w4,
         l1 ++ joint_events (device ds) im mk flip
            ++ joint_events (device ds) im mk normalize)) /\
  (forall ti tm w2 l,
      getitem env ds idx w = (Ok (ti, tm), w2, l) ->
      Forall2 named (transformations ds) ti /\
      Forall2 named (transformations ds) tm).
Proof.
  intros Hload. split.
  - intros flip normalize n1 n2 k1 k2 T1 M1 T2 M2 w2 w3 w4
           Hts Hr1 Hr2 Hn1 Hn2 Hc1 Hc2 Hc3.
    assert (H1 : apply_one (Image:=Image) (device ds) (Some im) (Some mk)
                   ([], []) flip w1
                 = (Ok ([(n1, T1)], [(n1, M1)]), w2,
                    joint_events (device ds) im mk flip)).
    { rewrite apply_one_both, Hr1, apply_dict_transform_cases, Hn1, Hc1.
      unfold joint_events. rewrite Hr1. reflexivity. }
    assert (H2 : apply_one (Image:=Image) (device ds) (Some im) (Some mk)
                   ([(n1, T1)], [(n1, M1)]) normalize w2
                 = (Ok ([(n1, T1); (n2, T2)], [(n1, M1); (n2, M2)]), w4,
                    joint_events (device ds) im mk normalize)).
    { rewrite apply_one_both, Hr2. unfold bind. cbn [fst snd].
      rewrite apply_transform_cases, Hn2, Hc2.
      rewrite apply_transform_cases, Hn2, Hc3.
      unfold joint_events. rewrite Hr2. reflexivity. }
    rewrite (getitem_after_load _ _ _ _ _ _ _ Hload). unfold apply_all.
    rewrite Hts, foldM_cons, (bind_Ok _ _ _ _ _ _ H1), foldM_cons,
      (bind_Ok _ _ _ _ _ _ H2).
    cbn. rewrite !app_nil_r. reflexivity.
  - intros ti tm w2 l Hget.
    destruct (getitem_after_load_inv _ _ _ _ _ _ _ _ _ _ Hload Hget)
      as (l2 & Hall & ->).
    apply apply_all_both_Ok in Hall.
    destruct Hall as (outs & -> & -> & Hc & _). cbn.
    eapply contributes_named_fst, Hc.
Qed.

(** C3. Image and mask both loaded.  When the case returns, each list
    has one entry per configured transform and the calls recorded are,
    transform by transform, one call on the dictionary of image and mask
    for a randomizable transform (two calls on tensors for a
    deterministic one).  At the position of a randomizable transform
    both lists hold an entry under its name, and the two tensors are the
    two values that one call returned.  The case does return when the
    transforms are well behaved. *)
Theorem randomizable_applied_jointly ds idx w im mk w1 (l1 : list Event) :
  load_case env ds idx w = (Ok (Some im, Some mk), w1, l1) ->
  (forall ti tm w2 l,
      getitem env ds idx w = (Ok (ti, tm), w2, l) ->
      List.length ti = List.length (transformations ds) /\
      List.length tm = List.length (transformations ds) /\
      l = l1 ++ flat_map (joint_events (device ds) im mk)
                         (transformations ds) /\
      forall i t,
        nth_error (transformations ds) i = Some t ->
        randomizable t = true ->
        exists n x y,
          nth_error ti i = Some (n, x) /\
          nth_error tm i = Some (n, y) /\
          transform_name t = Ok n /\
          joint_events (Image:=Image) (device ds) im mk t
          = [EvApplyDict t (joint_input (device ds) im mk)] /\
          exists wa wb out,
            call_dict t (joint_input (device ds) im mk) wa = (Ok out, wb) /\
            values out = [x; y]) /\
  (Forall well_behaved (transformations ds) ->
   exists ti tm w2 l, getitem env ds idx w = (Ok (ti, tm), w2, l)).
Proof.
  intros Hload. split; [|apply (getitem_returns _ _ _ _ _ _ _ Hload)].
  intros ti tm w2 l Hget.
  destruct (getitem_after_load_inv _ _ _ _ _ _ _ _ _ _ Hload Hget)
    as (l2 & Hall & ->).
  apply apply_all_both_Ok in Hall.
  destruct Hall as (outs & -> & -> & Hc & ->). cbn [app].
  rewrite !length_map, <- (Forall2_length Hc).
  repeat split.
  intros i t Hi Hr.
  destruct (Forall2_nth_error_left _ _ _ Hc i t Hi)
    as ([[n x] [n' y]] & Ho & Hn & Hn' & Hcall).
  unfold named in Hn, Hn'. cbn [fst snd] in *. rewrite Hr in Hcall.
  assert (n' = n) as -> by congruence.
  exists n, x, y. rewrite !nth_error_map, Ho. cbn.
  repeat split; try assumption.
  unfold joint_events. rewrite Hr. reflexivity.
Qed.

(** *** No mask *)

Lemma load_mask_without ds idx w :
  without_mask env ds idx w ->
  exists w' l, load_mask env ds idx w = (Ok None, w', l).
Proof.
  unfold load_mask.
  intros [-> | [-> | (mp & p & -> & Hp & Hway)]];
    [exists w, []; reflexivity ..|].
  destruct (0 <? List.length mp)%nat; [|exists w, []; reflexivity].
  rewrite Hp, bind_lift_Ok, load_cases.
  destruct Hway as [Hf | (e & w' & l & Hd)].
  - rewrite Hf. eauto.
  - destruct (truthy p); [|eauto]. rewrite Hd. eauto.
Qed.

Lemma apply_one_no_mask dev img ti (t : Transform World) w ti' tm' w'
      (l : list Event) :
  apply_one dev img None (ti, []) t w = (Ok (ti', tm'), w', l) -> tm' = [].
Proof.
  destruct img as [im |].
  - rewrite apply_one_image_only. destruct (randomizable t).
    + rewrite apply_dict_transform_cases.
      destruct (transform_name t) as [n | e]; [|discriminate].
      destruct (call_dict t _ w) as [[out | e] w1]; [|discriminate].
      destruct (subscript out "img") as [v | e]; [|discriminate].
      intros H. injection H as _ <- _ _. reflexivity.
    + intros H. apply bind_inv in H.
      destruct H as [(e & _ & He) | (ti1 & w1 & la & lb & _ & H2 & _)];
        [discriminate|].
      injection H2 as _ <- _ _. reflexivity.
  - rewrite apply_one_neither. intros H. injection H as _ <- _ _.
    reflexivity.
Qed.

Lemma apply_all_no_mask dev img (ts : list (Transform World)) :
  forall ti w ti' tm' w' (l : list Event),
    foldM (apply_one dev img None) ts (ti, []) w = (Ok (ti', tm'), w', l) ->
    tm' = [].
Proof.
  induction ts as [|t ts IH]; intros ti w ti' tm' w' l H.
  - injection H as _ <- _ _. reflexivity.
  - rewrite foldM_cons in H. apply bind_inv in H.
    destruct H as [(e & _ & He) | ([ti1 tm1] & w1 & la & lb & H1 & H2 & _)];
      [discriminate|].
    apply apply_one_no_mask in H1. subst tm1. eapply IH, H2.
Qed.

(** C4. A case without a mask (no mask paths, an entry that is [None]
    or empty, or a mask file that does not decode) never returns mask
    results, whatever the transforms; and it does return, with an empty
    list of mask results, when the transforms are well behaved. *)
Theorem no_mask_no_mask_results ds idx w ipath img w1 (l1 : list Event) :
  index (imgPaths ds) idx = Ok ipath ->
  load env ipath w = (Ok img, w1, l1) ->
  without_mask env ds idx w1 ->
  (forall ti tm w2 l,
      getitem env ds idx w = (Ok (ti, tm), w2, l) -> tm = []) /\
  (Forall well_behaved (transformations ds) ->
   exists ti w2 l, getitem env ds idx w = (Ok (ti, []), w2, l)).
Proof.
  intros Hidx Himg Hno.
  destruct (load_mask_without ds idx w1 Hno) as (w1' & lm & Hmask).
  assert (Hload : load_case env ds idx w = (Ok (img, None), w1', l1 ++ lm)).
  { unfold load_case. rewrite Hidx, bind_lift_Ok.
    rewrite (bind_Ok _ _ _ _ _ _ Himg), (bind_Ok _ _ _ _ _ _ Hmask).
    cbn. rewrite app_nil_r. reflexivity. }
  assert (Hnone : forall ti tm w2 l,
             getitem env ds idx w = (Ok (ti, tm), w2, l) -> tm = []).
  { intros ti tm w2 l Hget.
    destruct (getitem_after_load_inv _ _ _ _ _ _ _ _ _ _ Hload Hget)
      as (l2 & Hall & _).
    eapply apply_all_no_mask, Hall. }
  split; [exact Hnone|].
  intros Hwb.
  destruct (getitem_returns _ _ _ _ _ _ _ Hload Hwb)
    as (ti & tm & w2 & l & Hget).
  rewrite (Hnone _ _ _ _ Hget) in Hget. eauto.
Qed.

(** *** No image *)

Lemma apply_all_neither dev (ts : list (Transform World)) :
  forall acc w,
    foldM (apply_one (Image:=Image) dev None None) ts acc w = (Ok acc, w, []).
Proof.
  induction ts as [|t ts IH]; intros acc w; [reflexivity|].
  rewrite foldM_cons, (bind_Ok _ _ _ _ _ _ (apply_one_neither dev acc t w)).
  rewrite IH. reflexivity.
Qed.

Lemma apply_all_mask_only dev mk (ts : list (Transform World)) :
  forall ti tm w,
    foldM (apply_one (Image:=Image) dev None (Some mk)) ts (ti, tm) w =
    let run := foldM (fun tm t => apply_transform t (Torch.to dev mk) tm)
                     (filter deterministic ts) tm w in
    (match fst (fst run) with
     | Ok tm' => Ok (ti, tm')
     | Raise e => Raise e
     end, snd (fst run), snd run).
Proof.
  induction ts as [|t ts IH]; intros ti tm w; [reflexivity|].
  assert (Hd : deterministic t = negb (randomizable t)) by reflexivity.
  rewrite foldM_cons. cbn [filter]. rewrite Hd.
  unfold bind at 1. rewrite apply_one_mask_only.
  destruct (randomizable t); cbn [negb fst snd].
  - rewrite IH. reflexivity.
  - rewrite foldM_cons. unfold bind.
    destruct (apply_transform t (Torch.to dev mk) tm w)
      as [[[tm1 | e] w1] la]; [|reflexivity].
    cbn [ret]. rewrite IH. cbn.
    destruct (foldM _ (filter deterministic ts) tm1 w1) as [[r w2] lb].
    cbn. rewrite app_nil_r. reflexivity.
Qed.

Lemma mask_branch_trace dev mk (ts : list (Transform World)) :
  Forall (fun t => randomizable t = false) ts ->
  forall tm w r w' (l : list Event),
    foldM (fun tm t => apply_transform t (Torch.to dev mk) tm) ts tm w
    = (r, w', l) ->
    Forall (on_mask dev mk) l /\
    forall tm', r = Ok tm' ->
                exists outs, tm' = tm ++ outs /\ Forall2 named ts outs.
Proof.
  induction 1 as [|t ts Ht _ IH]; intros tm w r w' l H.
  - injection H as <- <- <-. split; [constructor|].
    intros tm' [= <-]. exists []. rewrite app_nil_r. split; constructor.
  - rewrite foldM_cons in H. apply bind_inv in H.
    rewrite apply_transform_cases in H.
    destruct (transform_name t) as [n | e] eqn:Hn.
    + destruct (call_array t _ w) as [[y | e] w1].
      * destruct H as [(e & He & _) | (a & wa & la & lb & H1 & H2 & ->)];
          [discriminate|].
        injection H1 as <- <- <-.
        destruct (IH _ _ _ _ _ H2) as (Hev & Hres).
        split; [constructor; [split; [reflexivity | exact Ht] | exact Hev]|].
        intros tm' Hr. destruct (Hres tm' Hr) as (outs & -> & Hall).
        exists ((n, y) :: outs). rewrite <- app_assoc. split; [reflexivity|].
        constructor; assumption.
      * destruct H as [(e' & He & ->) | (a & wa & la & lb & H1 & _)];
          [|discriminate].
        injection He as _ _ <-.
        split; [repeat constructor; exact Ht | discriminate].
    + destruct H as [(e' & He & ->) | (a & wa & la & lb & H1 & _)];
        [|discriminate].
      injection He as _ _ <-. split; [constructor | discriminate].
Qed.

Lemma filter_deterministic (ts : list (Transform World)) :
  Forall (fun t => randomizable t = false) (filter deterministic ts).
Proof.
  apply Forall_forall. intros t Ht. apply filter_In in Ht.
  destruct Ht as [_ Ht]. unfold deterministic in Ht.
  destruct (randomizable t); [discriminate | reflexivity].
Qed.

(** C2. The image did not load.  The case then runs as the mask branch
    alone: no image result, and, with a mask, exactly the deterministic
    transforms applied to the mask in configuration order, each leaving
    its mask result; every call recorded is such a call on the mask.
    Without a mask nothing is applied at all. *)
Theorem absent_image_keeps_mask_branch ds idx w mask w1 (l1 : list Event) :
  load_case env ds idx w = (Ok (None, mask), w1, l1) ->
  exists r w2 l2,
    getitem env ds idx w = (r, w2, l1 ++ l2) /\
    (forall ti tm, r = Ok (ti, tm) -> ti = []) /\
    (Forall well_behaved (transformations ds) -> exists tm, r = Ok ([], tm)) /\
    match mask with
    | Some mk =>
        mask_branch (device ds) mk (transformations ds) w1
        = (match r with Ok p => Ok (snd p) | Raise e => Raise e end, w2, l2) /\
        Forall (on_mask (device ds) mk) l2 /\
        forall ti tm,
          r = Ok (ti, tm) ->
          Forall2 named (filter deterministic (transformations ds)) tm
    | None => r = Ok ([], []) /\ w2 = w1 /\ l2 = []
    end.
Proof.
  intros Hload. rewrite (getitem_after_load _ _ _ _ _ _ _ Hload).
  unfold apply_all. destruct mask as [mk |].
  - rewrite apply_all_mask_only. unfold mask_branch.
    destruct (foldM (Image:=Image)
                (fun tm t => apply_transform t (Torch.to (device ds) mk) tm)
                (filter deterministic (transformations ds)) [] w1)
      as [[r w2] l2] eqn:Hrun.
    destruct (mask_branch_trace _ _ _ (filter_deterministic _) _ _ _ _ _ Hrun)
      as (Hev & Hres).
    cbn. do 3 eexists. split; [reflexivity|].
    split; [|split; [|split; [|split]]].
    + intros ti tm Hr. destruct r; [|discriminate].
      injection Hr as <- _. reflexivity.
    + intros Hwb.
      destruct (foldM_apply_one_returns (device ds) None (Some mk) _ Hwb
                  ([], []) w1) as ([ti tm] & wa & la & Hok).
      rewrite apply_all_mask_only, Hrun in Hok. cbn in Hok.
      destruct r as [tm' |]; [|discriminate]. eauto.
    + destruct r; reflexivity.
    + exact Hev.
    + intros ti tm Hr. destruct r as [tm' |]; [|discriminate].
      injection Hr as <- <-.
      destruct (Hres tm' eq_refl) as (outs & -> & Hall). exact Hall.
  - rewrite apply_all_neither. cbn. do 3 eexists.
    split; [reflexivity|]. split; [|split; [|repeat split]].
    + intros ti tm [= <- _]. reflexivity.
    + intros _. eauto.
Qed.

(** *** Loops *)

Lemma for_each_cons {A} (body : A -> M unit) a l w :
  for_each (a :: l) body w = bind (body a) (fun _ => for_each l body) w.
Proof. reflexivity. Qed.

(** The first iteration that raises ends the loop. *)
Lemma for_each_raises {A} (body : A -> M unit) before k after :
  forall w w1 l1 x w2 l2,
    for_each before body w = (Ok tt, w1, l1) ->
    body k w1 = (Raise x, w2, l2) ->
    for_each (before ++ k :: after) body w = (Raise x, w2, l1 ++ l2).
Proof.
  induction before as [|a before IH]; intros w w1 l1 x w2 l2 Hb Hk.
  - injection Hb as <- <-. cbn [app].
    rewrite for_each_cons, (bind_Raise _ _ _ _ _ _ Hk). reflexivity.
  - rewrite for_each_cons in Hb. apply bind_inv in Hb.
    destruct Hb as [(e & _ & He) | ([] & wa & la & lb & Ha & Hrest & ->)];
      [discriminate|].
    cbn [app]. rewrite for_each_cons, (bind_Ok _ _ _ _ _ _ Ha).
    rewrite (IH _ _ _ _ _ _ Hrest Hk). cbn. rewrite app_assoc. reflexivity.
Qed.

(** An iteration that returns hands over to the rest of the loop. *)
Lemma for_each_continues {A} (body : A -> M unit) before k after :
  forall w w1 l1 w2 l2,
    for_each before body w = (Ok tt, w1, l1) ->
    body k w1 = (Ok tt, w2, l2) ->
    for_each (before ++ k :: after) body w =
    let rest := for_each after body w2 in
    (fst (fst rest), snd (fst rest), l1 ++ l2 ++ snd rest).
Proof.
  induction before as [|a before IH]; intros w w1 l1 w2 l2 Hb Hk.
  - injection Hb as <- <-. cbn [app].
    rewrite for_each_cons, (bind_Ok _ _ _ _ _ _ Hk). reflexivity.
  - rewrite for_each_cons in Hb. apply bind_inv in Hb.
    destruct Hb as [(e & _ & He) | ([] & wa & la & lb & Ha & Hrest & ->)];
      [discriminate|].
    cbn [app]. rewrite for_each_cons, (bind_Ok _ _ _ _ _ _ Ha).
    rewrite (IH _ _ _ _ _ Hrest Hk). cbn. rewrite !app_assoc. reflexivity.
Qed.

(** A loop that returns is the concatenation of its iterations, each
    of which returned. *)
Lemma for_each_Ok {A} (body : A -> M unit) l :
  forall w w' tr,
    for_each l body w = (Ok tt, w', tr) ->
    exists trs,
      tr = List.concat trs /\
      Forall2 (fun a t => exists wa wb, body a wa = (Ok tt, wb, t)) l trs.
Proof.
  induction l as [|a l IH]; intros w w' tr H.
  - injection H as <- <-. exists []. split; constructor.
  - rewrite for_each_cons in H. apply bind_inv in H.
    destruct H as [(e & _ & He) | ([] & wa & la & lb & Ha & Hrest & ->)];
      [discriminate|].
    destruct (IH _ _ _ Hrest) as (trs & -> & Hall).
    exists (la :: trs). split; [reflexivity|]. constructor; eauto.
Qed.

(** Every event of a loop comes from one of its iterations. *)
Lemma for_each_event {A} (body : A -> M unit) l :
  forall w r w' tr ev,
    for_each l body w = (r, w', tr) ->
    In ev tr ->
    exists a wa ra wb t, In a l /\ body a wa = (ra, wb, t) /\ In ev t.
Proof.
  induction l as [|a l IH]; intros w r w' tr ev H Hin.
  - injection H as <- <- <-. destruct Hin.
  - rewrite for_each_cons in H. apply bind_inv in H.
    destruct H as [(e & Ha & _) | (u & wa & la & lb & Ha & Hrest & ->)].
    + exists a, w, (Raise e), w', tr. cbn. auto.
    + apply in_app_or in Hin. destruct Hin as [Hin | Hin].
      * exists a, w, (Ok u), wa, la. cbn. auto.
      * destruct (IH _ _ _ _ _ Hrest Hin) as (b & wb & rb & wc & t & Hb & Hrun & Ht).
        exists b, wb, rb, wc, t. cbn. auto.
Qed.

(** *** The two policies on a failing case *)

Lemma process_case_reraises ds imgs masks outputPath imgPrefix maskPrefix
      filesStructure dirIdx w :
  process_case env ds imgs masks outputPath imgPrefix maskPrefix
    filesStructure dirIdx w
  = bind (getitem env ds (Z.of_nat dirIdx))
      (fun results =>
         process_results env imgs masks outputPath imgPrefix maskPrefix
           filesStructure dirIdx (fst results) (snd results)) w.
Proof.
  unfold process_case, bind.
  destruct (getitem env ds (Z.of_nat dirIdx) w) as [[[res | e] w1] l1];
    [|reflexivity].
  rewrite try_except_reraise. reflexivity.
Qed.

Lemma preview_case_cases ds imgs masks filesStructure dirIdx w :
  preview_case env ds imgs masks filesStructure dirIdx w =
  match preview_attempt env ds imgs masks filesStructure dirIdx w with
  | (Ok u, w1, l1) => (Ok u, w1, l1)
  | (Raise e, w1, l1) => (Ok tt, w1, l1 ++ [EvPrint e])
  end.
Proof.
  unfold preview_case, try_except.
  destruct (preview_attempt _ _ _ _ _ _ w) as [[[u | e] w1] l1];
    reflexivity.
Qed.

Lemma preview_case_returns ds imgs masks filesStructure dirIdx w :
  exists w' l,
    preview_case env ds imgs masks filesStructure dirIdx w = (Ok tt, w', l).
Proof.
  rewrite preview_case_cases.
  destruct (preview_attempt _ _ _ _ _ _ w) as [[[[] | e] w1] l1]; eauto.
Qed.

Lemma preview_loop_returns ds imgs masks filesStructure cases :
  forall w, exists w' l,
      preview_loop env ds imgs masks filesStructure cases w = (Ok tt, w', l).
Proof.
  unfold preview_loop.
  induction cases as [|k cases IH]; intros w.
  - cbn. unfold ret. eauto.
  - destruct (preview_case_returns ds imgs masks filesStructure k w)
      as (w1 & l1 & Hk).
    rewrite for_each_cons, (bind_Ok _ _ _ _ _ _ Hk).
    destruct (IH w1) as (w2 & l2 & ->). cbn. eauto.
Qed.

Lemma report_cases startTime w :
  report env startTime w =
  (Ok tt, snd (time_time env w),
   [EvSetText (Completed startTime (fst (time_time env w)));
    EvLogInfo (Completed startTime (fst (time_time env w)))] : list Event).
Proof.
  unfold report, bind, now, emit.
  destruct (time_time env w) as [stop w']. reflexivity.
Qed.

(** C6. A case that raises.  In [process] the handler raises the
    exception again, so a case raises whatever loading, transforming or
    writing it raises; when case [k] raises, [process] raises the same
    exception in the state of that moment: no case after [k] is touched
    and no completion is reported.  In [preview] a case never raises:
    the exception of case [k] is printed, the loop goes on with the
    cases after [k], and [preview] returns after reporting the elapsed
    time. *)
Theorem case_exception_policy
        (imagesInputPath imgPrefix maskPrefix outputPath filesStructure : string)
        (transformations : list (Transform World)) (device : string)
        (w0 : World) (startTime : Z) (imgs masks : list optstr)
        (ds : SlicerAugmentatorDataset World) (w : World) (l0 : list Event)
        (before : list nat) (k : nat) (after : list nat) :
  seq 0 (len ds) = before ++ k :: after ->
  (forall dirIdx wa,
      process_case env ds imgs masks outputPath imgPrefix maskPrefix
        filesStructure dirIdx wa
      = bind (getitem env ds (Z.of_nat dirIdx))
          (fun results =>
             process_results env imgs masks outputPath imgPrefix maskPrefix
               filesStructure dirIdx (fst results) (snd results)) wa) /\
  (forall w1 l1 x w2 l2,
      process_setup env imagesInputPath imgPrefix maskPrefix transformations
        device w0 = (Ok (startTime, imgs, masks, ds), w, l0) ->
      process_loop env ds imgs masks outputPath imgPrefix maskPrefix
        filesStructure before w = (Ok tt, w1, l1) ->
      process_case env ds imgs masks outputPath imgPrefix maskPrefix
        filesStructure k w1 = (Raise x, w2, l2) ->
      process env imagesInputPath imgPrefix maskPrefix outputPath
        filesStructure transformations device w0
      = (Raise x, w2, l0 ++ l1 ++ l2)) /\
  (forall w1 l1 x w2 l2,
      preview_setup env imagesInputPath imgPrefix maskPrefix transformations
        device w0 = (Ok (startTime, imgs, masks, ds), w, l0) ->
      preview_loop env ds imgs masks filesStructure before w
      = (Ok tt, w1, l1) ->
      preview_attempt env ds imgs masks filesStructure k w1
      = (Raise x, w2, l2) ->
      preview_case env ds imgs masks filesStructure k w1
      = (Ok tt, w2, l2 ++ [EvPrint x]) /\
      exists w3 l3,
        preview_loop env ds imgs masks filesStructure after w2
        = (Ok tt, w3, l3) /\
        preview env imagesInputPath imgPrefix maskPrefix transformations
          filesStructure device w0
        = (Ok tt, snd (time_time env w3),
           l0 ++ l1 ++ (l2 ++ [EvPrint x]) ++ l3
              ++ [EvSetText (Completed startTime (fst (time_time env w3)));
                  EvLogInfo (Completed startTime (fst (time_time env w3)))])).
Proof.
  intros Hseq. split; [|split].
  - intros dirIdx wa. apply process_case_reraises.
  - intros w1 l1 x w2 l2 Hsetup Hbefore Hk.
    unfold process. rewrite (bind_Ok _ _ _ _ _ _ Hsetup). cbn beta iota.
    rewrite Hseq. unfold process_loop in *.
    rewrite (bind_Raise _ _ _ _ _ _
               (for_each_raises _ _ _ after _ _ _ _ _ _ Hbefore Hk)).
    reflexivity.
  - intros w1 l1 x w2 l2 Hsetup Hbefore Hk.
    assert (Hcase : preview_case env ds imgs masks filesStructure k w1
                    = (Ok tt, w2, l2 ++ [EvPrint x])).
    { rewrite preview_case_cases, Hk. reflexivity. }
    split; [exact Hcase|].
    destruct (preview_loop_returns ds imgs masks filesStructure after w2)
      as (w3 & l3 & Hafter).
    exists w3, l3. split; [exact Hafter|].
    unfold preview. rewrite (bind_Ok _ _ _ _ _ _ Hsetup). cbn beta iota.
    rewrite Hseq. unfold preview_loop in *.
    pose proof (for_each_continues _ _ _ after _ _ _ _ _ Hbefore Hcase)
      as Hloop.
    rewrite Hafter in Hloop. cbn in Hloop.
    rewrite (bind_Ok _ _ _ _ _ _ Hloop), report_cases. cbn.
    rewrite <- !app_assoc. reflexivity.
Qed.

(** *** The dataset of [preview] *)

Lemma init_fields imgPaths0 maskPaths0 (ts : list (Transform World)) dev ds :
  init env imgPaths0 maskPaths0 ts dev = Ok ds ->
  imgPaths ds = imgPaths0 /\ maskPaths ds = maskPaths0 /\
  transformations ds = ts.
Proof.
  unfold init.
  destruct (if dev =? "CPU" then Ok cpu else _) as [d | e]; [|discriminate].
  intros H. injection H as <-. auto.
Qed.


(** *** What [process] writes *)

Lemma index_nat {A} (l : list A) (i : nat) :
  index l (Z.of_nat i) =
  match nth_error l i with
  | Some a => Ok a
  | None => Raise IndexError
  end.
Proof.
  unfold index.
  destruct (Z.of_nat i <? 0)%Z eqn:Hneg; [apply Z.ltb_lt in Hneg; lia|].
  rewrite Nat2Z.id.
  destruct (nth_error l i) as [a |] eqn:Hn.
  - assert (Hlt : i < List.length l)
      by (apply nth_error_Some; rewrite Hn; discriminate).
    replace ((0 <=? Z.of_nat i) && (Z.of_nat i <? Z.of_nat (List.length l)))%Z
      with true; [reflexivity|].
    symmetry. apply andb_true_intro. split.
    + apply Z.leb_le. lia.
    + apply Z.ltb_lt. lia.
  - destruct ((0 <=? Z.of_nat i) && (Z.of_nat i <? Z.of_nat (List.length l)))%Z;
      reflexivity.
Qed.

Lemma mask_pack_cases (tm : Results) (i : nat) (w : World) :
  mask_pack (Image:=Image) tm i w = (Ok (nth_error tm i), w, []).
Proof.
  unfold mask_pack. destruct (i <? List.length tm)%nat eqn:Hi.
  - apply Nat.ltb_lt in Hi. rewrite index_nat.
    destruct (nth_error tm i) as [p |] eqn:Hn; [reflexivity|].
    apply nth_error_None in Hn. lia.
  - apply Nat.ltb_ge in Hi. apply nth_error_None in Hi. rewrite Hi.
    reflexivity.
Qed.

Lemma split_dot_cons (s : string) : exists a l, split_dot s = a :: l.
Proof.
  induction s as [|c s (a & l & IH)]; cbn; [eauto|].
  destruct (Ascii.eqb c "."%char); [eauto|]. rewrite IH. eauto.
Qed.

Lemma index_first {A} (a : A) (l : list A) : index (a :: l) 0 = Ok a.
Proof. reflexivity. Qed.

Lemma process_position_events outputPath imgPrefix maskPrefix caseName
      originalCaseImg originalCaseMask (ti tm : Results) i w r w'
      (l : list Event) :
  process_position env outputPath imgPrefix maskPrefix caseName
    originalCaseImg originalCaseMask ti tm i w = (r, w', l) ->
  (forall t d p o x,
      In (EvSave mask_volume t d p o x) l ->
      exists m, option_map snd (nth_error tm i) = Some m /\
                t = Torch.detach_cpu m /\ Torch.any m = true) /\
  (r = Ok tt ->
   existsb saves_mask l
   = persist_mask env originalCaseMask (option_map snd (nth_error tm i))).
Proof.
  unfold process_position. rewrite index_nat.
  destruct (nth_error ti i) as [[name img] |].
  2:{ rewrite bind_lift_Raise. intros H. injection H as <- <- <-.
      split; [intros t d p o x []|discriminate]. }
  rewrite bind_lift_Ok. unfold bind at 1. rewrite mask_pack_cases.
  cbn [fst snd app].
  replace (match nth_error tm i with
           | Some p => Some (snd p)
           | None => None
           end) with (option_map snd (nth_error tm i)) by reflexivity.
  generalize (option_map snd (nth_error tm i)). intros msk.
  destruct (split_dot_cons imgPrefix) as (ip0 & ipr & ->).
  destruct (split_dot_cons maskPrefix) as (mp0 & mpr & ->).
  unfold bind, call, lift, ret. rewrite !index_first.
  destruct (makeDir env _ _ _ _ w) as [[dir | e] w1].
  2:{ intros H. injection H as <- <- <-.
      split; [intros t d p o x [[=]|[]]|discriminate]. }
  destruct (save env _ _ _ _ _ w1) as [[[] | e] w2].
  2:{ intros H. injection H as <- <- <-.
      split; [intros t d p o x [[=]|[[=]|[]]]|discriminate]. }
  destruct (persist_mask env originalCaseMask msk) eqn:Hp.
  - unfold persist_mask in Hp.
    destruct originalCaseMask as [om |]; [|discriminate].
    destruct msk as [m |]; [|rewrite andb_false_r in Hp; discriminate].
    apply andb_prop in Hp. destruct Hp as [_ Hany].
    destruct (save env _ _ _ _ _ w2) as [rs w3].
    intros H. injection H as <- <- <-. split.
    + intros t d p o x [[=]|[[=]|[H|[]]]].
      injection H as <- _ _ _ _. exists m. auto.
    + intros _. reflexivity.
  - intros H.
    assert (Hl : l = [EvMakeDir outputPath OUTPUT_IMG_DIR caseName name;
                      EvSave image_volume (Torch.detach_cpu img) dir ip0
                        originalCaseImg (extension (ip0 :: ipr))]).
    { destruct originalCaseMask, msk; injection H as _ _ <-; reflexivity. }
    subst l. split; [intros t d p o x [[=]|[[=]|[]]]|reflexivity].
Qed.

(** One position of [process], event by event: a directory is asked
    for under the name of the image result, the image result is written
    into it, and then the mask result of the same position, if the
    volume read for the mask counts as true and the result is not all
    zero.  A run that does not return stops somewhere on that way. *)
Lemma process_position_trace outputPath imgPrefix maskPrefix caseName
      originalCaseImg originalCaseMask (ti tm : Results) i w r w'
      (l : list Event) :
  process_position env outputPath imgPrefix maskPrefix caseName
    originalCaseImg originalCaseMask ti tm i w = (r, w', l) ->
  (l = [] /\ r <> Ok tt) \/
  exists name img,
    nth_error ti i = Some (name, img) /\
    ((l = [EvMakeDir outputPath OUTPUT_IMG_DIR caseName name] /\
      r <> Ok tt) \/
     exists dir w1,
       makeDir env outputPath OUTPUT_IMG_DIR caseName name w = (Ok dir, w1) /\
       ((l = [EvMakeDir outputPath OUTPUT_IMG_DIR caseName name;
              EvSave image_volume (Torch.detach_cpu img) dir
                (hd "" (split_dot imgPrefix)) originalCaseImg
                (extension (split_dot imgPrefix))] /\
         r <> Ok tt) \/
        l = [EvMakeDir outputPath OUTPUT_IMG_DIR caseName name;
             EvSave image_volume (Torch.detach_cpu img) dir
               (hd "" (split_dot imgPrefix)) originalCaseImg
               (extension (split_dot imgPrefix))]
            ++ match originalCaseMask, nth_error tm i with
               | Some om, Some (_, m) =>
                   if image_bool env om && Torch.any m
                   then [EvSave mask_volume (Torch.detach_cpu m) dir
                           (hd "" (split_dot maskPrefix)) om
                           (extension (split_dot maskPrefix))]
                   else []
               | _, _ => []
               end)).
Proof.
  unfold process_position. rewrite index_nat.
  destruct (nth_error ti i) as [[name img] |].
  2:{ rewrite bind_lift_Raise. intros H. injection H as <- _ <-.
      left. split; [reflexivity|discriminate]. }
  rewrite bind_lift_Ok. unfold bind at 1. rewrite mask_pack_cases.
  cbn [fst snd app].
  destruct (split_dot_cons imgPrefix) as (ip0 & ipr & ->).
  destruct (split_dot_cons maskPrefix) as (mp0 & mpr & ->).
  unfold bind, call, lift, ret. rewrite !index_first. cbn [hd].
  intros H. right. exists name, img. split; [reflexivity|].
  destruct (makeDir env _ _ _ _ w) as [[dir | e] w1].
  2:{ injection H as <- _ <-. left. split; [reflexivity|discriminate]. }
  right. exists dir, w1. split; [reflexivity|].
  destruct (save env _ _ _ _ _ w1) as [[[] | e] w2].
  2:{ injection H as <- _ <-. left. split; [reflexivity|discriminate]. }
  right. unfold persist_mask in H.
  destruct originalCaseMask as [om |].
  2:{ injection H as _ _ <-. reflexivity. }
  destruct (nth_error tm i) as [[n m] |]; cbn [snd] in H.
  2:{ rewrite andb_false_r in H. injection H as _ _ <-. reflexivity. }
  destruct (image_bool env om && Torch.any m).
  - destruct (save env _ _ _ _ _ w2) as [rs w3].
    injection H as _ _ <-. reflexivity.
  - injection H as _ _ <-. reflexivity.
Qed.

Lemma case_header_inv imgs masks filesStructure dirIdx (tm : Results) w r w'
      (l : list Event) :
  case_header env imgs masks filesStructure dirIdx tm w = (r, w', l) ->
  Forall (fun ev => persists ev = false) l /\
  forall caseName originalCaseImg originalCaseMask,
    r = Ok (caseName, originalCaseImg, originalCaseMask) ->
    if nonempty tm
    then exists mpath wa wb om,
        index masks (Z.of_nat dirIdx) = Ok mpath /\
        ReadImage env mpath wa = (Ok om, wb) /\
        originalCaseMask = Some om
    else originalCaseMask = None.
Proof.
  unfold case_header, bind, call, lift, ret.
  destruct (index imgs (Z.of_nat dirIdx)) as [ipath | e].
  2:{ intros H. injection H as <- <- <-. split; [constructor|discriminate]. }
  destruct (getOriginalCase env ipath filesStructure w)
    as [[[caseName0 oimg0] | e] w1].
  2:{ intros H. injection H as <- <- <-.
      split; [repeat constructor|discriminate]. }
  destruct (nonempty tm).
  - destruct (index masks (Z.of_nat dirIdx)) as [mpath | e].
    2:{ intros H. injection H as <- <- <-.
        split; [repeat constructor|discriminate]. }
    destruct (ReadImage env mpath w1) as [[om | e] w2] eqn:Hread.
    2:{ intros H. injection H as <- <- <-.
        split; [repeat constructor|discriminate]. }
    intros H. injection H as <- <- <-. split; [repeat constructor|].
    intros c oi om' Hr. injection Hr as _ _ <-.
    exists mpath, w1, w2, om. auto.
  - intros H. injection H as <- <- <-. split; [repeat constructor|].
    intros c oi om' Hr. injection Hr as _ _ <-. reflexivity.
Qed.

(** The header of a case that goes through: the name and the image
    volume come from [getOriginalCase] on the image path of the case,
    and the mask volume is read from the mask path of the case when
    there are mask results. *)
Lemma case_header_Ok imgs masks filesStructure dirIdx (tm : Results) w
      caseName originalCaseImg originalCaseMask w' (l : list Event) :
  case_header env imgs masks filesStructure dirIdx tm w
  = (Ok (caseName, originalCaseImg, originalCaseMask), w', l) ->
  exists ipath w1,
    index imgs (Z.of_nat dirIdx) = Ok ipath /\
    getOriginalCase env ipath filesStructure w
    = (Ok (caseName, originalCaseImg), w1) /\
    if nonempty tm
    then exists mpath om,
        index masks (Z.of_nat dirIdx) = Ok mpath /\
        ReadImage env mpath w1 = (Ok om, w') /\
        originalCaseMask = Some om
    else originalCaseMask = None.
Proof.
  unfold case_header, bind, call, lift, ret.
  destruct (index imgs (Z.of_nat dirIdx)) as [ipath | e]; [|discriminate].
  destruct (getOriginalCase env ipath filesStructure w)
    as [[[caseName0 oimg0] | e] w1] eqn:Horig; [|discriminate].
  cbn [fst snd].
  destruct (nonempty tm).
  - destruct (index masks (Z.of_nat dirIdx)) as [mpath | e]; [|discriminate].
    destruct (ReadImage env mpath w1) as [[om | e] w2] eqn:Hread;
      [|discriminate].
    intros H. injection H as <- <- <- <- _.
    exists ipath, w1. split; [reflexivity|]. split; [exact Horig|].
    exists mpath, om. auto.
  - intros H. injection H as <- <- <- _ _.
    exists ipath, w1. auto.
Qed.

(** C8. What one case of [process] writes for the masks.  In every
    run, a mask that is written is the mask result of a position of
    [transformedImages], and it is not all zero: a mask result at a
    position that has no image result is never written.  When the case
    is handled to its end, its events are those of the header, then
    those of the positions of [transformedImages] one after the other,
    then the progress; the name and the image volume of the case are
    those [getOriginalCase] gave for its image path, and its mask volume
    has been read from its mask path when there are mask results; and
    at position [i] the masks written are exactly this: the mask result of position [i], brought to the CPU,
    into the directory made for the image result of position [i], under
    the name and extension of the mask prefix and with the mask volume
    of the case, if that volume counts as true and the result is not
    all zero; nothing otherwise. *)
Theorem mask_saved_iff_nontrivial
        (imgs masks : list optstr)
        (outputPath imgPrefix maskPrefix filesStructure : string)
        (dirIdx : nat) (ti tm : Results) (w : World)
        (r : result unit) (w' : World) (l : list Event) :
  process_results env imgs masks outputPath imgPrefix maskPrefix
    filesStructure dirIdx ti tm w = (r, w', l) ->
  (forall t d p o x,
      In (EvSave mask_volume t d p o x) l ->
      exists i n m,
        i < List.length ti /\ nth_error tm i = Some (n, m) /\
        t = Torch.detach_cpu m /\ Torch.any m = true) /\
  (r = Ok tt ->
   exists ipath caseName originalCaseImg w1 originalCaseMask head traces,
     index imgs (Z.of_nat dirIdx) = Ok ipath /\
     getOriginalCase env ipath filesStructure w
     = (Ok (caseName, originalCaseImg), w1) /\
     (if nonempty tm
      then exists mpath om w2,
          index masks (Z.of_nat dirIdx) = Ok mpath /\
          ReadImage env mpath w1 = (Ok om, w2) /\
          originalCaseMask = Some om
      else originalCaseMask = None) /\
     l = head ++ List.concat traces ++ [EvSetValue (dirIdx + 1)] /\
     Forall (fun ev => persists ev = false) head /\
     Forall2
       (fun i tr =>
          exists wa wb name img dir,
            process_position env outputPath imgPrefix maskPrefix caseName
              originalCaseImg originalCaseMask ti tm i wa = (Ok tt, wb, tr) /\
            nth_error ti i = Some (name, img) /\
            fst (makeDir env outputPath OUTPUT_IMG_DIR caseName name wa)
            = Ok dir /\
            filter saves_mask tr
            = match originalCaseMask, nth_error tm i with
              | Some om, Some (_, m) =>
                  if image_bool env om && Torch.any m
                  then [EvSave mask_volume (Torch.detach_cpu m) dir
                          (hd "" (split_dot maskPrefix)) om
                          (extension (split_dot maskPrefix))]
                  else []
              | _, _ => []
              end)
       (seq 0 (List.length ti)) traces).
Proof.
  intros Hrun. unfold process_results in Hrun. apply bind_inv in Hrun.
  destruct Hrun as [(e & Hh & ->) | ([[caseName oimg] omask] & w1 & lh & l2
                                      & Hh & Hrest & ->)].
  - destruct (case_header_inv _ _ _ _ _ _ _ _ _ Hh) as (Hhead & _).
    split; [|discriminate].
    intros t d p o x Hin. rewrite Forall_forall in Hhead.
    apply Hhead in Hin. discriminate.
  - destruct (case_header_inv _ _ _ _ _ _ _ _ _ Hh) as (Hhead & _).
    destruct (case_header_Ok _ _ _ _ _ _ _ _ _ _ _ Hh)
      as (ipath & wh & Hipath & Horig & Hmask).
    apply bind_inv in Hrest.
    assert (Hsaves : forall rl wl ll t d p o x,
               for_each (seq 0 (List.length ti))
                 (process_position env outputPath imgPrefix maskPrefix
                    caseName oimg omask ti tm) w1 = (rl, wl, ll) ->
               In (EvSave mask_volume t d p o x) ll ->
               exists i n m,
                 i < List.length ti /\ nth_error tm i = Some (n, m) /\
                 t = Torch.detach_cpu m /\ Torch.any m = true).
    { intros rl wl ll t d p o x Hloop Hin.
      destruct (for_each_event _ _ _ _ _ _ _ Hloop Hin)
        as (i & wa & ra & wb & t' & Hi & Hpos & Hin').
      apply in_seq in Hi.
      destruct (process_position_events _ _ _ _ _ _ _ _ _ _ _ _ _ Hpos)
        as (Hsave & _).
      destruct (Hsave _ _ _ _ _ Hin') as (m & Hm & -> & Hany).
      destruct (nth_error tm i) as [[n m'] |] eqn:Hn; [|discriminate].
      injection Hm as ->. exists i, n, m. repeat split; auto. lia. }
    destruct Hrest as [(e & Hloop & ->) | ([] & w2 & ll & l3 & Hloop & Hend & ->)].
    + split; [|discriminate].
      intros t d p o x Hin. apply in_app_or in Hin.
      destruct Hin as [Hin | Hin]; [|eapply Hsaves; eassumption].
      rewrite Forall_forall in Hhead. apply Hhead in Hin. discriminate.
    + injection Hend as <- <- <-. split.
      * intros t d p o x Hin. apply in_app_or in Hin.
        destruct Hin as [Hin | Hin].
        { rewrite Forall_forall in Hhead. apply Hhead in Hin. discriminate. }
        apply in_app_or in Hin. destruct Hin as [Hin | [[=] | []]].
        eapply Hsaves; eassumption.
      * intros _.
        destruct (for_each_Ok _ _ _ _ _ Hloop) as (traces & -> & Hall).
        exists ipath, caseName, oimg, wh, omask, lh, traces.
        split; [exact Hipath|]. split; [exact Horig|].
        split.
        { destruct (nonempty tm); [|exact Hmask].
          destruct Hmask as (mpath & om & Hm & Hread & Hom).
          exists mpath, om, w1. auto. }
        split; [reflexivity|]. split; [exact Hhead|].
        eapply Forall2_impl; [|exact Hall].
        intros i tr (wa & wb & Hpos).
        destruct (process_position_trace _ _ _ _ _ _ _ _ _ _ _ _ _ Hpos)
          as [[_ Hr] | (name & img & Hn & [[_ Hr] | (dir & wd & Hdir
                                                     & [[_ Hr] | ->])])];
          try (exfalso; apply Hr; reflexivity).
        exists wa, wb, name, img, dir.
        split; [exact Hpos|]. split; [exact Hn|].
        split; [rewrite Hdir; reflexivity|].
        cbn [app filter saves_mask].
        destruct omask as [om |]; [|reflexivity].
        destruct (nth_error tm i) as [[n m] |]; [|reflexivity].
        destruct (image_bool env om && Torch.any m); reflexivity.
Qed.

(** *** A case whose image did not load, in [process] *)

Lemma load_events (path : optstr) w r w' (l : list Event) :
  load env path w = (r, w', l) -> Forall (fun ev => persists ev = false) l.
Proof.
  rewrite load_cases, decode_cases. destruct (truthy path).
  - destruct (ReadImage env path w) as [[img | e] w1].
    + destruct (tensor_of_image env img); intros H; injection H as _ _ <-;
        repeat constructor.
    + intros H. injection H as _ _ <-. repeat constructor.
  - intros H. injection H as _ _ <-. constructor.
Qed.

Lemma load_case_events ds idx w r w' (l : list Event) :
  load_case env ds idx w = (r, w', l) ->
  Forall (fun ev => persists ev = false) l.
Proof.
  unfold load_case. destruct (index (imgPaths ds) idx) as [ipath | e].
  2:{ rewrite bind_lift_Raise. intros H. injection H as _ _ <-. constructor. }
  rewrite bind_lift_Ok. intros H. apply bind_inv in H.
  destruct H as [(e & Hi & _) | (img & w1 & la & lb & Hi & H & ->)];
    [eapply load_events, Hi|].
  apply Forall_app. split; [eapply load_events, Hi|].
  apply bind_inv in H.
  assert (Hm : forall rm wm lm,
             load_mask env ds idx w1 = (rm, wm, lm) ->
             Forall (fun ev => persists ev = false) lm).
  { unfold load_mask. intros rm wm lm.
    destruct (maskPaths ds) as [mp |].
    - destruct (0 <? List.length mp)%nat.
      + destruct (index mp idx) as [mpath | e].
        * rewrite bind_lift_Ok. apply load_events.
        * rewrite bind_lift_Raise. intros G. injection G as _ _ <-.
          constructor.
      + intros G. injection G as _ _ <-. constructor.
    - intros G. injection G as _ _ <-. constructor. }
  destruct H as [(e & Hmask & _) | (mask & w2 & lc & ld & Hmask & H & ->)];
    [eapply Hm, Hmask|].
  injection H as _ _ <-. rewrite app_nil_r. eapply Hm, Hmask.
Qed.

Lemma on_mask_not_persisted dev mk (l : list Event) :
  Forall (on_mask dev mk) l -> Forall (fun ev => persists ev = false) l.
Proof.
  apply Forall_impl. intros ev. destruct ev; cbn; try contradiction.
  reflexivity.
Qed.

Lemma getitem_absent_image ds idx w mask w1 (l1 : list Event) :
  load_case env ds idx w = (Ok (None, mask), w1, l1) ->
  exists r w2 l2,
    getitem env ds idx w = (r, w2, l1 ++ l2) /\
    Forall (fun ev => persists ev = false) (l1 ++ l2) /\
    forall ti tm,
      r = Ok (ti, tm) ->
      ti = [] /\
      forall mk, mask = Some mk ->
                 Forall2 named (filter deterministic (transformations ds)) tm.
Proof.
  intros Hload. rewrite (getitem_after_load _ _ _ _ _ _ _ Hload).
  pose proof (load_case_events _ _ _ _ _ _ Hload) as Hl1.
  unfold apply_all. destruct mask as [mk |].
  - rewrite apply_all_mask_only.
    destruct (foldM (Image:=Image)
                (fun tm t => apply_transform t (Torch.to (device ds) mk) tm)
                (filter deterministic (transformations ds)) [] w1)
      as [[r w2] l2] eqn:Hrun.
    destruct (mask_branch_trace _ _ _ (filter_deterministic _) _ _ _ _ _ Hrun)
      as (Hev & Hres).
    cbn. do 3 eexists. split; [reflexivity|]. split.
    + apply Forall_app. split; [exact Hl1|].
      eapply on_mask_not_persisted, Hev.
    + intros ti tm Hr. destruct r as [tm' |]; [|discriminate].
      injection Hr as <- <-. split; [reflexivity|].
      intros mk' _. destruct (Hres tm' eq_refl) as (outs & -> & Hall).
      exact Hall.
  - rewrite apply_all_neither. cbn. do 3 eexists.
    split; [reflexivity|]. split.
    + rewrite app_nil_r. exact Hl1.
    + intros ti tm Hr. injection Hr as <- <-. split; [reflexivity|].
      intros mk [=].
Qed.

Lemma process_results_no_image imgs masks outputPath imgPrefix maskPrefix
      filesStructure dirIdx (tm : Results) w :
  process_results env imgs masks outputPath imgPrefix maskPrefix
    filesStructure dirIdx [] tm w
  = bind (case_header env imgs masks filesStructure dirIdx tm)
      (fun _ => emit (EvSetValue (dirIdx + 1))) w.
Proof.
  unfold process_results, bind.
  destruct (case_header env imgs masks filesStructure dirIdx tm w)
    as [[[[[caseName oimg] omask] | e] wh] lh]; reflexivity.
Qed.

(** C10. In [process], a case whose image did not load returns no image
    result (with a mask, one mask result per deterministic transform),
    so the loop over the positions of [transformedImages] does not run
    at all: the case is its header followed by the progress, and none
    of its events creates a directory or writes a volume, image or
    mask. *)
Theorem absent_image_nothing_persisted
        (ds : SlicerAugmentatorDataset World) (imgs masks : list optstr)
        (outputPath imgPrefix maskPrefix filesStructure : string)
        (dirIdx : nat) (w : World) (mask : option Tensor) (w1 : World)
        (l1 : list Event) :
  load_case env ds (Z.of_nat dirIdx) w = (Ok (None, mask), w1, l1) ->
  exists rg wg lg,
    getitem env ds (Z.of_nat dirIdx) w = (rg, wg, lg) /\
    (forall ti tm,
        rg = Ok (ti, tm) ->
        ti = [] /\
        (forall mk, mask = Some mk ->
                    List.length tm
                    = List.length (filter deterministic (transformations ds))) /\
        process_case env ds imgs masks outputPath imgPrefix maskPrefix
          filesStructure dirIdx w
        = let rest := bind (case_header env imgs masks filesStructure dirIdx tm)
                        (fun _ => emit (EvSetValue (dirIdx + 1))) wg in
          (fst (fst rest), snd (fst rest), lg ++ snd rest)) /\
    Forall (fun ev => persists ev = false)
           (snd (process_case env ds imgs masks outputPath imgPrefix
                   maskPrefix filesStructure dirIdx w)).
Proof.
  intros Hload.
  destruct (getitem_absent_image _ _ _ _ _ _ Hload)
    as (rg & wg & l2 & Hget & Hquiet & Hres).
  exists rg, wg, (l1 ++ l2). split; [exact Hget|].
  assert (Hcase : forall tm,
             rg = Ok ([], tm) ->
             process_case env ds imgs masks outputPath imgPrefix maskPrefix
               filesStructure dirIdx w
             = let rest := bind (case_header env imgs masks filesStructure
                                   dirIdx tm)
                             (fun _ => emit (EvSetValue (dirIdx + 1))) wg in
               (fst (fst rest), snd (fst rest), (l1 ++ l2) ++ snd rest)).
  { intros tm ->. rewrite process_case_reraises, (bind_Ok _ _ _ _ _ _ Hget).
    cbn [fst snd]. rewrite process_results_no_image. reflexivity. }
  split.
  - intros ti tm Hr. destruct (Hres ti tm Hr) as (-> & Hnamed).
    split; [reflexivity|]. split; [|apply Hcase, Hr].
    intros mk Hmk. symmetry. eapply Forall2_length, Hnamed, Hmk.
  - destruct rg as [[ti tm] | e].
    + destruct (Hres ti tm eq_refl) as (-> & _).
      rewrite (Hcase tm eq_refl). cbn [snd].
      apply Forall_app. split; [exact Hquiet|].
      unfold bind, emit.
      destruct (case_header env imgs masks filesStructure dirIdx tm wg)
        as [[[h | e] wh] lh] eqn:Hh;
        destruct (case_header_inv _ _ _ _ _ _ _ _ _ Hh) as (Hhead & _);
        cbn [snd]; [|exact Hhead].
      apply Forall_app. split; [exact Hhead | repeat constructor].
    + rewrite process_case_reraises, (bind_Raise _ _ _ _ _ _ Hget).
      exact Hquiet.
Qed.

End Properties.

(** ** The properties at work in the small world *)

Lemma on_values_keys (f : Tensor -> Tensor) (d : dict Tensor) :
  map fst (Example.on_values f d) = map fst d.
Proof.
  unfold Example.on_values. rewrite map_map. reflexivity.
Qed.

Lemma flip_well_behaved : well_behaved Example.flip.
Proof.
  split; [exists "flip"; reflexivity|]. split.
  - intros x w. exists (Example.reversed x), (S w). reflexivity.
  - intros d w. exists (Example.on_values Example.reversed d), (S w).
    split; [reflexivity | apply on_values_keys].
Qed.

Lemma normalize_well_behaved : well_behaved Example.normalize.
Proof.
  split; [exists "normalize"; reflexivity|]. split.
  - intros x w. exists x, w. reflexivity.
  - intros d w. exists d, w. split; reflexivity.
Qed.

(** C9, refuted as stated: a transform that has [get_transform_info]
    but no "class" entry in its descriptor gets no name, neither from
    the descriptor nor from the fallback; naming raises [KeyError] and
    so does the application. *)
Lemma keyless_name_raises :
  get_transform_info Example.keyless = Some (Ok [("id", "140212")]) /\
  transform_name Example.keyless = Raise KeyError /\
  fst (fst (apply_transform (Image:=Example.Image) Example.keyless
              Example.image1 [] 0%nat))
  = Raise KeyError.
Proof. repeat split. Qed.

(** C1 on the first case of the example: a flip, then a normalization. *)
Lemma flip_then_normalize_in_order :
  fst (fst (getitem Example.env
              (Example.dataset [Example.flip; Example.normalize]) 0 0%nat))
  = Ok ([("flip", Example.reversed Example.image1);
         ("normalize", Torch.float Example.image1)],
        [("flip", Example.reversed Example.mask1);
         ("normalize", Torch.float Example.mask1)]).
Proof.
  destruct (results_follow_configuration Example.env
              (Example.dataset [Example.flip; Example.normalize]) 0 0%nat
              Example.image1 Example.mask1 0%nat
              [EvReadImage (Some "c1/img.nrrd");
               EvReadImage (Some "c1/mask.nrrd")] eq_refl) as [H _].
  rewrite (H Example.flip Example.normalize "flip" "normalize" "img" "mask"
             (Example.reversed Example.image1)
             (Example.reversed Example.mask1)
             (Torch.float Example.image1) (Torch.float Example.mask1)
             1%nat 1%nat 1%nat
             eq_refl eq_refl eq_refl eq_refl eq_refl eq_refl eq_refl eq_refl).
  reflexivity.
Defined.

(** C2 on the fourth case of the example, whose image file is missing
    while its mask loads: no image result, and the two deterministic
    transforms leave their mask results (the flip leaves none). *)
Lemma missing_image_mask_results :
  fst (fst (getitem Example.env
              (Example.dataset
                 [Example.flip; Example.normalize; Example.erase]) 3 0%nat))
  = Ok ([], [("normalize", Torch.float Example.mask4);
             ("erase", Example.zeroed (Torch.float Example.mask4))]).
Proof.
  destruct (absent_image_keeps_mask_branch Example.env
              (Example.dataset
                 [Example.flip; Example.normalize; Example.erase]) 3 0%nat
              (Some Example.mask4) 0%nat
              [EvReadImage (Some "c4/img.nrrd");
               EvReadImage (Some "c4/mask.nrrd")] eq_refl)
    as (r & w2 & l2 & Hget & Hti & _ & Hmask & _).
  rewrite Hget. cbn [fst].
  destruct r as [[ti tm] | e].
  - rewrite (Hti ti tm eq_refl).
    vm_compute in Hmask. injection Hmask as <- _ _. reflexivity.
  - vm_compute in Hmask. discriminate Hmask.
Defined.

(** C3 on the first case of the example: the flip stands first in both
    lists, with the two values of one call. *)
Lemma flip_applied_jointly :
  exists x y out wa wb,
    nth_error [("flip", Example.reversed Example.image1);
               ("normalize", Torch.float Example.image1)] 0
    = Some ("flip", x) /\
    nth_error [("flip", Example.reversed Example.mask1);
               ("normalize", Torch.float Example.mask1)] 0
    = Some ("flip", y) /\
    call_dict Example.flip (joint_input cpu Example.image1 Example.mask1) wa
    = (Ok out, wb) /\
    values out = [x; y].
Proof.
  destruct (randomizable_applied_jointly Example.env
              (Example.dataset [Example.flip; Example.normalize]) 0 0%nat
              Example.image1 Example.mask1 0%nat
              [EvReadImage (Some "c1/img.nrrd");
               EvReadImage (Some "c1/mask.nrrd")] eq_refl) as [H _].
  edestruct (H [("flip", Example.reversed Example.image1);
                ("normalize", Torch.float Example.image1)]
               [("flip", Example.reversed Example.mask1);
                ("normalize", Torch.float Example.mask1)])
    as (_ & _ & _ & Hpos); [vm_compute; reflexivity|].
  destruct (Hpos 0%nat Example.flip eq_refl eq_refl)
    as (n & x & y & Hx & Hy & Hn & _ & wa & wb & out & Hcall & Hout).
  injection Hn as <-.
  exists x, y, out, wa, wb. auto.
Defined.

(** C4 on the first case of the example without mask paths. *)
Lemma no_mask_paths_no_mask_results :
  exists ti w2 l,
    getitem Example.env
      (Example.images_only [Example.flip; Example.normalize]) 0 0%nat
    = (Ok (ti, []), w2, l).
Proof.
  destruct (no_mask_no_mask_results Example.env
              (Example.images_only [Example.flip; Example.normalize]) 0 0%nat
              (Some "c1/img.nrrd") (Some Example.image1) 0%nat
              [EvReadImage (Some "c1/img.nrrd")] eq_refl eq_refl
              (or_introl eq_refl)) as [_ H].
  apply H.
  constructor; [apply flip_well_behaved|].
  constructor; [apply normalize_well_behaved | constructor].
Defined.

(** C6 on the five cases of the example.  [process] with a transform
    that refuses the second image stops there with its exception;
    [preview] with a transform that cannot be named prints the
    exception and returns. *)
Lemma second_case_raises :
  fst (fst (process Example.env "in" "img.nrrd" "mask.nrrd" "out" "fs"
              [Example.picky] "CPU" 0%nat))
  = Raise (RuntimeError "unsupported volume") /\
  fst (fst (preview Example.env "in" "img.nrrd" "mask.nrrd"
              [Example.keyless] "fs" "CPU" 0%nat))
  = Ok tt.
Proof.
  split.
  - destruct (case_exception_policy Example.env
                "in" "img.nrrd" "mask.nrrd" "out" "fs" [Example.picky] "CPU"
                0%nat 0%Z (fst Example.found) (snd Example.found)
                (Example.dataset [Example.picky]) 1%nat
                [EvLogInfo Started; EvCollect "in" "img.nrrd" "mask.nrrd";
                 EvSetMaximum 5]
                [0%nat] 1%nat [2%nat; 3%nat; 4%nat] eq_refl)
      as (_ & Hprocess & _).
    erewrite Hprocess;
      [reflexivity | vm_compute; reflexivity ..].
  - destruct (case_exception_policy Example.env
                "in" "img.nrrd" "mask.nrrd" "out" "fs" [Example.keyless] "CPU"
                0%nat 0%Z (fst Example.found) (snd Example.found)
                {| imgPaths := [Some "c1/img.nrrd"];
                   maskPaths := Some [Some "c1/mask.nrrd"];
                   transformations := [Example.keyless];
                   device := cpu |}
                1%nat
                [EvLogInfo Started; EvCollect "in" "img.nrrd" "mask.nrrd";
                 EvClearScene; EvSetMaximum 1]
                [] 0%nat [] eq_refl)
      as (_ & _ & Hpreview).
    edestruct Hpreview as (_ & w3 & l3 & _ & Hrun);
      [vm_compute; reflexivity ..|].
    rewrite Hrun. reflexivity.
Defined.


(** C8 on the first case of the example, flipped and erased: the
    flipped mask is written, into the directory of the flipped image,
    and the erased one is not. *)
Lemma erased_mask_not_written :
  exists head traces,
    snd (process_results Example.env (fst Example.found) (snd Example.found)
           "out" "img.nrrd" "mask.nrrd" "fs" 0
           [("flip", Example.reversed Example.image1);
            ("erase", Example.zeroed (Torch.float Example.image1))]
           [("flip", Example.reversed Example.mask1);
            ("erase", Example.zeroed (Torch.float Example.mask1))] 0%nat)
    = head ++ List.concat traces ++ [EvSetValue 1] /\
    map (filter saves_mask) traces
    = [[EvSave mask_volume
          (Torch.detach_cpu (Example.reversed Example.mask1))
          "out/SlicerAugmentator/c1/flip" "mask" [0; 1; 1; 1]%Z "nrrd"];
       []].
Proof.
  edestruct (mask_saved_iff_nontrivial Example.env
               (fst Example.found) (snd Example.found)
               "out" "img.nrrd" "mask.nrrd" "fs" 0
               [("flip", Example.reversed Example.image1);
                ("erase", Example.zeroed (Torch.float Example.image1))]
               [("flip", Example.reversed Example.mask1);
                ("erase", Example.zeroed (Torch.float Example.mask1))] 0%nat)
    as [_ H]; [vm_compute; reflexivity|].
  destruct (H eq_refl)
    as (ipath & c & oi & w1 & om & head & traces & Hipath & Horig & Hom
        & Hl & _ & Hall).
  vm_compute in Hipath. injection Hipath as <-.
  vm_compute in Horig. injection Horig as <- <- <-.
  destruct Hom as (mpath & om' & w2 & Hmpath & Hread & ->).
  vm_compute in Hmpath. injection Hmpath as <-.
  vm_compute in Hread. injection Hread as <- _.
  exists head, traces. split; [exact Hl|].
  inversion Hall
    as [|i0 t0 s0 ts0 (wa0 & wb0 & n0 & x0 & d0 & _ & Hn0 & Hd0 & H0) Hall0];
    subst.
  inversion Hall0
    as [|i1 t1 s1 ts1 (wa1 & wb1 & n1 & x1 & d1 & _ & Hn1 & Hd1 & H1) Hall1];
    subst.
  inversion Hall1; subst.
  vm_compute in Hn0. injection Hn0 as <- <-.
  vm_compute in Hd0. injection Hd0 as <-.
  cbn [map]. rewrite H0, H1. reflexivity.
Defined.

(** C8 as it was claimed, on the fourth case of the example, whose
    image file is missing: the case has a mask result at position 0 that
    is not all zero, it is handled to its end, and no mask is
    written. *)
Lemma unpaired_mask_not_written :
  fst (fst (getitem Example.env (Example.dataset [Example.normalize]) 3
              0%nat))
  = Ok ([], [("normalize", Torch.float Example.mask4)]) /\
  nontrivial_mask_at [("normalize", Torch.float Example.mask4)] 0 = true /\
  fst (fst (process_case Example.env (Example.dataset [Example.normalize])
              (fst Example.found) (snd Example.found)
              "out" "img.nrrd" "mask.nrrd" "fs" 3 0%nat))
  = Ok tt /\
  existsb saves_mask
    (snd (process_case Example.env (Example.dataset [Example.normalize])
            (fst Example.found) (snd Example.found)
            "out" "img.nrrd" "mask.nrrd" "fs" 3 0%nat))
  = false.
Proof. repeat split. Qed.

(** C10 on the fourth case of the example, whose image file is
    missing: the case goes through and writes nothing. *)
Lemma missing_image_writes_nothing :
  fst (fst (process_case Example.env
              (Example.dataset
                 [Example.flip; Example.normalize; Example.erase])
              (fst Example.found) (snd Example.found)
              "out" "img.nrrd" "mask.nrrd" "fs" 3 0%nat))
  = Ok tt /\
  Forall (fun ev => persists ev = false)
         (snd (process_case Example.env
                 (Example.dataset
                    [Example.flip; Example.normalize; Example.erase])
                 (fst Example.found) (snd Example.found)
                 "out" "img.nrrd" "mask.nrrd" "fs" 3 0%nat)).
Proof.
  destruct (absent_image_nothing_persisted Example.env
              (Example.dataset
                 [Example.flip; Example.normalize; Example.erase])
              (fst Example.found) (snd Example.found)
              "out" "img.nrrd" "mask.nrrd" "fs" 3 0%nat
              (Some Example.mask4) 0%nat
              [EvReadImage (Some "c4/img.nrrd");
               EvReadImage (Some "c4/mask.nrrd")] eq_refl)
    as (rg & wg & lg & _ & _ & Hquiet).
  split; [reflexivity | exact Hquiet].
Defined.

(** ** Further properties *)

Section Further.

Context {World Image : Type} (env : Collaborators World Image).

Local Abbreviation M := (@M World Image).
Local Abbreviation Event := (@Event World Image).

(** *** Indexing the cases *)

Lemma index_out_of_range {A} (l : list A) (i : Z) :
  in_range l i = false -> index l i = Raise IndexError.
Proof.
  unfold in_range, index. intros Hr.
  apply andb_false_iff in Hr.
  destruct (i <? 0)%Z eqn:Hneg;
    [apply Z.ltb_lt in Hneg | apply Z.ltb_ge in Hneg];
    match goal with
    | |- (if ?c then _ else _) = _ => destruct c eqn:Hc; [|reflexivity]
    end;
    apply andb_prop in Hc; destruct Hc as [H0 H1];
    apply Z.leb_le in H0; apply Z.ltb_lt in H1;
    destruct Hr as [Hr | Hr];
    [apply Z.leb_gt in Hr | apply Z.ltb_ge in Hr
     | apply Z.leb_gt in Hr | apply Z.ltb_ge in Hr]; lia.
Qed.

Lemma index_from_the_end {A} (l : list A) (i : Z) :
  (0 <= i < Z.of_nat (List.length l))%Z ->
  index l (i - Z.of_nat (List.length l)) = index l i.
Proof.
  intros Hi. unfold index.
  replace (i - Z.of_nat (List.length l) <? 0)%Z with true
    by (symmetry; apply Z.ltb_lt; lia).
  replace (i <? 0)%Z with false by (symmetry; apply Z.ltb_ge; lia).
  replace (i - Z.of_nat (List.length l) + Z.of_nat (List.length l))%Z
    with i by lia.
  reflexivity.
Qed.

(** X1. An index outside [-n, n), [n] the number of cases, makes
    [__getitem__] raise [IndexError] at once: nothing is read and the
    world is untouched. *)
Theorem getitem_out_of_range (ds : SlicerAugmentatorDataset World) (idx : Z)
        (w : World) :
  in_range (imgPaths ds) idx = false ->
  getitem env ds idx w = (Raise IndexError, w, []).
Proof.
  intros Hr. unfold getitem, load_case.
  rewrite (index_out_of_range _ _ Hr). reflexivity.
Qed.

(** X2. A negative index counts the cases from the end: with no mask
    paths, or as many mask paths as image paths, case [idx - n] is case
    [idx]. *)
Theorem getitem_from_the_end (ds : SlicerAugmentatorDataset World) (idx : Z)
        (w : World) :
  (0 <= idx < Z.of_nat (len ds))%Z ->
  match maskPaths ds with
  | Some mp => mp = [] \/ List.length mp = len ds
  | None => True
  end ->
  getitem env ds (idx - Z.of_nat (len ds)) w = getitem env ds idx w.
Proof.
  intros Hi Hm. unfold getitem, load_case, load_mask, len in *.
  rewrite (index_from_the_end _ _ Hi).
  destruct (maskPaths ds) as [mp |]; [|reflexivity].
  destruct Hm as [-> | Hlen]; [reflexivity|].
  rewrite <- Hlen in *. rewrite (index_from_the_end _ _ Hi). reflexivity.
Qed.

(** X3. Mask paths that do not reach the case are not taken for a
    missing mask: with a non-empty list of mask paths that index [idx]
    does not address, [__getitem__] loads the image and then raises
    [IndexError]. *)
Theorem short_mask_list_raises (ds : SlicerAugmentatorDataset World)
        (idx : Z) (w : World) (mp : list optstr) (ipath : optstr) :
  index (imgPaths ds) idx = Ok ipath ->
  maskPaths ds = Some mp ->
  mp <> [] ->
  in_range mp idx = false ->
  getitem env ds idx w
  = (Raise IndexError, snd (fst (load env ipath w)), snd (load env ipath w)).
Proof.
  intros Hi Hm Hne Hr.
  destruct (load_returns env ipath w) as (img & w1 & l1 & Hload).
  assert (Hmask : load_mask env ds idx w1 = (Raise IndexError, w1, [])).
  { unfold load_mask. rewrite Hm, (index_out_of_range _ _ Hr).
    destruct mp as [|p mp]; [contradiction | reflexivity]. }
  assert (Hcase : load_case env ds idx w = (Raise IndexError, w1, l1)).
  { unfold load_case. rewrite Hi, bind_lift_Ok, (bind_Ok _ _ _ _ _ _ Hload).
    rewrite (bind_Raise _ _ _ _ _ _ Hmask). cbn. rewrite app_nil_r.
    reflexivity. }
  unfold getitem. rewrite (bind_Raise _ _ _ _ _ _ Hcase), Hload.
  reflexivity.
Qed.

(** *** What the dataset does to the world *)

Lemma apply_transform_events (t : Transform World) x lst w r w'
      (l : list Event) :
  apply_transform t x lst w = (r, w', l) ->
  l = [] \/ l = [EvApplyArray t (Torch.float x)].
Proof.
  rewrite apply_transform_cases.
  destruct (transform_name t) as [n | e].
  - destruct (call_array t (Torch.float x) w) as [[y | e] w1];
      intros H; injection H as _ _ <-; auto.
  - intros H. injection H as _ _ <-. auto.
Qed.

Lemma apply_dict_transform_events (t : Transform World) d ti tm w r w'
      (l : list Event) :
  apply_dict_transform t d ti tm w = (r, w', l) ->
  l = [] \/ l = [EvApplyDict t d].
Proof.
  rewrite apply_dict_transform_cases.
  destruct (transform_name t) as [n | e].
  - destruct (call_dict t d w) as [[out | e] w1].
    + destruct tm as [tm0 |].
      * destruct (unpack2 (values out)) as [[x y] | e];
          intros H; injection H as _ _ <-; auto.
      * destruct (subscript out "img") as [v | e];
          intros H; injection H as _ _ <-; auto.
    + intros H. injection H as _ _ <-. auto.
  - intros H. injection H as _ _ <-. auto.
Qed.

Lemma applied_to_image dev im mask (t : Transform World) (l : list Event) :
  randomizable t = false ->
  l = [] \/ l = [EvApplyArray t (Torch.float (Torch.to dev im))] ->
  Forall (applies_loaded dev (Some im) mask) l.
Proof.
  intros Hr [-> | ->]; constructor; [|constructor].
  split; [exact Hr|]. left. exists im. split; reflexivity.
Qed.

Lemma applied_to_mask dev img mk (t : Transform World) (l : list Event) :
  randomizable t = false ->
  l = [] \/ l = [EvApplyArray t (Torch.float (Torch.to dev mk))] ->
  Forall (applies_loaded dev img (Some mk)) l.
Proof.
  intros Hr [-> | ->]; constructor; [|constructor].
  split; [exact Hr|]. right. exists mk. split; reflexivity.
Qed.

Lemma applied_to_dict dev im mask (t : Transform World) (l : list Event) :
  randomizable t = true ->
  l = [] \/
  l = [EvApplyDict t match mask with
                     | Some mk => joint_input dev im mk
                     | None => [("img", Torch.to dev im)]
                     end] ->
  Forall (applies_loaded dev (Some im) mask) l.
Proof.
  intros Hr [-> | ->]; constructor; [|constructor].
  split; [exact Hr|]. exists im. split; reflexivity.
Qed.

Lemma apply_one_events dev img mask acc (t : Transform World) w r w'
      (l : list Event) :
  apply_one dev img mask acc t w = (r, w', l) ->
  Forall (applies_loaded dev img mask) l.
Proof.
  destruct img as [im |], mask as [mk |].
  - rewrite apply_one_both. destruct (randomizable t) eqn:Hr.
    + intros H. apply apply_dict_transform_events in H.
      apply (applied_to_dict dev im (Some mk) t l Hr H).
    + intros H. apply bind_inv in H.
      destruct H as [(e & H1 & _) | (ti1 & w1 & la & lb & H1 & H2 & ->)].
      * eapply applied_to_image, apply_transform_events, H1. exact Hr.
      * apply Forall_app. split.
        { eapply applied_to_image, apply_transform_events, H1. exact Hr. }
        apply bind_inv in H2.
        destruct H2 as [(e & H3 & _) | (tm1 & w2 & lc & ld & H3 & H4 & ->)].
        { eapply applied_to_mask, apply_transform_events, H3. exact Hr. }
        injection H4 as _ _ <-. rewrite app_nil_r.
        eapply applied_to_mask, apply_transform_events, H3. exact Hr.
  - rewrite apply_one_image_only. destruct (randomizable t) eqn:Hr.
    + intros H. apply apply_dict_transform_events in H.
      apply (applied_to_dict dev im None t l Hr H).
    + intros H. apply bind_inv in H.
      destruct H as [(e & H1 & _) | (ti1 & w1 & la & lb & H1 & H2 & ->)].
      * eapply applied_to_image, apply_transform_events, H1. exact Hr.
      * injection H2 as _ _ <-. rewrite app_nil_r.
        eapply applied_to_image, apply_transform_events, H1. exact Hr.
  - rewrite apply_one_mask_only. destruct (randomizable t) eqn:Hr.
    + intros H. injection H as _ _ <-. constructor.
    + intros H. apply bind_inv in H.
      destruct H as [(e & H1 & _) | (ti1 & w1 & la & lb & H1 & H2 & ->)].
      * eapply applied_to_mask, apply_transform_events, H1. exact Hr.
      * injection H2 as _ _ <-. rewrite app_nil_r.
        eapply applied_to_mask, apply_transform_events, H1. exact Hr.
  - rewrite apply_one_neither. intros H. injection H as _ _ <-. constructor.
Qed.

Lemma apply_all_events dev img mask (ts : list (Transform World)) :
  forall acc w r w' (l : list Event),
    foldM (apply_one dev img mask) ts acc w = (r, w', l) ->
    Forall (applies_loaded dev img mask) l.
Proof.
  induction ts as [|t ts IH]; intros acc w r w' l H.
  - injection H as _ _ <-. constructor.
  - rewrite foldM_cons in H. apply bind_inv in H.
    destruct H as [(e & H1 & _) | (a1 & w1 & la & lb & H1 & H2 & ->)].
    + eapply apply_one_events, H1.
    + apply Forall_app. split; [eapply apply_one_events, H1 | eapply IH, H2].
Qed.

Lemma applies_loaded_handed_over dev img mask (ev : Event) :
  applies_loaded dev img mask ev -> handed_over dev img mask ev.
Proof.
  destruct ev; cbn; try contradiction.
  - intros (Hr & [(im & _ & ->) | (mk & _ & ->)]);
      split; [exact Hr | split; reflexivity | exact Hr | split; reflexivity].
  - intros (Hr & im & -> & ->). split; [exact Hr|].
    split; [discriminate|].
    destruct mask as [mk |]; split; try reflexivity; repeat constructor.
Qed.

(** X4. Where the inputs of the transforms are.  After the loading of
    the case, [__getitem__] does nothing but call transforms, and every
    input it hands to a transform has been moved to the device of the
    dataset: a deterministic transform gets a float tensor on that
    device; a randomizable transform is called only when the image
    loaded, and gets a dictionary on that device under the keys [img]
    and [mask], or [img] alone when there is no mask.  This holds for a
    case that returns and for one that raises. *)
Theorem transform_inputs_on_device
        (ds : SlicerAugmentatorDataset World) (idx : Z) (w : World)
        (img mask : option Tensor) (w1 : World) (l1 : list Event)
        (r : result (Results * Results)) (w2 : World) (l : list Event) :
  load_case env ds idx w = (Ok (img, mask), w1, l1) ->
  getitem env ds idx w = (r, w2, l) ->
  exists applied,
    l = l1 ++ applied /\
    Forall (handed_over (device ds) img mask) applied.
Proof.
  intros Hload Hget.
  destruct (getitem_after_load_inv env _ _ _ _ _ _ _ _ _ _ Hload Hget)
    as (applied & Hall & ->).
  exists applied. split; [reflexivity|].
  apply apply_all_events in Hall.
  eapply Forall_impl; [|exact Hall].
  intros ev. apply applies_loaded_handed_over.
Qed.

(** *** The loading of a case *)

Lemma index_in_range {A} (l : list A) (i : Z) :
  in_range l i = true -> exists a, index l i = Ok a.
Proof.
  unfold in_range, index. intros Hr.
  apply andb_prop in Hr. destruct Hr as [H0 H1].
  apply Z.leb_le in H0. apply Z.ltb_lt in H1.
  set (j := (if (i <? 0)%Z then (i + Z.of_nat (List.length l))%Z else i)).
  assert (Hj : (0 <= j < Z.of_nat (List.length l))%Z).
  { subst j. destruct (i <? 0)%Z eqn:Hneg;
      [apply Z.ltb_lt in Hneg | apply Z.ltb_ge in Hneg]; lia. }
  replace ((0 <=? j) && (j <? Z.of_nat (List.length l)))%Z with true.
  - destruct (nth_error l (Z.to_nat j)) as [a |] eqn:Hn; [eauto|].
    apply nth_error_None in Hn. lia.
  - symmetry. apply andb_true_intro. split;
      [apply Z.leb_le | apply Z.ltb_lt]; lia.
Qed.

Lemma index_Raise {A} (l : list A) (i : Z) (e : exn) :
  index l i = Raise e -> e = IndexError /\ in_range l i = false.
Proof.
  intros H. destruct (in_range l i) eqn:Hr.
  - destruct (index_in_range _ _ Hr) as (a & Ha). congruence.
  - rewrite (index_out_of_range _ _ Hr) in H. injection H as <-. auto.
Qed.

Lemma load_reads (path : optstr) w r w' (l : list Event) :
  load env path w = (r, w', l) ->
  (l = [] \/ l = [EvReadImage path]) /\ exists v, r = Ok v.
Proof.
  rewrite load_cases, decode_cases. destruct (truthy path).
  - destruct (ReadImage env path w) as [[img | e] w1].
    + destruct (tensor_of_image env img); intros H; injection H as <- _ <-;
        eauto.
    + intros H. injection H as <- _ <-. eauto.
  - intros H. injection H as <- _ <-. eauto.
Qed.

Lemma load_mask_reads ds idx w r w' (l : list Event) :
  load_mask env ds idx w = (r, w', l) ->
  Forall (fun ev => is_read ev = true) l /\ List.length l <= 1 /\
  forall e, r = Raise e ->
            e = IndexError /\
            exists mp, maskPaths ds = Some mp /\ mp <> [] /\
                       in_range mp idx = false.
Proof.
  unfold load_mask. destruct (maskPaths ds) as [mp |].
  - destruct mp as [|p mp]; cbn [List.length Nat.ltb Nat.leb].
    + intros H. injection H as <- _ <-.
      split; [constructor|]. split; [cbn; lia | discriminate].
    + destruct (index (p :: mp) idx) as [mpath | e] eqn:Hi.
      * rewrite bind_lift_Ok. intros H. apply load_reads in H.
        destruct H as ([-> | ->] & v & ->);
          (split; [repeat constructor|]; split; [cbn; lia | discriminate]).
      * rewrite bind_lift_Raise. intros H. injection H as <- _ <-.
        split; [constructor|]. split; [cbn; lia|].
        intros e' He. injection He as <-.
        destruct (index_Raise _ _ _ Hi) as (-> & Hr).
        split; [reflexivity|]. exists (p :: mp).
        split; [reflexivity|]. split; [discriminate | exact Hr].
  - intros H. injection H as <- _ <-.
    split; [constructor|]. split; [cbn; lia | discriminate].
Qed.

(** X5. The loading of a case reads at most two files and does
    nothing else to the world; whatever is wrong with the files, the
    only exception it raises is [IndexError], and only for an index
    that the image paths or a non-empty list of mask paths do not
    hold. *)
Theorem loading_raises_only_IndexError
        (ds : SlicerAugmentatorDataset World) (idx : Z) (w : World)
        (r : result (option Tensor * option Tensor)) (w' : World)
        (l : list Event) :
  load_case env ds idx w = (r, w', l) ->
  Forall (fun ev => is_read ev = true) l /\
  List.length l <= 2 /\
  forall e,
    r = Raise e ->
    e = IndexError /\
    (in_range (imgPaths ds) idx = false \/
     exists mp, maskPaths ds = Some mp /\ mp <> [] /\
                in_range mp idx = false).
Proof.
  unfold load_case.
  destruct (index (imgPaths ds) idx) as [ipath | e] eqn:Hi.
  - rewrite bind_lift_Ok. intros H. apply bind_inv in H.
    destruct H as [(e & Hl & _) | (img & w1 & la & lb & Hl & H & ->)].
    { apply load_reads in Hl. destruct Hl as (_ & v & Hv). discriminate. }
    apply load_reads in Hl. destruct Hl as (Hla & _).
    apply bind_inv in H.
    destruct H as [(e & Hm & ->) | (mask & w2 & lc & ld & Hm & H & ->)].
    + apply load_mask_reads in Hm. destruct Hm as (Hr & Hlen & He).
      split; [|split].
      * apply Forall_app. split; [|exact Hr].
        destruct Hla as [-> | ->]; repeat constructor.
      * rewrite length_app. destruct Hla as [-> | ->]; cbn; lia.
      * intros e' Heq. injection Heq as <-.
        destruct (He e eq_refl) as (-> & Hmp). auto.
    + injection H as <- _ <-. rewrite app_nil_r.
      apply load_mask_reads in Hm. destruct Hm as (Hr & Hlen & _).
      split; [|split; [|discriminate]].
      * apply Forall_app. split; [|exact Hr].
        destruct Hla as [-> | ->]; repeat constructor.
      * rewrite length_app. destruct Hla as [-> | ->]; cbn; lia.
  - rewrite bind_lift_Raise. intros H. injection H as <- _ <-.
    split; [constructor|]. split; [cbn; lia|].
    intros e' He. injection He as <-.
    destruct (index_Raise _ _ _ Hi) as (-> & Hr). auto.
Qed.

(** *** An image without a mask *)

Lemma apply_one_image_only_Ok dev im ti tm (t : Transform World) w ti' tm'
      w' (l : list Event) :
  apply_one dev (Some im) None (ti, tm) t w = (Ok (ti', tm'), w', l) ->
  exists entry,
    named t entry /\ ti' = ti ++ [entry] /\ l = [image_event dev im t].
Proof.
  rewrite apply_one_image_only. unfold image_event, named.
  destruct (randomizable t).
  - rewrite apply_dict_transform_cases. cbn [fst snd].
    destruct (transform_name t) as [n | e]; [|discriminate].
    destruct (call_dict t _ w) as [[out | e] w1]; [|discriminate].
    destruct (subscript out "img") as [v | e]; [|discriminate].
    intros H. injection H as <- _ _ <-. exists (n, v). auto.
  - intros H. apply bind_inv in H.
    destruct H as [(e & _ & He) | (ti1 & w1 & la & lb & H1 & H2 & ->)];
      [discriminate|].
    injection H2 as <- _ _ <-. cbn [fst snd] in H1.
    rewrite apply_transform_cases in H1.
    destruct (transform_name t) as [n | e]; [|discriminate].
    destruct (call_array t _ w) as [[y | e] wa]; [|discriminate].
    injection H1 as <- _ <-. exists (n, y). auto.
Qed.

Lemma apply_all_image_only_Ok dev im (ts : list (Transform World)) :
  forall ti tm w ti' tm' w' (l : list Event),
    foldM (apply_one dev (Some im) None) ts (ti, tm) w
    = (Ok (ti', tm'), w', l) ->
    exists outs,
      ti' = ti ++ outs /\ Forall2 named ts outs /\
      l = map (image_event dev im) ts.
Proof.
  induction ts as [|t ts IH]; intros ti tm w ti' tm' w' l H.
  - injection H as <- _ _ <-. exists []. rewrite app_nil_r.
    repeat split. constructor.
  - rewrite foldM_cons in H. apply bind_inv in H.
    destruct H as [(e & _ & He) | ([ti1 tm1] & w1 & la & lb & H1 & H2 & ->)];
      [discriminate|].
    apply apply_one_image_only_Ok in H1.
    destruct H1 as (entry & Hn & -> & ->).
    apply IH in H2. destruct H2 as (outs & -> & Hall & ->).
    exists (entry :: outs). rewrite <- app_assoc. repeat split.
    constructor; assumption.
Qed.

(** X6. An image without a mask.  When the case returns, every
    configured transform, randomizable or not, has left one image
    result under its name, in configuration order, and no mask result;
    each transform was called once: a randomizable one on the
    dictionary of the image alone, a deterministic one on the image as
    a float tensor.  The case returns when the transforms are well
    behaved. *)
Theorem image_alone_in_order
        (ds : SlicerAugmentatorDataset World) (idx : Z) (w : World)
        (im : Tensor) (w1 : World) (l1 : list Event) :
  load_case env ds idx w = (Ok (Some im, None), w1, l1) ->
  (forall ti tm w2 l,
      getitem env ds idx w = (Ok (ti, tm), w2, l) ->
      Forall2 named (transformations ds) ti /\ tm = [] /\
      l = l1 ++ map (image_event (device ds) im) (transformations ds)) /\
  (Forall well_behaved (transformations ds) ->
   exists ti w2 l, getitem env ds idx w = (Ok (ti, []), w2, l)).
Proof.
  intros Hload.
  assert (H : forall ti tm w2 l,
             getitem env ds idx w = (Ok (ti, tm), w2, l) ->
             Forall2 named (transformations ds) ti /\ tm = [] /\
             l = l1 ++ map (image_event (device ds) im) (transformations ds)).
  { intros ti tm w2 l Hget.
    destruct (getitem_after_load_inv env _ _ _ _ _ _ _ _ _ _ Hload Hget)
      as (l2 & Hall & ->).
    unfold apply_all in Hall.
    pose proof (apply_all_no_mask _ _ _ _ _ _ _ _ _ Hall) as ->.
    apply apply_all_image_only_Ok in Hall.
    destruct Hall as (outs & -> & Hnamed & ->). auto. }
  split; [exact H|].
  intros Hwb.
  destruct (getitem_returns env _ _ _ _ _ _ _ Hload Hwb)
    as (ti & tm & w2 & l & Hget).
  destruct (H _ _ _ _ Hget) as (_ & -> & _). eauto.
Qed.

(** *** How many results *)

(** X7. How many results a case returns: one image result per
    configured transform when the image loaded and none otherwise; no
    mask result without a mask, one per configured transform with image
    and mask, and one per deterministic transform with a mask and no
    image.  So the two lists differ in length only when one of them is
    empty or the image is missing. *)
Theorem results_count
        (ds : SlicerAugmentatorDataset World) (idx : Z) (w : World)
        (img mask : option Tensor) (w1 : World) (l1 : list Event)
        (ti tm : Results) (w2 : World) (l : list Event) :
  load_case env ds idx w = (Ok (img, mask), w1, l1) ->
  getitem env ds idx w = (Ok (ti, tm), w2, l) ->
  List.length ti = image_results img (transformations ds) /\
  List.length tm = mask_results img mask (transformations ds).
Proof.
  intros Hload Hget.
  destruct (getitem_after_load_inv env _ _ _ _ _ _ _ _ _ _ Hload Hget)
    as (l2 & Hall & ->).
  unfold apply_all in Hall. destruct img as [im |], mask as [mk |]; cbn.
  - apply apply_all_both_Ok in Hall.
    destruct Hall as (outs & -> & -> & Hc & _). cbn.
    rewrite !length_map, (Forall2_length Hc). auto.
  - pose proof (apply_all_no_mask _ _ _ _ _ _ _ _ _ Hall) as ->.
    apply apply_all_image_only_Ok in Hall.
    destruct Hall as (outs & -> & Hnamed & _). cbn.
    rewrite (Forall2_length Hnamed). auto.
  - rewrite apply_all_mask_only in Hall. cbn zeta in Hall.
    destruct (foldM (Image:=Image)
                (fun tm t => apply_transform t (Torch.to (device ds) mk) tm)
                (filter deterministic (transformations ds)) [] w1)
      as [[r wa] la] eqn:Hrun.
    cbn [fst snd] in Hall. destruct r as [tm' |]; [|discriminate].
    injection Hall as <- <- _ _.
    destruct (mask_branch_trace _ _ _ (filter_deterministic _) _ _ _ _ _ Hrun)
      as (_ & Hres).
    destruct (Hres tm' eq_refl) as (outs & -> & Hnamed). cbn.
    rewrite (Forall2_length Hnamed). auto.
  - rewrite apply_all_neither in Hall. injection Hall as <- <- _ _. auto.
Qed.

(** *** A transform that fails *)

Lemma foldM_raises {A B} (f : B -> A -> M B) before t after :
  forall b w b1 w1 l1 x w2 l2,
    foldM f before b w = (Ok b1, w1, l1) ->
    f b1 t w1 = (Raise x, w2, l2) ->
    foldM f (before ++ t :: after) b w = (Raise x, w2, l1 ++ l2).
Proof.
  induction before as [|a before IH]; intros b w b1 w1 l1 x w2 l2 Hb Ht.
  - injection Hb as <- <- <-. cbn [app].
    rewrite foldM_cons, (bind_Raise _ _ _ _ _ _ Ht). reflexivity.
  - rewrite foldM_cons in Hb. apply bind_inv in Hb.
    destruct Hb as [(e & _ & He) | (b' & wa & la & lb & Ha & Hrest & ->)];
      [discriminate|].
    cbn [app]. rewrite foldM_cons, (bind_Ok _ _ _ _ _ _ Ha).
    rewrite (IH _ _ _ _ _ _ _ _ Hrest Ht). cbn. rewrite app_assoc.
    reflexivity.
Qed.

(** X8. The dataset catches nothing that a transform raises.  When the
    transforms before [t] went through and the step of [t] raises,
    [__getitem__] raises the same exception in the state of that
    moment: no later transform is called and no result is returned.
    The step of a deterministic [t] raises what its call on the image
    raises, and then [t] is not called on the mask. *)
Theorem transform_failure_propagates
        (ds : SlicerAugmentatorDataset World) (idx : Z) (w : World)
        (img mask : option Tensor) (w1 : World) (l1 : list Event)
        (before : list (Transform World)) (t : Transform World)
        (after : list (Transform World)) (acc : Results * Results)
        (w2 : World) (l2 : list Event) :
  load_case env ds idx w = (Ok (img, mask), w1, l1) ->
  transformations ds = before ++ t :: after ->
  foldM (apply_one (device ds) img mask) before ([], []) w1
  = (Ok acc, w2, l2) ->
  (forall x w3 l3,
      apply_one (device ds) img mask acc t w2 = (Raise x, w3, l3) ->
      getitem env ds idx w = (Raise x, w3, l1 ++ l2 ++ l3)) /\
  (forall im n x w3,
      img = Some im ->
      randomizable t = false ->
      transform_name t = Ok n ->
      call_array t (Torch.float (Torch.to (device ds) im)) w2
      = (Raise x, w3) ->
      getitem env ds idx w
      = (Raise x, w3,
         l1 ++ l2
            ++ [EvApplyArray t (Torch.float (Torch.to (device ds) im))])).
Proof.
  intros Hload Hts Hbefore.
  assert (H : forall x w3 l3,
             apply_one (device ds) img mask acc t w2 = (Raise x, w3, l3) ->
             getitem env ds idx w = (Raise x, w3, l1 ++ l2 ++ l3)).
  { intros x w3 l3 Ht.
    rewrite (getitem_after_load env _ _ _ _ _ _ _ Hload). unfold apply_all.
    rewrite Hts, (foldM_raises _ _ _ after _ _ _ _ _ _ _ _ Hbefore Ht).
    reflexivity. }
  split; [exact H|].
  intros im n x w3 -> Hr Hn Hcall. apply H.
  destruct mask as [mk |].
  - rewrite apply_one_both, Hr. unfold bind.
    rewrite apply_transform_cases, Hn, Hcall. reflexivity.
  - rewrite apply_one_image_only, Hr. unfold bind.
    rewrite apply_transform_cases, Hn, Hcall. reflexivity.
Qed.

(** X9. How the result of a randomizable transform is read.  With
    image and mask, the result of the call must hold exactly two
    values, else the case raises [ValueError]; with the image alone,
    the result must hold the key "img", else the case raises
    [KeyError].  In both cases the call has been made. *)
Theorem dictionary_result_errors
        (ds : SlicerAugmentatorDataset World) (idx : Z) (w : World)
        (im : Tensor) (mask : option Tensor) (w1 : World) (l1 : list Event)
        (before : list (Transform World)) (t : Transform World)
        (after : list (Transform World)) (acc : Results * Results)
        (w2 : World) (l2 : list Event) (n : string) (out : dict Tensor)
        (w3 : World) :
  load_case env ds idx w = (Ok (Some im, mask), w1, l1) ->
  transformations ds = before ++ t :: after ->
  foldM (apply_one (device ds) (Some im) mask) before ([], []) w1
  = (Ok acc, w2, l2) ->
  randomizable t = true ->
  transform_name t = Ok n ->
  (forall mk,
      mask = Some mk ->
      call_dict t (joint_input (device ds) im mk) w2 = (Ok out, w3) ->
      List.length out <> 2 ->
      getitem env ds idx w
      = (Raise ValueError, w3,
         l1 ++ l2 ++ [EvApplyDict t (joint_input (device ds) im mk)])) /\
  (mask = None ->
   call_dict t [("img", Torch.to (device ds) im)] w2 = (Ok out, w3) ->
   dict_get "img" out = None ->
   getitem env ds idx w
   = (Raise KeyError, w3,
      l1 ++ l2 ++ [EvApplyDict t [("img", Torch.to (device ds) im)]])).
Proof.
  intros Hload Hts Hbefore Hr Hn. split.
  - intros mk -> Hcall Hlen.
    rewrite (getitem_after_load env _ _ _ _ _ _ _ Hload). unfold apply_all.
    rewrite Hts.
    erewrite (foldM_raises _ _ _ after _ _ _ _ _ _ _ _ Hbefore);
      [reflexivity|].
    rewrite apply_one_both, Hr, apply_dict_transform_cases, Hn, Hcall.
    unfold values.
    destruct out as [|a [|b [|c out]]]; cbn in *; try reflexivity.
    contradiction.
  - intros -> Hcall Hkey.
    rewrite (getitem_after_load env _ _ _ _ _ _ _ Hload). unfold apply_all.
    rewrite Hts.
    erewrite (foldM_raises _ _ _ after _ _ _ _ _ _ _ _ Hbefore);
      [reflexivity|].
    rewrite apply_one_image_only, Hr, apply_dict_transform_cases, Hn, Hcall.
    unfold subscript. rewrite Hkey. reflexivity.
Qed.

(** *** File name and extension from a prefix *)

Lemma has_dot_cons (c : ascii) (s : string) :
  has_dot (String c s) = Ascii.eqb "."%char c || has_dot s.
Proof. reflexivity. Qed.

Lemma split_dot_no_dot (s : string) :
  has_dot s = false -> split_dot s = [s].
Proof.
  induction s as [|c s IH]; [reflexivity|].
  rewrite has_dot_cons. intros H. apply orb_false_iff in H.
  destruct H as [Hc Hs]. cbn [split_dot].
  rewrite Ascii.eqb_sym, Hc, (IH Hs). reflexivity.
Qed.

Lemma split_dot_at_dot (a r : string) :
  has_dot a = false ->
  split_dot (a ++ String "."%char r)%string = a :: split_dot r.
Proof.
  induction a as [|c a IH]; intros H.
  - reflexivity.
  - rewrite has_dot_cons in H. apply orb_false_iff in H.
    destruct H as [Hc Ha]. cbn [String.append split_dot].
    rewrite Ascii.eqb_sym, Hc, (IH Ha). reflexivity.
Qed.

Lemma split_dot_joined (s : string) : String.concat "." (split_dot s) = s.
Proof.
  induction s as [|c s IH]; [reflexivity|].
  cbn [split_dot]. destruct (Ascii.eqb c "."%char) eqn:Hc.
  - apply Ascii.eqb_eq in Hc. subst c.
    destruct (split_dot_cons s) as (a & l & Hs). rewrite Hs in *.
    cbn [String.concat]. cbn [String.concat] in IH. 
    destruct l; cbn in *; rewrite IH; reflexivity.
  - destruct (split_dot_cons s) as (a & l & Hs). rewrite Hs in *.
    destruct l; cbn in *; rewrite IH; reflexivity.
Qed.

(** A prefix without a dot is its own first part and has the extension
    [nrrd]; of a prefix with dots, the first part ends at the first dot
    and the extension is what stands between the first dot and the
    second. *)
Lemma split_dot_name_extension (prefix : string) :
  (has_dot prefix = false ->
   hd "" (split_dot prefix) = prefix /\
   extension (split_dot prefix) = "nrrd") /\
  (forall name ext rest,
      has_dot name = false ->
      has_dot ext = false ->
      prefix = (name ++ "." ++ ext)%string \/
      prefix = (name ++ "." ++ ext ++ "." ++ rest)%string ->
      hd "" (split_dot prefix) = name /\
      extension (split_dot prefix) = ext).
Proof.
  split.
  - intros H. rewrite (split_dot_no_dot _ H). split; reflexivity.
  - intros name ext rest Hn He [-> | ->].
    + change (name ++ "." ++ ext)%string
        with (name ++ String "."%char ext)%string.
      rewrite (split_dot_at_dot _ _ Hn), (split_dot_no_dot _ He).
      split; reflexivity.
    + change (name ++ "." ++ ext ++ "." ++ rest)%string
        with (name ++ String "."%char (ext ++ String "."%char rest))%string.
      rewrite (split_dot_at_dot _ _ Hn), (split_dot_at_dot _ _ He).
      destruct (split_dot_cons rest) as (a & l & ->).
      split; reflexivity.
Qed.

Lemma split_dot_parts (s : string) :
  Forall (fun part => has_dot part = false) (split_dot s).
Proof.
  induction s as [|c s IH]; [repeat constructor|].
  cbn [split_dot]. destruct (Ascii.eqb c "."%char) eqn:Hc.
  - constructor; [reflexivity | exact IH].
  - destruct (split_dot s) as [|a l]; [repeat constructor|].
    + rewrite has_dot_cons, Ascii.eqb_sym, Hc. reflexivity.
    + inversion IH as [|? ? Ha Hl]; subst. constructor; [|exact Hl].
      rewrite has_dot_cons, Ascii.eqb_sym, Hc. exact Ha.
Qed.

(** The first part of a prefix has no dot, and the prefix is that part
    alone or that part, a dot and more; the extension has no dot. *)
Lemma split_dot_first_part (prefix : string) :
  has_dot (hd "" (split_dot prefix)) = false /\
  has_dot (extension (split_dot prefix)) = false /\
  (prefix = hd "" (split_dot prefix) \/
   exists rest, prefix = (hd "" (split_dot prefix) ++ "." ++ rest)%string).
Proof.
  pose proof (split_dot_parts prefix) as Hparts.
  pose proof (split_dot_joined prefix) as Hjoin.
  destruct (split_dot_cons prefix) as (a & l & Hs). rewrite Hs in *.
  apply Forall_cons_iff in Hparts. destruct Hparts as [Ha Hl]. cbn [hd].
  split; [exact Ha|]. split.
  - unfold extension. destruct l as [|b l]; [reflexivity|].
    cbn. apply Forall_cons_iff in Hl. exact (proj1 Hl).
  - destruct l as [|b l]; cbn [String.concat] in Hjoin.
    + left. symmetry. exact Hjoin.
    + right. exists (String.concat "." (b :: l)). symmetry. exact Hjoin.
Qed.

(** *** What the events of a case are *)

Lemma load_case_reads ds idx w r w' (l : list Event) :
  load_case env ds idx w = (r, w', l) ->
  Forall (fun ev => is_dataset_event ev = true) l.
Proof.
  unfold load_case.
  destruct (index (imgPaths ds) idx) as [ipath | e].
  2:{ rewrite bind_lift_Raise. intros H. injection H as _ _ <-. constructor. }
  rewrite bind_lift_Ok. intros H. apply bind_inv in H.
  assert (Hread : forall p wa ra wb lb,
             load env p wa = (ra, wb, lb) ->
             Forall (fun ev => is_dataset_event ev = true) lb).
  { intros p wa ra wb lb Hl. apply load_reads in Hl.
    destruct Hl as ([-> | ->] & _); repeat constructor. }
  destruct H as [(e & Hl & _) | (img & w1 & la & lb & Hl & H & ->)];
    [eapply Hread, Hl|].
  apply Forall_app. split; [eapply Hread, Hl|].
  apply bind_inv in H.
  assert (Hmask : forall rm wm lm,
             load_mask env ds idx w1 = (rm, wm, lm) ->
             Forall (fun ev => is_dataset_event ev = true) lm).
  { intros rm wm lm Hm. apply load_mask_reads in Hm.
    destruct Hm as (Hr & _). eapply Forall_impl; [|exact Hr].
    intros ev. destruct ev; cbn; congruence. }
  destruct H as [(e & Hm & _) | (mask & w2 & lc & ld & Hm & H & ->)];
    [eapply Hmask, Hm|].
  injection H as _ _ <-. rewrite app_nil_r. eapply Hmask, Hm.
Qed.

Lemma getitem_dataset_events ds idx w r w' (l : list Event) :
  getitem env ds idx w = (r, w', l) ->
  Forall (fun ev => is_dataset_event ev = true) l.
Proof.
  unfold getitem. intros H. apply bind_inv in H.
  destruct H as [(e & Hl & _) | ([img mask] & w1 & la & lb & Hl & H & ->)];
    [eapply load_case_reads, Hl|].
  apply Forall_app. split; [eapply load_case_reads, Hl|].
  unfold apply_all in H. apply apply_all_events in H.
  eapply Forall_impl; [|exact H].
  intros ev. destruct ev; cbn; try contradiction; reflexivity.
Qed.

Lemma case_header_shape imgs masks filesStructure dirIdx (tm : Results) w r
      w' (l : list Event) :
  case_header env imgs masks filesStructure dirIdx tm w = (r, w', l) ->
  l = [] \/
  (exists ipath, l = [EvGetOriginalCase ipath filesStructure]) \/
  (exists ipath mpath,
      l = [EvGetOriginalCase ipath filesStructure; EvReadImage mpath]).
Proof.
  unfold case_header, bind, call, lift, ret.
  destruct (index imgs (Z.of_nat dirIdx)) as [ipath | e].
  2:{ intros H. injection H as _ _ <-. auto. }
  destruct (getOriginalCase env ipath filesStructure w)
    as [[[caseName0 oimg0] | e] w1].
  2:{ intros H. injection H as _ _ <-. eauto. }
  destruct (nonempty tm).
  - destruct (index masks (Z.of_nat dirIdx)) as [mpath | e].
    2:{ intros H. injection H as _ _ <-. eauto. }
    destruct (ReadImage env mpath w1) as [[om | e] w2];
      intros H; injection H as _ _ <-; eauto.
  - intros H. injection H as _ _ <-. eauto.
Qed.

(** One position of [process]: the events of any run, and those of a
    run that returns. *)
Lemma process_position_shape outputPath imgPrefix maskPrefix caseName
      originalCaseImg originalCaseMask (ti tm : Results) i w r w'
      (l : list Event) :
  process_position env outputPath imgPrefix maskPrefix caseName
    originalCaseImg originalCaseMask ti tm i w = (r, w', l) ->
  Forall saved_from_cpu l /\
  Forall (fun ev => is_progress ev = false) l /\
  Forall (fun ev => shows ev = false) l /\
  (r = Ok tt ->
   exists name img,
     nth_error ti i = Some (name, img) /\
     saved_images l = [Torch.detach_cpu img] /\
     made_dirs l = [name]).
Proof.
  unfold process_position. rewrite index_nat.
  destruct (nth_error ti i) as [[name img] |].
  2:{ rewrite bind_lift_Raise. intros H. injection H as <- _ <-.
      repeat split; try constructor. discriminate. }
  rewrite bind_lift_Ok. unfold bind at 1. rewrite mask_pack_cases.
  cbn [fst snd app].
  generalize (match nth_error tm i with
              | Some p => Some (snd p)
              | None => None
              end). intros msk.
  destruct (split_dot_cons imgPrefix) as (ip0 & ipr & ->).
  destruct (split_dot_cons maskPrefix) as (mp0 & mpr & ->).
  unfold bind, call, lift, ret. rewrite !index_first.
  destruct (makeDir env _ _ _ _ w) as [[dir | e] w1].
  2:{ intros H. injection H as <- _ <-.
      repeat split; repeat constructor. discriminate. }
  destruct (save env _ _ _ _ _ w1) as [[[] | e] w2].
  2:{ intros H. injection H as <- _ <-.
      repeat split; repeat constructor. discriminate. }
  destruct (persist_mask env originalCaseMask msk).
  - destruct originalCaseMask as [om |], msk as [m |];
      try (intros H; injection H as <- _ <-;
           repeat split; repeat constructor; intros _; eauto).
    destruct (save env _ _ _ _ _ w2) as [rs w3].
    intros H. injection H as <- _ <-.
    repeat split; repeat constructor. intros _. eauto.
  - intros H. injection H as <- _ <-.
    repeat split; repeat constructor. intros _. eauto.
Qed.

Lemma quiet_progress (l : list Event) :
  Forall (fun ev => is_progress ev = false) l ->
  progress_values l = [] /\ progress_maxima l = [].
Proof.
  induction 1 as [|ev l Hev _ [IHv IHm]]; [split; reflexivity|].
  unfold progress_values, progress_maxima in *. cbn [flat_map].
  rewrite IHv, IHm. destruct ev; try discriminate; split; reflexivity.
Qed.

Lemma dataset_events_quiet (l : list Event) :
  Forall (fun ev => is_dataset_event ev = true) l ->
  Forall (fun ev => is_progress ev = false) l /\
  Forall (fun ev => persists ev = false) l /\
  Forall (fun ev => shows ev = false) l /\
  Forall saved_from_cpu l.
Proof.
  intros H. repeat split; (eapply Forall_impl; [|exact H]);
    intros ev; destruct ev; cbn; congruence || trivial.
Qed.

Lemma Forall_concat_traces {A} (P : Event -> Prop) (Q : A -> list Event -> Prop)
      (l : list A) (trs : list (list Event)) :
  (forall a t, Q a t -> Forall P t) ->
  Forall2 Q l trs -> Forall P (List.concat trs).
Proof.
  intros HQ. induction 1 as [|a t l trs Hat _ IH]; cbn; [constructor|].
  apply Forall_app. split; [eapply HQ, Hat | exact IH].
Qed.

(** What the positions leave, collected along the results. *)
Lemma positions_collect {B} (g : Event -> list B) (f : string * Tensor -> B)
      (rest : Results) :
  forall (pre : Results) (traces : list (list Event)),
    Forall2 (fun i tr => exists p, nth_error (pre ++ rest) i = Some p /\
                                   flat_map g tr = [f p])
            (seq (List.length pre) (List.length rest)) traces ->
    flat_map g (List.concat traces) = map f rest.
Proof.
  induction rest as [|p0 rest IH]; intros pre traces H.
  - inversion H; subst. reflexivity.
  - cbn [List.length seq] in H.
    inversion H as [|i tr s trs (p & Hp & Hg) Hrest]; subst.
    rewrite nth_error_app2, Nat.sub_diag in Hp by lia.
    injection Hp as <-.
    cbn [List.concat map]. rewrite flat_map_app, Hg. cbn [app]. f_equal.
    apply (IH (pre ++ [p0])).
    rewrite length_app, <- app_assoc. cbn [List.length app].
    replace (List.length pre + 1) with (S (List.length pre)) by lia.
    exact Hrest.
Qed.

(** X11. What a case of [process] that goes through leaves behind:
    every image result was written, once and in the order of the
    results, as a tensor brought to the CPU; one directory was asked
    for per image result, under the name of its transform; and the
    progress was set once, to the number of the case counted from 1. *)
Theorem image_results_written_once
        (imgs masks : list optstr)
        (outputPath imgPrefix maskPrefix filesStructure : string)
        (dirIdx : nat) (ti tm : Results) (w w' : World) (l : list Event) :
  process_results env imgs masks outputPath imgPrefix maskPrefix
    filesStructure dirIdx ti tm w = (Ok tt, w', l) ->
  saved_images l = map (fun p => Torch.detach_cpu (snd p)) ti /\
  made_dirs l = map fst ti /\
  progress_values l = [dirIdx + 1].
Proof.
  intros Hrun. unfold process_results in Hrun. apply bind_inv in Hrun.
  destruct Hrun as [(e & _ & He) | ([[caseName oimg] omask] & w1 & lh & l2
                                     & Hh & Hrest & ->)]; [discriminate|].
  apply bind_inv in Hrest.
  destruct Hrest as [(e & _ & He) | ([] & w2 & ll & l3 & Hloop & Hend & ->)];
    [discriminate|].
  injection Hend as <- <-.
  destruct (for_each_Ok _ _ _ _ _ Hloop) as (traces & -> & Hall).
  assert (Hhead : saved_images lh = [] /\ made_dirs lh = [] /\
                  progress_values lh = []).
  { destruct (case_header_shape _ _ _ _ _ _ _ _ _ Hh)
      as [-> | [(ipath & ->) | (ipath & mpath & ->)]]; repeat split. }
  destruct Hhead as (Hs & Hd & Hp).
  unfold saved_images, made_dirs, progress_values in *.
  rewrite !flat_map_app, Hs, Hd, Hp. cbn [app flat_map].
  rewrite !app_nil_r. split; [|split].
  - apply (positions_collect _ (fun p => Torch.detach_cpu (snd p)) ti []).
    eapply Forall2_impl; [|exact Hall].
    intros i tr (wa & wb & Hpos).
    destruct (process_position_shape _ _ _ _ _ _ _ _ _ _ _ _ _ Hpos)
      as (_ & _ & _ & Hok).
    destruct (Hok eq_refl) as (name & img & Hn & Hsaved & _).
    exists (name, img). auto.
  - apply (positions_collect _ fst ti []).
    eapply Forall2_impl; [|exact Hall].
    intros i tr (wa & wb & Hpos).
    destruct (process_position_shape _ _ _ _ _ _ _ _ _ _ _ _ _ Hpos)
      as (_ & _ & _ & Hok).
    destruct (Hok eq_refl) as (name & img & Hn & _ & Hdirs).
    exists (name, img). auto.
  - assert (Hquiet : Forall (fun ev => is_progress ev = false)
                            (List.concat traces)).
    { eapply Forall_concat_traces; [|exact Hall].
      intros i tr (wa & wb & Hpos).
      destruct (process_position_shape _ _ _ _ _ _ _ _ _ _ _ _ _ Hpos)
        as (_ & Hq & _). exact Hq. }
    apply quiet_progress in Hquiet. destruct Hquiet as [Hv _].
    unfold progress_values in Hv. rewrite Hv. reflexivity.
Qed.

(** *** The run of [process] *)

Lemma for_each_Forall {A} (P : Event -> Prop) (body : A -> M unit) l w r w'
      (tr : list Event) :
  (forall a wa ra wb t, body a wa = (ra, wb, t) -> Forall P t) ->
  for_each l body w = (r, w', tr) -> Forall P tr.
Proof.
  intros Hbody Hrun. apply Forall_forall. intros ev Hin.
  destruct (for_each_event _ _ _ _ _ _ _ Hrun Hin)
    as (a & wa & ra & wb & t & _ & Ha & Hev).
  pose proof (Hbody _ _ _ _ _ Ha) as Ht. rewrite Forall_forall in Ht. auto.
Qed.

Lemma plain_quiet (l : list Event) :
  Forall plain l -> progress_values l = [] /\ progress_maxima l = [].
Proof.
  intros H. apply quiet_progress. eapply Forall_impl; [|exact H].
  intros ev (_ & Hq & _). exact Hq.
Qed.

Lemma dataset_events_plain (l : list Event) :
  Forall (fun ev => is_dataset_event ev = true) l -> Forall plain l.
Proof.
  apply Forall_impl. intros ev. unfold plain.
  destruct ev; cbn; try discriminate; auto.
Qed.

Lemma case_header_plain imgs masks filesStructure dirIdx (tm : Results) w r
      w' (l : list Event) :
  case_header env imgs masks filesStructure dirIdx tm w = (r, w', l) ->
  Forall plain l.
Proof.
  intros H.
  destruct (case_header_shape _ _ _ _ _ _ _ _ _ H)
    as [-> | [(ipath & ->) | (ipath & mpath & ->)]];
    repeat constructor.
Qed.

Lemma process_results_summary imgs masks outputPath imgPrefix maskPrefix
      filesStructure dirIdx (ti tm : Results) w r w' (l : list Event) :
  process_results env imgs masks outputPath imgPrefix maskPrefix
    filesStructure dirIdx ti tm w = (r, w', l) ->
  match r with
  | Ok _ => exists l', l = l' ++ [EvSetValue (dirIdx + 1)] /\ Forall plain l'
  | Raise _ => Forall plain l
  end.
Proof.
  intros Hrun. unfold process_results in Hrun. apply bind_inv in Hrun.
  destruct Hrun as [(e & Hh & ->) | ([[caseName oimg] omask] & w1 & lh & l2
                                      & Hh & Hrest & ->)];
    [eapply case_header_plain, Hh|].
  pose proof (case_header_plain _ _ _ _ _ _ _ _ _ Hh) as Hhead.
  apply bind_inv in Hrest.
  assert (Hpos : forall rl wl ll,
             for_each (seq 0 (List.length ti))
               (process_position env outputPath imgPrefix maskPrefix caseName
                  oimg omask ti tm) w1 = (rl, wl, ll) ->
             Forall plain ll).
  { intros rl wl ll. apply for_each_Forall.
    intros i wa ra wb t Ht.
    destruct (process_position_shape _ _ _ _ _ _ _ _ _ _ _ _ _ Ht)
      as (Hc & Hq & Hs & _).
    rewrite Forall_forall in *. intros ev Hin. repeat split; auto. }
  destruct Hrest as [(e & Hloop & ->) | ([] & w2 & ll & l3 & Hloop & Hend & ->)].
  - apply Forall_app. split; [exact Hhead | eapply Hpos, Hloop].
  - injection Hend as <- _ <-. exists (lh ++ ll).
    split; [rewrite app_assoc; reflexivity|].
    apply Forall_app. split; [exact Hhead | eapply Hpos, Hloop].
Qed.

Lemma process_case_summary ds imgs masks outputPath imgPrefix maskPrefix
      filesStructure dirIdx w r w' (l : list Event) :
  process_case env ds imgs masks outputPath imgPrefix maskPrefix
    filesStructure dirIdx w = (r, w', l) ->
  match r with
  | Ok _ => exists l', l = l' ++ [EvSetValue (dirIdx + 1)] /\ Forall plain l'
  | Raise _ => Forall plain l
  end.
Proof.
  rewrite process_case_reraises. intros H. apply bind_inv in H.
  destruct H as [(e & Hget & ->) | (res & w1 & la & lb & Hget & Hres & ->)].
  - eapply dataset_events_plain, getitem_dataset_events, Hget.
  - pose proof (dataset_events_plain _ (getitem_dataset_events _ _ _ _ _ _ Hget))
      as Hla.
    apply process_results_summary in Hres. destruct r as [u | e].
    + destruct Hres as (l' & -> & Hl'). exists (la ++ l').
      split; [rewrite app_assoc; reflexivity|].
      apply Forall_app. auto.
    + apply Forall_app. auto.
Qed.

Lemma process_loop_summary ds imgs masks outputPath imgPrefix maskPrefix
      filesStructure (cases : list nat) :
  forall w r w' (l : list Event),
    process_loop env ds imgs masks outputPath imgPrefix maskPrefix
      filesStructure cases w = (r, w', l) ->
    Forall saved_from_cpu l /\ Forall (fun ev => shows ev = false) l /\
    progress_maxima l = [] /\
    exists done rest,
      cases = done ++ rest /\
      progress_values l = map S done /\
      (r = Ok tt <-> rest = []).
Proof.
  unfold process_loop.
  induction cases as [|k cases IH]; intros w r w' l H.
  - injection H as <- _ <-. repeat split; try constructor.
    exists [], []. repeat split.
  - rewrite for_each_cons in H. apply bind_inv in H.
    destruct H as [(e & Hk & ->) | ([] & w1 & la & lb & Hk & Hrest & ->)].
    + apply process_case_summary in Hk.
      destruct (plain_quiet _ Hk) as [Hv Hm].
      split; [|split; [|split; [exact Hm|]]].
      * eapply Forall_impl; [|exact Hk]. intros ev (Hc & _). exact Hc.
      * eapply Forall_impl; [|exact Hk]. intros ev (_ & _ & Hs). exact Hs.
      * exists [], (k :: cases). rewrite Hv.
        repeat split; discriminate.
    + apply process_case_summary in Hk. destruct Hk as (l' & -> & Hl').
      destruct (plain_quiet _ Hl') as [Hv Hm].
      destruct (IH _ _ _ _ Hrest)
        as (Hcpu & Hshow & Hmax & done & rest & -> & Hvals & Hiff).
      split; [|split; [|split]].
      * repeat (apply Forall_app; split); [|repeat constructor|exact Hcpu].
        eapply Forall_impl; [|exact Hl']. intros ev (Hc & _). exact Hc.
      * repeat (apply Forall_app; split); [|repeat constructor|exact Hshow].
        eapply Forall_impl; [|exact Hl']. intros ev (_ & _ & Hs). exact Hs.
      * unfold progress_maxima in *. rewrite !flat_map_app, Hm, Hmax.
        reflexivity.
      * exists (k :: done), rest. split; [reflexivity|]. split; [|exact Hiff].
        unfold progress_values in *. rewrite !flat_map_app, Hv, Hvals.
        cbn. rewrite Nat.add_1_r. reflexivity.
Qed.

Lemma process_setup_summary imagesInputPath imgPrefix maskPrefix
      (ts : list (Transform World)) device w r w' (l : list Event) :
  process_setup env imagesInputPath imgPrefix maskPrefix ts device w
  = (r, w', l) ->
  Forall saved_from_cpu l /\ Forall (fun ev => shows ev = false) l /\
  progress_values l = [] /\
  match r with
  | Ok (_, imgs, _, ds) =>
      progress_maxima l = [List.length imgs] /\ len ds = List.length imgs
  | Raise _ => progress_maxima l = []
  end.
Proof.
  unfold process_setup, bind, now, emit, call, lift, ret.
  destruct (time_time env w) as [t0 wa].
  destruct (collectImagesAndMasksList env _ _ _ wa) as [[[imgs masks] | e] wb].
  2:{ intros H. injection H as <- _ <-. repeat split; repeat constructor. }
  cbn [fst snd].
  destruct (validateCollectedImagesAndMasks env imgs masks) as [[] | e].
  2:{ intros H. injection H as <- _ <-. repeat split; repeat constructor. }
  destruct (init env imgs (Some masks) ts device) as [ds | e] eqn:Hinit.
  2:{ intros H. injection H as <- _ <-. repeat split; repeat constructor. }
  destruct (init_fields env _ _ _ _ _ Hinit) as (Hi & _).
  intros H. injection H as <- _ <-. unfold len. rewrite Hi.
  repeat split; repeat constructor.
Qed.

Lemma seq_prefix (done rest : list nat) :
  forall a n, seq a n = done ++ rest -> done = seq a (List.length done).
Proof.
  induction done as [|d done IH]; intros a n H; [reflexivity|].
  destruct n as [|n]; [discriminate|].
  cbn in H. injection H as <- H. cbn. f_equal. eapply IH, H.
Qed.

(** X12. The progress bar in [process].  If the run fails before the
    loop the bar is not touched.  Otherwise its maximum is set once, to
    the number of image paths that were collected, and its value is set
    to 1, 2, ... [k], once for each case that went through; the run
    returns exactly when [k] reaches the maximum. *)
Theorem process_progress
        (imagesInputPath imgPrefix maskPrefix outputPath filesStructure : string)
        (transformations : list (Transform World)) (device : string)
        (w0 : World) (r : result unit) (w' : World) (l : list Event) :
  process env imagesInputPath imgPrefix maskPrefix outputPath filesStructure
    transformations device w0 = (r, w', l) ->
  (progress_maxima l = [] /\ progress_values l = [] /\ r <> Ok tt) \/
  (exists startTime imgs masks ds w1 l0 k,
      process_setup env imagesInputPath imgPrefix maskPrefix transformations
        device w0 = (Ok (startTime, imgs, masks, ds), w1, l0) /\
      progress_maxima l = [List.length imgs] /\
      progress_values l = seq 1 k /\
      k <= List.length imgs /\
      (r = Ok tt <-> k = List.length imgs)).
Proof.
  unfold process. intros H. apply bind_inv in H.
  destruct H as [(e & Hs & ->) | ([[[t0 imgs] masks] ds] & w1 & l0 & l1
                                  & Hs & H & ->)].
  - left. destruct (process_setup_summary _ _ _ _ _ _ _ _ _ Hs)
      as (_ & _ & Hv & Hm).
    repeat split; [exact Hm | exact Hv | discriminate].
  - right. exists t0, imgs, masks, ds, w1, l0.
    destruct (process_setup_summary _ _ _ _ _ _ _ _ _ Hs)
      as (_ & _ & Hv0 & Hm0 & Hlen).
    apply bind_inv in H.
    destruct H as [(e & Hloop & ->) | ([] & w2 & la & lb & Hloop & Hrep & ->)].
    + destruct (process_loop_summary _ _ _ _ _ _ _ _ _ _ _ _ Hloop)
        as (_ & _ & Hm & done & rest & Hcases & Hv & Hiff).
      exists (List.length done).
      pose proof (seq_prefix _ _ _ _ Hcases) as Hdone.
      assert (Hn : List.length done + List.length rest = List.length imgs).
      { pose proof (f_equal (@List.length nat) Hcases) as Hl.
        rewrite length_seq, length_app in Hl. lia. }
      split; [exact Hs|].
      unfold progress_maxima, progress_values in *.
      rewrite !flat_map_app, Hm0, Hm, Hv0, Hv.
      split; [reflexivity|]. split; [|split; [lia|]].
      * cbn [app]. rewrite Hdone at 1. apply seq_shift.
      * split; [discriminate|]. intros Hk.
        assert (rest = []) as Hrest
            by (destruct rest; [reflexivity | cbn in Hn; lia]).
        apply Hiff in Hrest. discriminate.
    + destruct (process_loop_summary _ _ _ _ _ _ _ _ _ _ _ _ Hloop)
        as (_ & _ & Hm & done & rest & Hcases & Hv & Hiff).
      destruct Hiff as [Hrest _]. specialize (Hrest eq_refl). subst rest.
      rewrite app_nil_r in Hcases. subst done.
      rewrite report_cases in Hrep. injection Hrep as <- _ <-.
      exists (List.length imgs). split; [exact Hs|].
      unfold progress_maxima, progress_values in *.
      rewrite !flat_map_app, Hm0, Hm, Hv0, Hv. cbn [flat_map app].
      rewrite !app_nil_r, Hlen.
      split; [reflexivity|]. split; [apply seq_shift|].
      split; [lia|]. split; reflexivity.
Qed.

(** X13. Whatever [process] does, it displays nothing, and every
    volume it writes, image or mask, was brought to the CPU first. *)
Theorem process_writes_from_cpu
        (imagesInputPath imgPrefix maskPrefix outputPath filesStructure : string)
        (transformations : list (Transform World)) (device : string)
        (w0 : World) (r : result unit) (w' : World) (l : list Event) :
  process env imagesInputPath imgPrefix maskPrefix outputPath filesStructure
    transformations device w0 = (r, w', l) ->
  Forall saved_from_cpu l /\ Forall (fun ev => shows ev = false) l.
Proof.
  unfold process. intros H. apply bind_inv in H.
  destruct H as [(e & Hs & ->) | ([[[t0 imgs] masks] ds] & w1 & l0 & l1
                                  & Hs & H & ->)].
  - destruct (process_setup_summary _ _ _ _ _ _ _ _ _ Hs) as (Hc & Hsh & _).
    auto.
  - destruct (process_setup_summary _ _ _ _ _ _ _ _ _ Hs) as (Hc & Hsh & _).
    apply bind_inv in H.
    destruct H as [(e & Hloop & ->) | ([] & w2 & la & lb & Hloop & Hrep & ->)];
      destruct (process_loop_summary _ _ _ _ _ _ _ _ _ _ _ _ Hloop)
        as (Hc1 & Hsh1 & _).
    + split; apply Forall_app; auto.
    + rewrite report_cases in Hrep. injection Hrep as _ _ <-.
      split; repeat (apply Forall_app; split); auto; repeat constructor.
Qed.

(** *** The files of [process] *)

Lemma process_setup_quiet imagesInputPath imgPrefix maskPrefix
      (ts : list (Transform World)) device w r w' (l : list Event) :
  process_setup env imagesInputPath imgPrefix maskPrefix ts device w
  = (r, w', l) ->
  Forall (fun ev => persists ev = false) l.
Proof.
  unfold process_setup, bind, now, emit, call, lift, ret.
  destruct (time_time env w) as [t0 wa].
  destruct (collectImagesAndMasksList env _ _ _ wa) as [[[imgs masks] | e] wb].
  2:{ intros H. injection H as _ _ <-. repeat constructor. }
  cbn [fst snd].
  destruct (validateCollectedImagesAndMasks env imgs masks) as [[] | e].
  2:{ intros H. injection H as _ _ <-. repeat constructor. }
  destruct (init env _ _ ts device) as [ds | e];
    intros H; injection H as _ _ <-; repeat constructor.
Qed.

(** Whatever [process] writes, it writes at a position of a case. *)
Lemma process_writes_at_positions imagesInputPath imgPrefix maskPrefix
      outputPath filesStructure (ts : list (Transform World)) device w0 r w'
      (l : list Event) (ev : Event) :
  process env imagesInputPath imgPrefix maskPrefix outputPath filesStructure
    ts device w0 = (r, w', l) ->
  In ev l ->
  persists ev = true ->
  exists caseName originalCaseImg originalCaseMask ti tm i wa ra wb tr,
    process_position env outputPath imgPrefix maskPrefix caseName
      originalCaseImg originalCaseMask ti tm i wa = (ra, wb, tr) /\
    In ev tr.
Proof.
  intros Hrun Hin Hev.
  assert (Hquiet : forall tr, Forall (fun e => persists e = false) tr ->
                              ~ In ev tr).
  { intros tr Htr Hi. rewrite Forall_forall in Htr. apply Htr in Hi.
    congruence. }
  unfold process in Hrun. apply bind_inv in Hrun.
  destruct Hrun as [(e & Hs & ->) | ([[[t0 imgs] masks] ds] & w1 & l0 & l1
                                     & Hs & Hrun & ->)].
  { exfalso. eapply Hquiet; [eapply process_setup_quiet, Hs | exact Hin]. }
  apply in_app_or in Hin. destruct Hin as [Hin | Hin].
  { exfalso. eapply Hquiet; [eapply process_setup_quiet, Hs | exact Hin]. }
  assert (Hloop : forall rl wl ll,
             process_loop env ds imgs masks outputPath imgPrefix maskPrefix
               filesStructure (seq 0 (len ds)) w1 = (rl, wl, ll) ->
             In ev ll ->
             exists caseName originalCaseImg originalCaseMask ti tm i wa ra wb
                    tr,
               process_position env outputPath imgPrefix maskPrefix caseName
                 originalCaseImg originalCaseMask ti tm i wa = (ra, wb, tr) /\
               In ev tr).
  { intros rl wl ll Hl Hi. unfold process_loop in Hl.
    destruct (for_each_event _ _ _ _ _ _ _ Hl Hi)
      as (k & wa & ra & wb & tk & _ & Hk & Hik).
    rewrite process_case_reraises in Hk. apply bind_inv in Hk.
    destruct Hk as [(e & Hget & ->) | (res & wg & la & lb & Hget & Hres & ->)].
    { exfalso. eapply Hquiet; [|exact Hik].
      eapply dataset_events_quiet, getitem_dataset_events, Hget. }
    apply in_app_or in Hik. destruct Hik as [Hik | Hik].
    { exfalso. eapply Hquiet; [|exact Hik].
      eapply dataset_events_quiet, getitem_dataset_events, Hget. }
    unfold process_results in Hres. apply bind_inv in Hres.
    destruct Hres as [(e & Hh & ->) | ([[caseName oimg] omask] & wh & lh & lr
                                       & Hh & Hres & ->)].
    { exfalso. eapply Hquiet; [|exact Hik].
      eapply case_header_inv, Hh. }
    apply in_app_or in Hik. destruct Hik as [Hik | Hik].
    { exfalso. eapply Hquiet; [|exact Hik].
      eapply case_header_inv, Hh. }
    apply bind_inv in Hres.
    assert (Hpos : forall rp wp lp,
               for_each (seq 0 (List.length (fst res)))
                 (process_position env outputPath imgPrefix maskPrefix
                    caseName oimg omask (fst res) (snd res)) wh
               = (rp, wp, lp) ->
               In ev lp ->
               exists caseName originalCaseImg originalCaseMask ti tm i wa ra
                      wb tr,
                 process_position env outputPath imgPrefix maskPrefix
                   caseName originalCaseImg originalCaseMask ti tm i wa
                 = (ra, wb, tr) /\
                 In ev tr).
    { intros rp wp lp Hp Hip.
      destruct (for_each_event _ _ _ _ _ _ _ Hp Hip)
        as (i & wi & ri & wj & ti' & _ & Hpi & Hini).
      exists caseName, oimg, omask, (fst res), (snd res), i, wi, ri, wj, ti'.
      auto. }
    destruct Hres as [(e & Hp & ->) | ([] & wp & lp & le & Hp & Hend & ->)];
      [eapply Hpos; eassumption|].
    apply in_app_or in Hik. destruct Hik as [Hik | Hik];
      [eapply Hpos; eassumption|].
    injection Hend as _ _ <-. destruct Hik as [<- | []]. discriminate. }
  apply bind_inv in Hrun.
  destruct Hrun as [(e & Hl & ->) | ([] & w2 & la & lb & Hl & Hrep & ->)];
    [eapply Hloop; eassumption|].
  apply in_app_or in Hin. destruct Hin as [Hin | Hin];
    [eapply Hloop; eassumption|].
  rewrite report_cases in Hrep. injection Hrep as _ _ <-.
  destruct Hin as [<- | [<- | []]]; discriminate.
Qed.

(** X10. How [process] names the files it writes.  Every volume
    written in a run of [process], image or mask, in a run that returns
    or one that raises, is written under a file name and an extension
    taken from the prefix of its kind: a prefix without a dot is the
    file name, with the extension [nrrd]; in a prefix with dots, the
    part before the first dot is the file name and the part between the
    first and the second dot is the extension, and what follows a second
    dot is dropped.  In every case the file name has no dot and is the
    prefix up to its first dot. *)
Theorem file_name_and_extension
        (imagesInputPath imgPrefix maskPrefix outputPath filesStructure : string)
        (transformations : list (Transform World)) (device : string)
        (w0 : World) (r : result unit) (w' : World) (l : list Event)
        (role : Role) (file ext : string) :
  process env imagesInputPath imgPrefix maskPrefix outputPath filesStructure
    transformations device w0 = (r, w', l) ->
  In (role, file, ext) (saved_files l) ->
  (has_dot (prefix_of imgPrefix maskPrefix role) = false ->
   file = prefix_of imgPrefix maskPrefix role /\ ext = "nrrd") /\
  (forall name e rest,
      has_dot name = false ->
      has_dot e = false ->
      prefix_of imgPrefix maskPrefix role = (name ++ "." ++ e)%string \/
      prefix_of imgPrefix maskPrefix role
      = (name ++ "." ++ e ++ "." ++ rest)%string ->
      file = name /\ ext = e) /\
  has_dot file = false /\
  has_dot ext = false /\
  (prefix_of imgPrefix maskPrefix role = file \/
   exists rest,
     prefix_of imgPrefix maskPrefix role = (file ++ "." ++ rest)%string).
Proof.
  intros Hrun Hin. unfold saved_files in Hin. apply in_flat_map in Hin.
  destruct Hin as (ev & Hev & Hin).
  destruct ev; try contradiction.
  destruct Hin as [Heq | []]. injection Heq as -> -> ->.
  destruct (process_writes_at_positions _ _ _ _ _ _ _ _ _ _ _ _ Hrun Hev
              eq_refl)
    as (caseName & oimg & omask & ti & tm & i & wa & ra & wb & tr & Hpos
        & Hintr).
  assert (Hnamed : file = hd "" (split_dot (prefix_of imgPrefix maskPrefix role))
                   /\ ext = extension
                              (split_dot (prefix_of imgPrefix maskPrefix role))).
  { destruct (process_position_trace env _ _ _ _ _ _ _ _ _ _ _ _ _ Hpos)
      as [[-> _] | (name & img & _ & [[-> _] | (dr & wd & _ & [[-> _] | ->])])].
    - destruct Hintr.
    - destruct Hintr as [[=] | []].
    - destruct Hintr as [[=] | [H | []]].
      injection H as <- _ _ <- _ <-. split; reflexivity.
    - destruct Hintr as [[=] | [H | Hmask]].
      + injection H as <- _ _ <- _ <-. split; reflexivity.
      + destruct omask as [om |]; [|destruct Hmask].
        destruct (nth_error tm i) as [[n m] |]; [|destruct Hmask].
        destruct (image_bool env om && Torch.any m); [|destruct Hmask].
        destruct Hmask as [H | []].
        injection H as <- _ _ <- _ <-. split; reflexivity. }
  destruct Hnamed as [-> ->].
  destruct (split_dot_name_extension (prefix_of imgPrefix maskPrefix role))
    as [Hplain Hdots].
  destruct (split_dot_first_part (prefix_of imgPrefix maskPrefix role))
    as (Hfile & Hext & Hstart).
  split; [exact Hplain|]. split; [exact Hdots|].
  split; [exact Hfile|]. split; [exact Hext|].
  destruct Hstart as [H | (rest & H)]; [left | right; exists rest];
    exact H.
Qed.

(** *** The run of [preview] *)

Lemma call_cases {A} (ev : Event) (f : extern A) (w : World) :
  call ev f w = (fst (f w), snd (f w), [ev]).
Proof. unfold call. destruct (f w). reflexivity. Qed.

Lemma preview_position_shape caseName originalCaseImg originalCaseMask
      (ti tm : Results) i w r w' (l : list Event) :
  preview_position env caseName originalCaseImg originalCaseMask ti tm i w
  = (r, w', l) ->
  Forall (fun ev => persists ev = false) l /\
  Forall (fun ev => is_progress ev = false) l /\
  (r = Ok tt ->
   exists p, nth_error ti i = Some p /\
             shown l = [(node_name caseName (fst p) "_img", snd p)]).
Proof.
  unfold preview_position. rewrite index_nat.
  destruct (nth_error ti i) as [p |].
  2:{ rewrite bind_lift_Raise. intros H. injection H as <- _ <-.
      repeat split; try constructor. discriminate. }
  rewrite bind_lift_Ok. unfold bind at 1. rewrite mask_pack_cases.
  cbn [fst snd app]. destruct (nth_error tm i) as [q |].
  - unfold bind, ret, call.
    destruct (showPreview env _ _ _ _ _ _ w) as [rs w1].
    intros H. injection H as <- _ <-.
    repeat split; repeat constructor. intros _. exists p. auto.
  - unfold bind, raise. intros H. injection H as <- _ <-.
    repeat split; try constructor. discriminate.
Qed.

Lemma preview_images_shape caseName originalCaseImg (ti : Results) :
  forall w r w' (l : list Event),
    for_each ti (preview_image env caseName originalCaseImg) w = (r, w', l) ->
    Forall (fun ev => persists ev = false) l /\
    Forall (fun ev => is_progress ev = false) l /\
    (r = Ok tt ->
     shown l = map (fun p => (node_name caseName (fst p) "_img", snd p)) ti).
Proof.
  induction ti as [|p ti IH]; intros w r w' l H.
  - injection H as <- _ <-. repeat split; constructor.
  - rewrite for_each_cons in H. apply bind_inv in H.
    assert (Hone : forall r1 w1 l1,
               preview_image env caseName originalCaseImg p w = (r1, w1, l1) ->
               l1 = [EvShowPreview (snd p) originalCaseImg None None
                       (node_name caseName (fst p) "_img") None]).
    { unfold preview_image, call. intros r1 w1 l1.
      destruct (showPreview env _ _ _ _ _ _ w) as [rs ws].
      intros G. injection G as _ _ <-. reflexivity. }
    destruct H as [(e & Hp & ->) | ([] & w1 & la & lb & Hp & Hrest & ->)].
    + rewrite (Hone _ _ _ Hp).
      repeat split; repeat constructor. discriminate.
    + rewrite (Hone _ _ _ Hp).
      destruct (IH _ _ _ _ Hrest) as (Hpers & Hq & Hs).
      repeat split; try (constructor; [reflexivity | assumption]).
      intros Hr. unfold shown in *. cbn [flat_map app map].
      rewrite (Hs Hr). reflexivity.
Qed.

Lemma preview_attempt_summary ds imgs masks filesStructure dirIdx w r w'
      (l : list Event) :
  preview_attempt env ds imgs masks filesStructure dirIdx w = (r, w', l) ->
  Forall (fun ev => persists ev = false) l /\
  (r = Ok tt ->
   exists ti tm wg lg ipath original wo,
     getitem env ds (Z.of_nat dirIdx) w = (Ok (ti, tm), wg, lg) /\
     nth_error imgs dirIdx = Some ipath /\
     getOriginalCase env ipath filesStructure wg = (Ok original, wo) /\
     shown l = map (fun p => (node_name (fst original) (fst p) "_img", snd p))
                   ti /\
     progress_values l = [dirIdx + 1]).
Proof.
  unfold preview_attempt. intros H. apply bind_inv in H.
  destruct H as [(e & Hget & ->) | ([ti tm] & wg & lg & l1 & Hget & H & ->)].
  { destruct (dataset_events_quiet _ (getitem_dataset_events _ _ _ _ _ _ Hget))
      as (_ & Hp & _). split; [exact Hp | discriminate]. }
  destruct (dataset_events_quiet _ (getitem_dataset_events _ _ _ _ _ _ Hget))
    as (Hgq & Hgp & Hgs & _).
  cbn [fst snd] in H. rewrite index_nat in H.
  destruct (nth_error imgs dirIdx) as [ipath |] eqn:Hidx.
  2:{ rewrite bind_lift_Raise in H. injection H as <- _ <-.
      rewrite app_nil_r. split; [exact Hgp | discriminate]. }
  rewrite bind_lift_Ok in H. apply bind_inv in H.
  destruct H as [(e' & He & ->) | (original & wo & la & lb & Horig & H & ->)].
  { rewrite call_cases in He. injection He as _ _ <-.
    split; [|discriminate]. apply Forall_app. split; [exact Hgp|].
    repeat constructor. }
  rewrite call_cases in Horig. injection Horig as Hr0 Hw0 <-.
  assert (Horig : getOriginalCase env ipath filesStructure wg
                  = (Ok original, wo)).
  { destruct (getOriginalCase env ipath filesStructure wg) as [r0 w0'].
    cbn in Hr0, Hw0. subst. reflexivity. }
  clear Hr0 Hw0.
  apply bind_inv in H.
  assert (Hshow : forall rs ws ls,
             (if nonempty tm
              then bind (lift (index masks (Z.of_nat dirIdx)))
                     (fun mpath =>
                        bind (call (EvReadImage mpath) (ReadImage env mpath))
                          (fun originalCaseMask =>
                             for_each (seq 0 (List.length ti))
                               (preview_position env (fst original)
                                  (snd original) originalCaseMask ti tm)))
              else for_each ti (preview_image env (fst original)
                                  (snd original))) wo = (rs, ws, ls) ->
             Forall (fun ev => persists ev = false) ls /\
             Forall (fun ev => is_progress ev = false) ls /\
             (rs = Ok tt ->
              shown ls = map (fun p => (node_name (fst original) (fst p)
                                          "_img", snd p)) ti)).
  { intros rs ws ls. destruct (nonempty tm).
    - destruct (index masks (Z.of_nat dirIdx)) as [mpath | e].
      2:{ rewrite bind_lift_Raise. intros G. injection G as <- _ <-.
          repeat split; try constructor. discriminate. }
      rewrite bind_lift_Ok. intros G. apply bind_inv in G.
      destruct G as [(e' & He & ->) | (om & wm & lr & lp & Hread & G & ->)].
      { rewrite call_cases in He. injection He as _ _ <-.
        repeat split; repeat constructor. discriminate. }
      rewrite call_cases in Hread. injection Hread as _ _ <-.
      assert (Hpos : forall i wa ra wb t,
                 preview_position env (fst original) (snd original) om ti tm
                   i wa = (ra, wb, t) ->
                 Forall (fun ev => persists ev = false) t /\
                 Forall (fun ev => is_progress ev = false) t).
      { intros i wa ra wb t Ht.
        destruct (preview_position_shape _ _ _ _ _ _ _ _ _ _ Ht)
          as (Hp & Hq & _). auto. }
      split; [|split].
      + constructor; [reflexivity|].
        eapply for_each_Forall; [|exact G].
        intros i wa ra wb t Ht. eapply Hpos, Ht.
      + constructor; [reflexivity|].
        eapply for_each_Forall; [|exact G].
        intros i wa ra wb t Ht. eapply Hpos, Ht.
      + intros ->. destruct (for_each_Ok _ _ _ _ _ G) as (traces & -> & Hall).
        unfold shown. cbn [flat_map app].
        apply (positions_collect _
                 (fun p => (node_name (fst original) (fst p) "_img", snd p))
                 ti []).
        eapply Forall2_impl; [|exact Hall].
        intros i tr (wa & wb & Ht).
        destruct (preview_position_shape _ _ _ _ _ _ _ _ _ _ Ht)
          as (_ & _ & Hok).
        exact (Hok eq_refl).
    - apply preview_images_shape. }
  destruct H as [(e' & Hs & ->) | ([] & ws & ls & l2 & Hs & H & ->)].
  { destruct (Hshow _ _ _ Hs) as (Hp & _).
    split; [|discriminate].
    repeat (apply Forall_app; split); auto; repeat constructor. }
  destruct (Hshow _ _ _ Hs) as (Hp & Hq & Hsh). specialize (Hsh eq_refl).
  apply bind_inv in H.
  destruct H as [(e' & He & ->) | ([] & wr & lr & lp & Hreset & H & ->)].
  { rewrite call_cases in He. injection He as _ _ <-. split; [|discriminate].
    repeat (apply Forall_app; split); auto; repeat constructor. }
  rewrite call_cases in Hreset. injection Hreset as _ _ <-.
  injection H as <- _ <-. split.
  - repeat (apply Forall_app; split); auto; repeat constructor.
  - intros _. exists ti, tm, wg, lg, ipath, original, wo.
    split; [exact Hget|]. split; [reflexivity|]. split; [exact Horig|].
    destruct (quiet_progress _ Hgq) as [Hv1 _].
    destruct (quiet_progress _ Hq) as [Hv2 _].
    assert (Hg : shown lg = []).
    { clear - Hgs. induction Hgs as [|ev lg Hev _ IH]; [reflexivity|].
      unfold shown in *. cbn [flat_map]. rewrite IH.
      destruct ev; try discriminate; reflexivity. }
    unfold shown, progress_values in *.
    rewrite !flat_map_app, Hg, Hsh, Hv1, Hv2. cbn.
    rewrite app_nil_r. auto.
Qed.

Lemma preview_setup_quiet imagesInputPath imgPrefix maskPrefix
      (ts : list (Transform World)) device w r w' (l : list Event) :
  preview_setup env imagesInputPath imgPrefix maskPrefix ts device w
  = (r, w', l) ->
  Forall (fun ev => persists ev = false) l.
Proof.
  unfold preview_setup, bind, now, emit, call, lift, ret.
  destruct (time_time env w) as [t0 wa].
  destruct (collectImagesAndMasksList env _ _ _ wa) as [[[imgs masks] | e] wb].
  2:{ intros H. injection H as _ _ <-. repeat constructor. }
  cbn [fst snd].
  destruct (validateCollectedImagesAndMasks env imgs masks) as [[] | e].
  2:{ intros H. injection H as _ _ <-. repeat constructor. }
  destruct (clearScene env wb) as [[[] | e] wc].
  2:{ intros H. injection H as _ _ <-. repeat constructor. }
  destruct (init env _ _ ts device) as [ds | e];
    intros H; injection H as _ _ <-; repeat constructor.
Qed.

Lemma preview_case_quiet ds imgs masks filesStructure dirIdx w r w'
      (l : list Event) :
  preview_case env ds imgs masks filesStructure dirIdx w = (r, w', l) ->
  Forall (fun ev => persists ev = false) l.
Proof.
  rewrite preview_case_cases.
  destruct (preview_attempt env ds imgs masks filesStructure dirIdx w)
    as [[[u | e] w1] l1] eqn:Ha;
    destruct (preview_attempt_summary _ _ _ _ _ _ _ _ _ Ha) as (Hp & _);
    intros H; injection H as _ _ <-; [exact Hp|].
  apply Forall_app. split; [exact Hp | repeat constructor].
Qed.

(** X14. [preview] is without effect on the output: whatever
    happens, it creates no directory and writes no volume.  And it
    raises only what its preparation raises (finding the files,
    validating them, clearing the scene, building the dataset): once
    the loop is reached it returns. *)
Theorem preview_never_writes
        (imagesInputPath imgPrefix maskPrefix : string)
        (transformations : list (Transform World))
        (filesStructure device : string)
        (w0 : World) (r : result unit) (w' : World) (l : list Event) :
  preview env imagesInputPath imgPrefix maskPrefix transformations
    filesStructure device w0 = (r, w', l) ->
  Forall (fun ev => persists ev = false) l /\
  forall e,
    r = Raise e ->
    preview_setup env imagesInputPath imgPrefix maskPrefix transformations
      device w0 = (Raise e, w', l).
Proof.
  unfold preview. intros H. apply bind_inv in H.
  destruct H as [(e & Hs & ->) | ([[[t0 imgs] masks] ds] & w1 & l0 & l1
                                  & Hs & H & ->)].
  - split; [eapply preview_setup_quiet, Hs|].
    intros e' He. injection He as <-. exact Hs.
  - pose proof (preview_setup_quiet _ _ _ _ _ _ _ _ _ Hs) as Hq0.
    destruct (preview_loop_returns env ds imgs masks filesStructure
                (seq 0 (len ds)) w1) as (w2 & l2 & Hloop).
    rewrite (bind_Ok _ _ _ _ _ _ Hloop), report_cases in H.
    injection H as <- _ <-. split; [|discriminate].
    apply Forall_app. split; [exact Hq0|].
    apply Forall_app. split; [|repeat constructor].
    unfold preview_loop in Hloop. eapply for_each_Forall; [|exact Hloop].
    intros k wa ra wb t. apply preview_case_quiet.
Qed.

(** X15. What a case of [preview] that goes through displays: one
    node per image result of the case, in the order of the results,
    under the name [caseName_transformName_img], with the case name
    that [getOriginalCase] gave for the image path; and the progress is
    set once, to the number of the case counted from 1.  So a case
    whose image did not load displays nothing. *)
Theorem preview_shows_image_results
        (ds : SlicerAugmentatorDataset World) (imgs masks : list optstr)
        (filesStructure : string) (dirIdx : nat) (w w' : World)
        (l : list Event) :
  preview_attempt env ds imgs masks filesStructure dirIdx w = (Ok tt, w', l) ->
  (exists ti tm wg lg ipath original wo,
      getitem env ds (Z.of_nat dirIdx) w = (Ok (ti, tm), wg, lg) /\
      nth_error imgs dirIdx = Some ipath /\
      getOriginalCase env ipath filesStructure wg = (Ok original, wo) /\
      shown l = map (fun p => (node_name (fst original) (fst p) "_img",
                               snd p)) ti /\
      progress_values l = [dirIdx + 1]) /\
  (forall mask w1 l1,
      load_case env ds (Z.of_nat dirIdx) w = (Ok (None, mask), w1, l1) ->
      shown l = []).
Proof.
  intros H.
  destruct (preview_attempt_summary _ _ _ _ _ _ _ _ _ H) as (_ & Hok).
  specialize (Hok eq_refl). split; [exact Hok|].
  intros mask w1 l1 Hload.
  destruct Hok as (ti & tm & wg & lg & ipath & original & wo & Hget & _ & _
                   & Hshown & _).
  destruct (getitem_absent_image env _ _ _ _ _ _ Hload)
    as (rg & w2 & l2 & Hget' & _ & Hres).
  rewrite Hget in Hget'. injection Hget' as <- _ _.
  destruct (Hres ti tm eq_refl) as (-> & _). exact Hshown.
Qed.

End Further.

(** ** The further properties at work in the small world *)

Lemma run_parts {A B C} (x : A * B * C) :
  x = (fst (fst x), snd (fst x), snd x).
Proof. destruct x as [[a b] c]. reflexivity. Qed.

(** X1 on the example: there is no sixth case. *)
Lemma no_sixth_case :
  getitem Example.env (Example.dataset [Example.flip]) 5 0%nat
  = (Raise IndexError, 0%nat, []).
Proof.
  apply (getitem_out_of_range Example.env). reflexivity.
Defined.

(** X2 on the example: case -1 is the fifth case. *)
Lemma last_case_from_the_end :
  getitem Example.env (Example.dataset [Example.flip]) (4 - 5) 0%nat
  = getitem Example.env (Example.dataset [Example.flip]) 4 0%nat.
Proof.
  apply (getitem_from_the_end Example.env (Example.dataset [Example.flip])
           4 0%nat).
  - cbn. lia.
  - right. reflexivity.
Defined.

(** X3 on the example with one mask path: the second case raises. *)
Lemma second_case_without_mask_path :
  fst (fst (getitem Example.env (Example.one_mask [Example.flip]) 1 0%nat))
  = Raise IndexError.
Proof.
  rewrite (short_mask_list_raises Example.env
             (Example.one_mask [Example.flip]) 1 0%nat
             [Some "c1/mask.nrrd"] (Some "c2/img.nrrd")
             eq_refl eq_refl).
  - reflexivity.
  - discriminate.
  - reflexivity.
Defined.

(** X4 on the first case of the example. *)
Lemma first_case_inputs_on_cpu :
  exists applied,
    snd (getitem Example.env
           (Example.dataset [Example.flip; Example.normalize]) 0 0%nat)
    = [EvReadImage (Some "c1/img.nrrd"); EvReadImage (Some "c1/mask.nrrd")]
        ++ applied /\
    Forall (handed_over cpu (Some Example.image1) (Some Example.mask1))
           applied.
Proof.
  destruct (transform_inputs_on_device Example.env
              (Example.dataset [Example.flip; Example.normalize]) 0 0%nat
              (Some Example.image1) (Some Example.mask1) 0%nat
              [EvReadImage (Some "c1/img.nrrd");
               EvReadImage (Some "c1/mask.nrrd")]
              _ _ _ eq_refl (run_parts _))
    as (applied & Hl & Hover).
  exists applied. split; assumption.
Defined.

(** X5 on the fourth case of the example, whose image file is
    missing. *)
Lemma missing_file_is_no_error :
  fst (fst (load_case Example.env (Example.dataset [Example.flip]) 3 0%nat))
  = Ok (None, Some Example.mask4) /\
  List.length (snd (load_case Example.env (Example.dataset [Example.flip])
                      3 0%nat)) <= 2.
Proof.
  split; [reflexivity|].
  destruct (loading_raises_only_IndexError Example.env
              (Example.dataset [Example.flip]) 3 0%nat _ _ _ (run_parts _))
    as (_ & Hlen & _).
  exact Hlen.
Defined.

(** X6 on the first case of the example without mask paths. *)
Lemma image_alone_named :
  exists ti tm w2 l,
    getitem Example.env
      (Example.images_only [Example.flip; Example.normalize]) 0 0%nat
    = (Ok (ti, tm), w2, l) /\
    Forall2 named [Example.flip; Example.normalize] ti /\ tm = [].
Proof.
  destruct (image_alone_in_order Example.env
              (Example.images_only [Example.flip; Example.normalize]) 0 0%nat
              Example.image1 0%nat [EvReadImage (Some "c1/img.nrrd")] eq_refl)
    as [Hshape Hreturns].
  destruct Hreturns as (ti & w2 & l & Hget).
  { constructor; [apply flip_well_behaved|].
    constructor; [apply normalize_well_behaved | constructor]. }
  destruct (Hshape _ _ _ _ Hget) as (Hnamed & _ & _).
  exists ti, [], w2, l. auto.
Defined.

(** X7 on the fourth case of the example: no image result, and a mask
    result for each of the two deterministic transforms. *)
Lemma missing_image_counts :
  exists ti tm,
    fst (fst (getitem Example.env
                (Example.dataset
                   [Example.flip; Example.normalize; Example.erase])
                3 0%nat))
    = Ok (ti, tm) /\
    List.length ti = 0 /\ List.length tm = 2.
Proof.
  edestruct (results_count Example.env
               (Example.dataset
                  [Example.flip; Example.normalize; Example.erase])
               3 0%nat None (Some Example.mask4)) as [Hi Hm];
    [vm_compute; reflexivity | vm_compute; reflexivity |].
  do 2 eexists. split; [vm_compute; reflexivity|].
  split; [exact Hi | exact Hm].
Defined.

(** X8 on the second case of the example: the transform refuses the
    image, and the case raises what the transform raised. *)
Lemma refused_image_raises :
  getitem Example.env (Example.dataset [Example.picky]) 1 0%nat
  = (Raise (RuntimeError "unsupported volume"), 0%nat,
     [EvReadImage (Some "c2/img.nrrd"); EvReadImage (Some "c2/mask.nrrd");
      EvApplyArray Example.picky (Torch.float Example.image2)]).
Proof.
  destruct (transform_failure_propagates Example.env
              (Example.dataset [Example.picky]) 1 0%nat
              (Some Example.image2) (Some Example.mask2) 0%nat
              [EvReadImage (Some "c2/img.nrrd");
               EvReadImage (Some "c2/mask.nrrd")]
              [] Example.picky [] ([], []) 0%nat []
              eq_refl eq_refl eq_refl) as [_ H].
  exact (H Example.image2 "picky" (RuntimeError "unsupported volume") 0%nat
           eq_refl eq_refl eq_refl eq_refl).
Defined.

(** X9 on the first case of the example, with a transform that
    returns an empty dictionary. *)
Lemma empty_dictionary_raises :
  fst (fst (getitem Example.env (Example.dataset [Example.lossy]) 0 0%nat))
  = Raise ValueError /\
  fst (fst (getitem Example.env (Example.images_only [Example.lossy]) 0
              0%nat))
  = Raise KeyError.
Proof.
  split.
  - destruct (dictionary_result_errors Example.env
                (Example.dataset [Example.lossy]) 0 0%nat
                Example.image1 (Some Example.mask1) 0%nat
                [EvReadImage (Some "c1/img.nrrd");
                 EvReadImage (Some "c1/mask.nrrd")]
                [] Example.lossy [] ([], []) 0%nat [] "lossy" [] 1%nat
                eq_refl eq_refl eq_refl eq_refl eq_refl) as [H _].
    rewrite (H Example.mask1 eq_refl eq_refl); [reflexivity | discriminate].
  - destruct (dictionary_result_errors Example.env
                (Example.images_only [Example.lossy]) 0 0%nat
                Example.image1 None 0%nat
                [EvReadImage (Some "c1/img.nrrd")]
                [] Example.lossy [] ([], []) 0%nat [] "lossy" [] 1%nat
                eq_refl eq_refl eq_refl eq_refl eq_refl) as [_ H].
    rewrite (H eq_refl eq_refl eq_refl). reflexivity.
Defined.

(** X11 on the first case of the example, flipped and erased: both
    images are written, the erased one as well. *)
Lemma both_images_written :
  saved_images
    (snd (process_results Example.env (fst Example.found)
            (snd Example.found) "out" "img.nrrd" "mask.nrrd" "fs" 0
            [("flip", Example.reversed Example.image1);
             ("erase", Example.zeroed (Torch.float Example.image1))]
            [("flip", Example.reversed Example.mask1);
             ("erase", Example.zeroed (Torch.float Example.mask1))] 0%nat))
  = [Torch.detach_cpu (Example.reversed Example.image1);
     Torch.detach_cpu (Example.zeroed (Torch.float Example.image1))].
Proof.
  edestruct (image_results_written_once Example.env
               (fst Example.found) (snd Example.found)
               "out" "img.nrrd" "mask.nrrd" "fs" 0
               [("flip", Example.reversed Example.image1);
                ("erase", Example.zeroed (Torch.float Example.image1))]
               [("flip", Example.reversed Example.mask1);
                ("erase", Example.zeroed (Torch.float Example.mask1))] 0%nat)
    as (Hsaved & _); [vm_compute; reflexivity|].
  exact Hsaved.
Defined.

(** X12 on the five cases of the example: they all go through, and the
    progress runs from 1 to 5. *)
Lemma progress_of_five_cases :
  progress_maxima
    (snd (process Example.env "in" "img.nrrd" "mask.nrrd" "out" "fs"
            [Example.flip] "CPU" 0%nat)) = [5] /\
  progress_values
    (snd (process Example.env "in" "img.nrrd" "mask.nrrd" "out" "fs"
            [Example.flip] "CPU" 0%nat)) = [1; 2; 3; 4; 5].
Proof.
  destruct (process_progress Example.env "in" "img.nrrd" "mask.nrrd" "out"
              "fs" [Example.flip] "CPU" 0%nat _ _ _ (run_parts _))
    as [(_ & _ & Hr) | (t0 & imgs & masks & ds & w1 & l0 & k & Hs & Hm & Hv
                        & _ & Hk)].
  - exfalso. apply Hr. reflexivity.
  - vm_compute in Hs. injection Hs as _ <- _ _ _ _.
    destruct Hk as [Hk _]. rewrite (Hk eq_refl) in Hv.
    split; [exact Hm | exact Hv].
Defined.

(** X13 on the five cases of the example. *)
Lemma five_cases_written_from_cpu :
  Forall saved_from_cpu
    (snd (process Example.env "in" "img.nrrd" "mask.nrrd" "out" "fs"
            [Example.flip; Example.erase] "CPU" 0%nat)).
Proof.
  destruct (process_writes_from_cpu Example.env "in" "img.nrrd" "mask.nrrd"
              "out" "fs" [Example.flip; Example.erase] "CPU" 0%nat _ _ _
              (run_parts _)) as [H _].
  exact H.
Defined.

(** X14 on the example. *)
Lemma preview_of_example_writes_nothing :
  Forall (fun ev => persists ev = false)
    (snd (preview Example.env "in" "img.nrrd" "mask.nrrd"
            [Example.flip; Example.erase] "fs" "CPU" 0%nat)).
Proof.
  destruct (preview_never_writes Example.env "in" "img.nrrd" "mask.nrrd"
              [Example.flip; Example.erase] "fs" "CPU" 0%nat _ _ _
              (run_parts _)) as [H _].
  exact H.
Defined.

(** X15 on the first case of the example, flipped and erased. *)
Lemma first_case_on_display :
  shown
    (snd (preview_attempt Example.env
            (Example.dataset [Example.flip; Example.erase])
            (fst Example.found) (snd Example.found) "fs" 0 0%nat))
  = [("c1_flip_img", Example.reversed Example.image1);
     ("c1_erase_img", Example.zeroed (Torch.float Example.image1))].
Proof.
  edestruct (preview_shows_image_results Example.env
               (Example.dataset [Example.flip; Example.erase])
               (fst Example.found) (snd Example.found) "fs" 0 0%nat)
    as [(ti & tm & wg & lg & ipath & original & wo & Hget & Hidx & Horig
         & Hshown & _) _]; [vm_compute; reflexivity|].
  vm_compute in Hget. injection Hget as <- _ _ _.
  vm_compute in Hidx. injection Hidx as <-.
  vm_compute in Horig. injection Horig as <- _.
  exact Hshown.
Defined.

(** X10 on the five cases of the example, with the prefixes
    [img.nii.gz] and [mask]: every image is written as [img] with the
    extension [nii], every mask as [mask] with the extension [nrrd]. *)
Lemma prefix_with_two_dots :
  In (image_volume, "img", "nii")
     (saved_files
        (snd (process Example.env "in" "img.nii.gz" "mask" "out" "fs"
                [Example.flip] "CPU" 0%nat))) /\
  In (mask_volume, "mask", "nrrd")
     (saved_files
        (snd (process Example.env "in" "img.nii.gz" "mask" "out" "fs"
                [Example.flip] "CPU" 0%nat))) /\
  Forall (fun f => f = (image_volume, "img", "nii") \/
                   f = (mask_volume, "mask", "nrrd"))
         (saved_files
            (snd (process Example.env "in" "img.nii.gz" "mask" "out" "fs"
                    [Example.flip] "CPU" 0%nat))).
Proof.
  split; [vm_compute; auto|]. split; [vm_compute; auto|].
  apply Forall_forall. intros [[role file] ext] Hin.
  destruct (file_name_and_extension Example.env "in" "img.nii.gz" "mask"
              "out" "fs" [Example.flip] "CPU" 0%nat _ _ _ role file ext
              (run_parts _) Hin) as (Hplain & Hdots & _).
  destruct role.
  - left.
    destruct (Hdots "img" "nii" "gz" eq_refl eq_refl (or_intror eq_refl))
      as [-> ->].
    reflexivity.
  - right. destruct (Hplain eq_refl) as [-> ->]. reflexivity.
Defined.
